(** * vtkReebGraph: the pool store, the node order, vertex collapse,
      regularity, arc persistence and the ordering of candidate paths

    A shallow embedding of the inline code of [Filtering/vtkReebGraph.h]:
    the three slot tables with their free lists, the macros that read and
    update them, [AddArc], and [vtkReebPath::operator<].

    Conventions of the embedding.
    - [vtkIdType] values are integers ([Z]); where the source narrows one to
      [int] the conversion [to_int] is written out, and [++]/[--] on an [int]
      counter is undefined on overflow.
    - [double] is the binary64 type of the kernel ([PrimFloat.float]): [<] is
      [PrimFloat.ltb], [==] is [PrimFloat.eqb], [-] and [/] are the IEEE
      operations.
    - A table's [Buffer] is the list of its slots; [Buffer + i] is slot [i].
      Dereferencing the null pointer that [vtkReebGraphGetNode] (and its
      siblings for arcs and labels) yields for id [0], or a pointer outside
      the buffer, is undefined behaviour: the embedding returns [None].
    - The methods that the header only declares are not embedded, with one
      exception: the return values of [Build], modelled from the
      specification and the header's comments. *)

From Stdlib Require Import ZArith Floats Lia.
From stdpp Require Import base option list strings.

Local Open Scope Z_scope.

(** ** Machine integers *)

Definition INT_MIN : Z := - 2 ^ 31.
Definition INT_MAX : Z := 2 ^ 31 - 1.

Definition in_int (z : Z) : Prop := INT_MIN <= z <= INT_MAX.

(** Conversion of a [vtkIdType] to [int] (modular). *)
Definition to_int (z : Z) : Z := (z + 2 ^ 31) mod 2 ^ 32 - 2 ^ 31.

(** [++] and [--] on an [int]: signed overflow is undefined. *)
Definition int_incr (z : Z) : option Z :=
  if decide (z < INT_MAX) then Some (z + 1) else None.
Definition int_decr (z : Z) : option Z :=
  if decide (INT_MIN < z) then Some (z - 1) else None.

(** ** Node, arc and label structures *)

Record vtkReebNode := mkNode {
  VertexId : Z;
  Value : float;
  ArcDownId : Z;
  ArcUpId : Z;
  IsFinalized : bool;
  IsCritical : bool
}.

Record vtkReebArc := mkArc {
  NodeId0 : Z; ArcUpId0 : Z; ArcDwId0 : Z;
  NodeId1 : Z; ArcUpId1 : Z; ArcDwId1 : Z;
  LabelId0 : Z; LabelId1 : Z
}.

Record vtkReebLabel := mkLabel {
  ArcId : Z;
  HPrev : Z; HNext : Z;
  label : Z;
  VPrev : Z; VNext : Z
}.

(** What [memset(p, 0, sizeof( * p))] leaves in a slot. *)
Definition zero_node : vtkReebNode := mkNode 0 0%float 0 0 false false.
Definition zero_arc : vtkReebArc := mkArc 0 0 0 0 0 0 0 0.
Definition zero_label : vtkReebLabel := mkLabel 0 0 0 0 0 0.

(** Assignments to one field. *)
Definition set_ArcDownId (v : Z) (n : vtkReebNode) : vtkReebNode :=
  mkNode (VertexId n) (Value n) v (ArcUpId n) (IsFinalized n) (IsCritical n).
Definition set_ArcUpId (v : Z) (n : vtkReebNode) : vtkReebNode :=
  mkNode (VertexId n) (Value n) (ArcDownId n) v (IsFinalized n) (IsCritical n).

Definition set_NodeId1 (v : Z) (a : vtkReebArc) : vtkReebArc :=
  mkArc (NodeId0 a) (ArcUpId0 a) (ArcDwId0 a) v (ArcUpId1 a) (ArcDwId1 a)
        (LabelId0 a) (LabelId1 a).
Definition set_ArcUpId1 (v : Z) (a : vtkReebArc) : vtkReebArc :=
  mkArc (NodeId0 a) (ArcUpId0 a) (ArcDwId0 a) (NodeId1 a) v (ArcDwId1 a)
        (LabelId0 a) (LabelId1 a).
Definition set_ArcDwId1 (v : Z) (a : vtkReebArc) : vtkReebArc :=
  mkArc (NodeId0 a) (ArcUpId0 a) (ArcDwId0 a) (NodeId1 a) (ArcUpId1 a) v
        (LabelId0 a) (LabelId1 a).
Definition set_LabelId0 (v : Z) (a : vtkReebArc) : vtkReebArc :=
  mkArc (NodeId0 a) (ArcUpId0 a) (ArcDwId0 a) (NodeId1 a) (ArcUpId1 a)
        (ArcDwId1 a) v (LabelId1 a).
Definition set_LabelId1 (v : Z) (a : vtkReebArc) : vtkReebArc :=
  mkArc (NodeId0 a) (ArcUpId0 a) (ArcDwId0 a) (NodeId1 a) (ArcUpId1 a)
        (ArcDwId1 a) (LabelId0 a) v.

Definition set_ArcId (v : Z) (l : vtkReebLabel) : vtkReebLabel :=
  mkLabel v (HPrev l) (HNext l) (label l) (VPrev l) (VNext l).
Definition set_HNext (v : Z) (l : vtkReebLabel) : vtkReebLabel :=
  mkLabel (ArcId l) (HPrev l) v (label l) (VPrev l) (VNext l).
Definition set_VPrev (v : Z) (l : vtkReebLabel) : vtkReebLabel :=
  mkLabel (ArcId l) (HPrev l) (HNext l) (label l) v (VNext l).
Definition set_VNext (v : Z) (l : vtkReebLabel) : vtkReebLabel :=
  mkLabel (ArcId l) (HPrev l) (HNext l) (label l) (VPrev l) v.

(** ** The slot tables

    [struct { int Size, Number, FreeZone; T* Buffer; }], three times. *)

Record Table (T : Type) := mkTable {
  Size : Z;
  Number : Z;
  FreeZone : Z;
  Buffer : list T
}.
Arguments mkTable {T} _ _ _ _.
Arguments Size {T} _.
Arguments Number {T} _.
Arguments FreeZone {T} _.
Arguments Buffer {T} _.

Record vtkReebGraph := mkGraph {
  MainArcTable : Table vtkReebArc;
  MainNodeTable : Table vtkReebNode;
  MainLabelTable : Table vtkReebLabel;
  MinimumScalarValue : float;
  MaximumScalarValue : float
}.

Definition set_MainArcTable (t : Table vtkReebArc) (rg : vtkReebGraph) :=
  mkGraph t (MainNodeTable rg) (MainLabelTable rg)
          (MinimumScalarValue rg) (MaximumScalarValue rg).
Definition set_MainNodeTable (t : Table vtkReebNode) (rg : vtkReebGraph) :=
  mkGraph (MainArcTable rg) t (MainLabelTable rg)
          (MinimumScalarValue rg) (MaximumScalarValue rg).
Definition set_MainLabelTable (t : Table vtkReebLabel) (rg : vtkReebGraph) :=
  mkGraph (MainArcTable rg) (MainNodeTable rg) t
          (MinimumScalarValue rg) (MaximumScalarValue rg).

(** ** Slots behind a pointer

    [peek tbl i] reads through [(!i) ? 0 : tbl.Buffer + i]; [poke tbl i f]
    assigns through it. *)

Definition peek {T} (tbl : Table T) (i : Z) : option T :=
  if decide (0 < i) then Buffer tbl !! Z.to_nat i else None.

Definition poke {T} (tbl : Table T) (i : Z) (f : T → T) : option (Table T) :=
  x ← peek tbl i;
  Some (mkTable (Size tbl) (Number tbl) (FreeZone tbl)
                (<[Z.to_nat i := f x]> (Buffer tbl))).

Definition vtkReebGraphGetNode (rg : vtkReebGraph) (nodeId : Z) :=
  peek (MainNodeTable rg) nodeId.
Definition vtkReebGraphGetArc (rg : vtkReebGraph) (i : Z) :=
  peek (MainArcTable rg) i.
Definition vtkReebGraphGetLabel (rg : vtkReebGraph) (i : Z) :=
  peek (MainLabelTable rg) i.

Definition pokeNode (rg : vtkReebGraph) (N : Z) (f : vtkReebNode → vtkReebNode) :=
  t ← poke (MainNodeTable rg) N f; Some (set_MainNodeTable t rg).
Definition pokeArc (rg : vtkReebGraph) (A : Z) (f : vtkReebArc → vtkReebArc) :=
  t ← poke (MainArcTable rg) A f; Some (set_MainArcTable t rg).
Definition pokeLabel (rg : vtkReebGraph) (L : Z) (f : vtkReebLabel → vtkReebLabel) :=
  t ← poke (MainLabelTable rg) L f; Some (set_MainLabelTable t rg).

(** ** Cleared slots *)

Definition vtkReebGraphClearNode rg N := pokeNode rg N (set_ArcUpId (-2)).
Definition vtkReebGraphClearArc rg A := pokeArc rg A (set_LabelId1 (-2)).
Definition vtkReebGraphClearLabel rg L := pokeLabel rg L (set_HNext (-2)).

Definition vtkReebGraphIsNodeCleared rg N : option bool :=
  n ← vtkReebGraphGetNode rg N; Some (bool_decide (ArcUpId n = -2)).
Definition vtkReebGraphIsArcCleared rg A : option bool :=
  a ← vtkReebGraphGetArc rg A; Some (bool_decide (LabelId1 a = -2)).
Definition vtkReebGraphIsLabelCleared rg L : option bool :=
  l ← vtkReebGraphGetLabel rg L; Some (bool_decide (HNext l = -2)).

(** ** Allocation: pop the free list, count, zero the slot

    The free list is threaded through [ArcDownId] (nodes), [LabelId0] (arcs)
    and [ArcId] (labels). Each function returns the id and the new graph. *)

Definition vtkReebGraphNewNode (rg : vtkReebGraph) : option (Z * vtkReebGraph) :=
  let tbl := MainNodeTable rg in
  let N := FreeZone tbl in
  n ← peek tbl N;
  num ← int_incr (Number tbl);
  t ← poke (mkTable (Size tbl) num (to_int (ArcDownId n)) (Buffer tbl)) N
           (λ _, zero_node);
  Some (N, set_MainNodeTable t rg).

Definition vtkReebGraphNewArc (rg : vtkReebGraph) : option (Z * vtkReebGraph) :=
  let tbl := MainArcTable rg in
  let A := FreeZone tbl in
  a ← peek tbl A;
  num ← int_incr (Number tbl);
  t ← poke (mkTable (Size tbl) num (to_int (LabelId0 a)) (Buffer tbl)) A
           (λ _, zero_arc);
  Some (A, set_MainArcTable t rg).

Definition vtkReebGraphNewLabel (rg : vtkReebGraph) : option (Z * vtkReebGraph) :=
  let tbl := MainLabelTable rg in
  let L := FreeZone tbl in
  l ← peek tbl L;
  num ← int_incr (Number tbl);
  t ← poke (mkTable (Size tbl) num (to_int (ArcId l)) (Buffer tbl)) L
           (λ _, zero_label);
  Some (L, set_MainLabelTable t rg).

(** ** Deallocation: clear, push on the free list, count *)

Definition vtkReebGraphDeleteNode (rg : vtkReebGraph) (N : Z) : option vtkReebGraph :=
  rg ← vtkReebGraphClearNode rg N;
  rg ← pokeNode rg N (set_ArcDownId (FreeZone (MainNodeTable rg)));
  let tbl := MainNodeTable rg in
  num ← int_decr (Number tbl);
  Some (set_MainNodeTable (mkTable (Size tbl) num (to_int N) (Buffer tbl)) rg).

Definition vtkReebGraphDeleteArc (rg : vtkReebGraph) (A : Z) : option vtkReebGraph :=
  rg ← vtkReebGraphClearArc rg A;
  rg ← pokeArc rg A (set_LabelId0 (FreeZone (MainArcTable rg)));
  let tbl := MainArcTable rg in
  num ← int_decr (Number tbl);
  Some (set_MainArcTable (mkTable (Size tbl) num (to_int A) (Buffer tbl)) rg).

Definition vtkReebGraphDeleteLabel (rg : vtkReebGraph) (L : Z) : option vtkReebGraph :=
  rg ← vtkReebGraphClearLabel rg L;
  rg ← pokeLabel rg L (set_ArcId (FreeZone (MainLabelTable rg)));
  let tbl := MainLabelTable rg in
  num ← int_decr (Number tbl);
  Some (set_MainLabelTable (mkTable (Size tbl) num (to_int L) (Buffer tbl)) rg).

(** ** The order on nodes

    [vtkReebGraphIsSmaller]: by [Value], ties broken by the node id. *)

Definition vtkReebGraphIsSmaller (nodeId0 nodeId1 : Z)
    (node0 node1 : vtkReebNode) : bool :=
  PrimFloat.ltb (Value node0) (Value node1)
  || (PrimFloat.eqb (Value node0) (Value node1) && bool_decide (nodeId0 < nodeId1)).

Definition vtkReebGraphIsSmaller2 (rg : vtkReebGraph) (nodeId0 nodeId1 : Z)
    : option bool :=
  node0 ← vtkReebGraphGetNode rg nodeId0;
  node1 ← vtkReebGraphGetNode rg nodeId1;
  Some (vtkReebGraphIsSmaller nodeId0 nodeId1 node0 node1).

(** The order of the specification:
    [less((v,vid),(w,wid)) ≡ v<w ∨ (v=w ∧ vid<wid)], [vid] the mesh vertex id. *)
Definition spec_less (n m : vtkReebNode) : bool :=
  PrimFloat.ltb (Value n) (Value m)
  || (PrimFloat.eqb (Value n) (Value m) && bool_decide (VertexId n < VertexId m)).

(** ** [AddArc]

    [AddArc_nodevtkReebArcble] is the two-entry table the method builds after
    the conditional swap; [AddArc] hands it to [AddPath], whose body is not
    part of the header and is a parameter here. *)

Definition AddArc_nodevtkReebArcble (rg : vtkReebGraph) (nodeId0 nodeId1 : Z)
    : option (list Z) :=
  b ← vtkReebGraphIsSmaller2 rg nodeId0 nodeId1;
  Some (if negb b then [nodeId1; nodeId0] else [nodeId0; nodeId1]).

Section AddArc.
Variable AddPath :
  vtkReebGraph → Z → list Z → Z → option (Z * vtkReebGraph).

Definition AddArc (rg : vtkReebGraph) (nodeId0 nodeId1 : Z)
    : option (Z * vtkReebGraph) :=
  nodevtkReebArcble ← AddArc_nodevtkReebArcble rg nodeId0 nodeId1;
  AddPath rg 2 nodevtkReebArcble 0.
End AddArc.

(** ** Arc persistence (the default metric) *)

Definition vtkReebGraphGetArcPersistence (rg : vtkReebGraph) (a : vtkReebArc)
    : option float :=
  n1 ← vtkReebGraphGetNode rg (NodeId1 a);
  n0 ← vtkReebGraphGetNode rg (NodeId0 a);
  Some (PrimFloat.div
          (PrimFloat.sub (Value n1) (Value n0))
          (PrimFloat.sub (MaximumScalarValue rg) (MinimumScalarValue rg))).

(** ** Regular nodes and degrees *)

Definition vtkReebGraphIsRegular (rg : vtkReebGraph) (n : vtkReebNode)
    : option bool :=
  if IsCritical n then Some false
  else if decide (ArcDownId n = 0) then Some false
  else
    ad ← vtkReebGraphGetArc rg (ArcDownId n);
    if decide (ArcDwId1 ad ≠ 0) then Some false
    else if decide (ArcUpId n = 0) then Some false
    else
      au ← vtkReebGraphGetArc rg (ArcUpId n);
      Some (bool_decide (ArcDwId0 au = 0)).

(** The [for] loops of the degree macros: [_A] is an [int], [dst] the
    caller's counter. [fuel] bounds the number of iterations: the macros are
    run with as much fuel as the arc table has slots, which a list that
    reaches the null id never uses up ([chain_length] below); on a list that
    does not reach it the source does not terminate and the result here is
    [None]. *)
Fixpoint degree_loop (next : vtkReebArc → Z) (fuel : nat)
    (rg : vtkReebGraph) (_A : Z) (dst : Z) : option Z :=
  if decide (_A = 0) then Some dst
  else match fuel with
       | O => None
       | S fuel =>
           a ← vtkReebGraphGetArc rg _A;
           degree_loop next fuel rg (to_int (next a)) (dst + 1)
       end.

Definition vtkReebGraphGetDownDegree (rg : vtkReebGraph) (N : Z) : option Z :=
  n ← vtkReebGraphGetNode rg N;
  degree_loop ArcDwId1 (length (Buffer (MainArcTable rg))) rg
              (to_int (ArcDownId n)) 0.

Definition vtkReebGraphGetUpDegree (rg : vtkReebGraph) (N : Z) : option Z :=
  n ← vtkReebGraphGetNode rg N;
  degree_loop ArcDwId0 (length (Buffer (MainArcTable rg))) rg
              (to_int (ArcUpId n)) 0.

(** The definition of the specification:
    [is_regular(n) ≡ ¬is_critical(n) ∧ down-degree(n)=1 ∧ up-degree(n)=1]. *)
Definition spec_is_regular (rg : vtkReebGraph) (N : Z) : option bool :=
  n ← vtkReebGraphGetNode rg N;
  down ← vtkReebGraphGetDownDegree rg N;
  up ← vtkReebGraphGetUpDegree rg N;
  Some (negb (IsCritical n) && bool_decide (down = 1) && bool_decide (up = 1)).

(** ** Vertex collapse

    The loop over the labels of the upper arc; every read through [lb] is a
    read of the current table. The loop is run with as much fuel as the
    label table has slots. *)
Fixpoint VertexCollapse_labels (fuel : nat) (rg : vtkReebGraph) (Lb : Z)
    : option vtkReebGraph :=
  if decide (Lb = 0) then Some rg
  else match fuel with
       | O => None
       | S fuel =>
           lb ← vtkReebGraphGetLabel rg Lb;
           let Lnext := to_int (HNext lb) in
           rg ← (if decide (VPrev lb ≠ 0)
                 then let La := to_int (VPrev lb) in
                      pokeLabel rg La (set_VNext (VNext lb))
                 else Some rg);
           lb ← vtkReebGraphGetLabel rg Lb;
           rg ← (if decide (VNext lb ≠ 0)
                 then pokeLabel rg (VNext lb) (set_VPrev (VPrev lb))
                 else Some rg);
           rg ← vtkReebGraphDeleteLabel rg Lb;
           VertexCollapse_labels fuel rg Lnext
       end.

Definition vtkReebGraphVertexCollapse (rg : vtkReebGraph) (N : Z)
    (n : vtkReebNode) : option vtkReebGraph :=
  let A0 := to_int (ArcDownId n) in
  let A1 := to_int (ArcUpId n) in
  a1 ← vtkReebGraphGetArc rg A1;
  rg ← pokeArc rg A0 (set_NodeId1 (NodeId1 a1));
  a1 ← vtkReebGraphGetArc rg A1;
  rg ← pokeArc rg A0 (set_ArcUpId1 (ArcUpId1 a1));
  a1 ← vtkReebGraphGetArc rg A1;
  rg ← (if decide (ArcUpId1 a1 ≠ 0)
        then pokeArc rg (ArcUpId1 a1) (set_ArcDwId1 A0) else Some rg);
  a1 ← vtkReebGraphGetArc rg A1;
  rg ← pokeArc rg A0 (set_ArcDwId1 (ArcDwId1 a1));
  a1 ← vtkReebGraphGetArc rg A1;
  rg ← (if decide (ArcDwId1 a1 ≠ 0)
        then pokeArc rg (ArcDwId1 a1) (set_ArcUpId1 A0) else Some rg);
  a1 ← vtkReebGraphGetArc rg A1;
  n1 ← vtkReebGraphGetNode rg (NodeId1 a1);
  rg ← (if decide (ArcDownId n1 = A1)
        then pokeNode rg (NodeId1 a1) (set_ArcDownId A0) else Some rg);
  a1 ← vtkReebGraphGetArc rg A1;
  rg ← VertexCollapse_labels (length (Buffer (MainLabelTable rg))) rg
                             (to_int (LabelId0 a1));
  rg ← vtkReebGraphDeleteArc rg A1;
  vtkReebGraphDeleteNode rg N.

(** ** Candidate paths of the simplifier *)

Module vtkReebPath.

Record t := mk {
  SimplificationValue : float;
  ArcNumber : Z;
  ArcTable : list Z;
  NodeNumber : Z;
  NodeTable : list Z
}.

(** [NodeTable[NodeNumber - 1]]: reading outside the table is undefined. *)
Definition last_node (p : t) : option Z :=
  i ← int_decr (NodeNumber p);
  if decide (0 ≤ i) then NodeTable p !! Z.to_nat i else None.

(** [operator<], with the short-circuit evaluation of [||] and [&&]. *)
Definition operator_lt (p E : t) : option bool :=
  if PrimFloat.ltb (SimplificationValue p) (SimplificationValue E)
  then Some (negb true)
  else if PrimFloat.eqb (SimplificationValue p) (SimplificationValue E)
          && bool_decide (ArcNumber p < ArcNumber E)
  then Some (negb true)
  else if PrimFloat.eqb (SimplificationValue p) (SimplificationValue E)
          && bool_decide (ArcNumber p = ArcNumber E)
  then x ← last_node p; y ← last_node E; Some (negb (bool_decide (x < y)))
  else Some (negb false).

End vtkReebPath.

(** ** Error codes of [Build] *)

Definition ERR_INCORRECT_FIELD : Z := -1.
Definition ERR_NO_SUCH_FIELD : Z := -2.
Definition ERR_NOT_A_SIMPLICIAL_MESH : Z := -3.

(** Modelled from the spec: the mesh classes are not part of the header.
    [Mesh] is what [Build] sees of its input: the number of mesh vertices,
    the point ids of every cell, and the point-data arrays by index, each
    with its name and its tuples. *)
Record Mesh := mkMesh {
  NumberOfPoints : Z;
  Cells : list (list Z);
  PointData : list (string * list float)
}.

(** Modelled from the spec: the bodies of the six [Build] overloads are in
    vtkReebGraph.cxx, which is not part of the header. Section 6 of the
    specification and the header's comments say which value is returned for
    which defect of the input, and not which of them when the input has more
    than one defect. [Build] is therefore the list of the return values they
    allow: [ERR_INCORRECT_FIELD] if the field does not have one tuple per
    mesh vertex, [ERR_NOT_A_SIMPLICIAL_MESH] if some cell is not a simplex,
    and 0 alone if the input has neither defect. [simplexSize] is 3 for a
    surface mesh and 4 for a volume mesh. *)
Definition Build (simplexSize : nat) (mesh : Mesh) (scalarField : list float)
    : list Z :=
  let errors :=
    (if decide (Z.of_nat (length scalarField) ≠ NumberOfPoints mesh)
     then [ERR_INCORRECT_FIELD] else [])
    ++ (if bool_decide (Forall (λ c, length c = simplexSize) (Cells mesh))
        then [] else [ERR_NOT_A_SIMPLICIAL_MESH]) in
  if errors is [] then [0] else errors.

(** Modelled from the spec: the overloads of [Build] that take the index of
    the field, whose bodies are in vtkReebGraph.cxx. If there is no field
    with that index the return values allowed are [ERR_NO_SUCH_FIELD] and,
    if some cell is not a simplex, [ERR_NOT_A_SIMPLICIAL_MESH]; otherwise
    they are those of [Build] on the field. *)
Definition Build_by_id (simplexSize : nat) (mesh : Mesh) (scalarFieldId : Z)
    : list Z :=
  match (if decide (0 ≤ scalarFieldId)
         then PointData mesh !! Z.to_nat scalarFieldId else None) with
  | None =>
      ERR_NO_SUCH_FIELD
      :: (if bool_decide (Forall (λ c, length c = simplexSize) (Cells mesh))
          then [] else [ERR_NOT_A_SIMPLICIAL_MESH])
  | Some (_, scalarField) => Build simplexSize mesh scalarField
  end.

(** Modelled from the spec: the overloads of [Build] that take the name of
    the field, whose bodies are in vtkReebGraph.cxx. As [Build_by_id], with
    the first field of that name. *)
Definition Build_by_name (simplexSize : nat) (mesh : Mesh)
    (scalarFieldName : string) : list Z :=
  match list_find (λ f, f.1 = scalarFieldName) (PointData mesh) with
  | None =>
      ERR_NO_SUCH_FIELD
      :: (if bool_decide (Forall (λ c, length c = simplexSize) (Cells mesh))
          then [] else [ERR_NOT_A_SIMPLICIAL_MESH])
  | Some (_, (_, scalarField)) => Build simplexSize mesh scalarField
  end.

(** ** Well-formedness predicates used in the statements *)

(** What the declaration of a table guarantees: [Size] slots are allocated,
    and [Size], [Number] and [FreeZone] are [int]s. *)
Definition table_ok {T} (tbl : Table T) : Prop :=
  Size tbl = Z.of_nat (length (Buffer tbl))
  ∧ in_int (Size tbl) ∧ in_int (Number tbl) ∧ in_int (FreeZone tbl).

(** [chain next tbl h l]: following [next] from the id [h] through the slots
    of [tbl] meets exactly the ids of [l], in order, and then the null id. *)
Fixpoint chain {T} (next : T → Z) (tbl : Table T) (h : Z) (l : list Z) : Prop :=
  match l with
  | [] => h = 0
  | x :: l' => h = x ∧ ∃ s, peek tbl x = Some s ∧ chain next tbl (next s) l'
  end.

(** A node slot that is in use: not cleared by [vtkReebGraphDeleteNode]. *)
Definition live_node (rg : vtkReebGraph) (N : Z) (n : vtkReebNode) : Prop :=
  vtkReebGraphGetNode rg N = Some n ∧ ArcUpId n ≠ -2.

(** ** The three pools, uniformly *)

Inductive Pool := NodePool | ArcPool | LabelPool.

Definition pool_new (p : Pool) (rg : vtkReebGraph) : option (Z * vtkReebGraph) :=
  match p with
  | NodePool => vtkReebGraphNewNode rg
  | ArcPool => vtkReebGraphNewArc rg
  | LabelPool => vtkReebGraphNewLabel rg
  end.

Definition pool_delete (p : Pool) (rg : vtkReebGraph) (i : Z) : option vtkReebGraph :=
  match p with
  | NodePool => vtkReebGraphDeleteNode rg i
  | ArcPool => vtkReebGraphDeleteArc rg i
  | LabelPool => vtkReebGraphDeleteLabel rg i
  end.

Definition pool_Number (p : Pool) (rg : vtkReebGraph) : Z :=
  match p with
  | NodePool => Number (MainNodeTable rg)
  | ArcPool => Number (MainArcTable rg)
  | LabelPool => Number (MainLabelTable rg)
  end.

Definition pool_FreeZone (p : Pool) (rg : vtkReebGraph) : Z :=
  match p with
  | NodePool => FreeZone (MainNodeTable rg)
  | ArcPool => FreeZone (MainArcTable rg)
  | LabelPool => FreeZone (MainLabelTable rg)
  end.

Definition pool_ok (p : Pool) (rg : vtkReebGraph) : Prop :=
  match p with
  | NodePool => table_ok (MainNodeTable rg)
  | ArcPool => table_ok (MainArcTable rg)
  | LabelPool => table_ok (MainLabelTable rg)
  end.

(** [i] is a slot of the pool: not the null id, and inside the buffer. *)
Definition pool_slot (p : Pool) (rg : vtkReebGraph) (i : Z) : Prop :=
  match p with
  | NodePool => is_Some (vtkReebGraphGetNode rg i)
  | ArcPool => is_Some (vtkReebGraphGetArc rg i)
  | LabelPool => is_Some (vtkReebGraphGetLabel rg i)
  end.

(** Slot [i] holds the all-zero structure. *)
Definition pool_zeroed (p : Pool) (rg : vtkReebGraph) (i : Z) : Prop :=
  match p with
  | NodePool => vtkReebGraphGetNode rg i = Some zero_node
  | ArcPool => vtkReebGraphGetArc rg i = Some zero_arc
  | LabelPool => vtkReebGraphGetLabel rg i = Some zero_label
  end.

(** [MinimumScalarValue] and [MaximumScalarValue] are the values of two
    nodes of the graph: the range is brought up to date when a node is
    created (specification, section 3, invariant 6). *)
Definition scalar_range_attained (rg : vtkReebGraph) : Prop :=
  (∃ N n, live_node rg N n ∧ MinimumScalarValue rg = Value n)
  ∧ (∃ N n, live_node rg N n ∧ MaximumScalarValue rg = Value n).

(** ** Conditions on the labels of the arc removed by a vertex collapse

    [vlinks_ok rg ls]: the vertical neighbours of the labels [ls] are label
    slots outside [ls] (they lie on other arcs), and two labels of [ls] do
    not share a vertical neighbour (they carry different tags). *)
Definition vlinks_ok (rg : vtkReebGraph) (ls : list Z) : Prop :=
  (∀ x lx, x ∈ ls → vtkReebGraphGetLabel rg x = Some lx →
     (VPrev lx = 0
      ∨ (is_Some (vtkReebGraphGetLabel rg (VPrev lx)) ∧ VPrev lx ∉ ls))
     ∧ (VNext lx = 0
        ∨ (is_Some (vtkReebGraphGetLabel rg (VNext lx)) ∧ VNext lx ∉ ls)))
  ∧ (∀ x y lx ly, x ∈ ls → y ∈ ls → x ≠ y →
       vtkReebGraphGetLabel rg x = Some lx →
       vtkReebGraphGetLabel rg y = Some ly →
       (VPrev lx ≠ 0 → VPrev lx ≠ VPrev ly)
       ∧ (VNext lx ≠ 0 → VNext lx ≠ VNext ly)).

(** [sibling_ok rg A0 A1 s]: a sibling link [s] of the arc [A1] is null or
    an arc slot other than [A0] and [A1]. *)
Definition sibling_ok (rg : vtkReebGraph) (A0 A1 s : Z) : Prop :=
  s = 0 ∨ (is_Some (vtkReebGraphGetArc rg s) ∧ s ≠ A0 ∧ s ≠ A1).

(** [same_but_labels rg rg']: only the slots and counters of the label table
    may differ between the two graphs. *)
Definition same_but_labels (rg rg' : vtkReebGraph) : Prop :=
  MainArcTable rg' = MainArcTable rg
  ∧ MainNodeTable rg' = MainNodeTable rg
  ∧ MinimumScalarValue rg' = MinimumScalarValue rg
  ∧ MaximumScalarValue rg' = MaximumScalarValue rg
  ∧ Size (MainLabelTable rg') = Size (MainLabelTable rg)
  ∧ length (Buffer (MainLabelTable rg')) = length (Buffer (MainLabelTable rg)).

(** [labels_unthreaded rg ls rg']: in [rg'] the labels [ls] of [rg] are
    deleted, and each of their vertical neighbours is linked to the
    neighbour on the other side. *)
Definition labels_unthreaded (rg : vtkReebGraph) (ls : list Z)
    (rg' : vtkReebGraph) : Prop :=
  Number (MainLabelTable rg')
  = Number (MainLabelTable rg) - Z.of_nat (length ls)
  ∧ (∀ x, x ∈ ls → vtkReebGraphIsLabelCleared rg' x = Some true)
  ∧ (∀ x lx, x ∈ ls → vtkReebGraphGetLabel rg x = Some lx →
       (VPrev lx ≠ 0 →
        ∃ lp, vtkReebGraphGetLabel rg' (VPrev lx) = Some lp
              ∧ VNext lp = VNext lx)
       ∧ (VNext lx ≠ 0 →
          ∃ lq, vtkReebGraphGetLabel rg' (VNext lx) = Some lq
                ∧ VPrev lq = VPrev lx)).

(** [labels_frame rg ls rg']: a label outside [ls] keeps its arc, its tag
    and its horizontal links, and each vertical link that does not point
    into [ls]. *)
Definition labels_frame (rg : vtkReebGraph) (ls : list Z)
    (rg' : vtkReebGraph) : Prop :=
  ∀ i li, i ∉ ls → vtkReebGraphGetLabel rg i = Some li →
    ∃ li', vtkReebGraphGetLabel rg' i = Some li'
      ∧ ArcId li' = ArcId li ∧ HPrev li' = HPrev li
      ∧ HNext li' = HNext li ∧ label li' = label li
      ∧ ((∀ x lx, x ∈ ls → vtkReebGraphGetLabel rg x = Some lx →
            VPrev lx ≠ i) → VNext li' = VNext li)
      ∧ ((∀ x lx, x ∈ ls → vtkReebGraphGetLabel rg x = Some lx →
            VNext lx ≠ i) → VPrev li' = VPrev li).

(** [labels_kept rg ls rg']: a label outside [ls] is still in its slot, on
    the same arc, with the same tag and the same horizontal links. *)
Definition labels_kept (rg : vtkReebGraph) (ls : list Z)
    (rg' : vtkReebGraph) : Prop :=
  ∀ i li, i ∉ ls → vtkReebGraphGetLabel rg i = Some li →
    ∃ li', vtkReebGraphGetLabel rg' i = Some li'
      ∧ ArcId li' = ArcId li ∧ HPrev li' = HPrev li
      ∧ HNext li' = HNext li ∧ label li' = label li.

(** [collapsible rg N n a0 a1 ls]: what [vtkReebGraphVertexCollapse] relies
    on at the node [n] with id [N]. The head of its down list is the arc
    [a0], the head of its up list a different arc [a1]; the siblings of [a1]
    at its upper node are other arcs; the upper node is a node slot; the
    horizontal label chain of [a1] is [ls], with vertical links as in
    [vlinks_ok]; and the counters cover what is deleted. *)
Definition collapsible (rg : vtkReebGraph) (N : Z) (n : vtkReebNode)
    (a0 a1 : vtkReebArc) (ls : list Z) : Prop :=
  table_ok (MainArcTable rg)
  ∧ table_ok (MainNodeTable rg)
  ∧ table_ok (MainLabelTable rg)
  ∧ vtkReebGraphGetNode rg N = Some n
  ∧ vtkReebGraphGetArc rg (ArcDownId n) = Some a0
  ∧ vtkReebGraphGetArc rg (ArcUpId n) = Some a1
  ∧ ArcDownId n ≠ ArcUpId n
  ∧ sibling_ok rg (ArcDownId n) (ArcUpId n) (ArcUpId1 a1)
  ∧ sibling_ok rg (ArcDownId n) (ArcUpId n) (ArcDwId1 a1)
  ∧ is_Some (vtkReebGraphGetNode rg (NodeId1 a1))
  ∧ chain HNext (MainLabelTable rg) (LabelId0 a1) ls
  ∧ vlinks_ok rg ls
  ∧ 0 < Number (MainNodeTable rg)
  ∧ 0 < Number (MainArcTable rg)
  ∧ Z.of_nat (length ls) ≤ Number (MainLabelTable rg).

(** [same_but_arcs rg rg']: only the slots of the arc table may differ. *)
Definition same_but_arcs (rg rg' : vtkReebGraph) : Prop :=
  MainNodeTable rg' = MainNodeTable rg
  ∧ MainLabelTable rg' = MainLabelTable rg
  ∧ MinimumScalarValue rg' = MinimumScalarValue rg
  ∧ MaximumScalarValue rg' = MaximumScalarValue rg
  ∧ Size (MainArcTable rg') = Size (MainArcTable rg)
  ∧ Number (MainArcTable rg') = Number (MainArcTable rg)
  ∧ FreeZone (MainArcTable rg') = FreeZone (MainArcTable rg)
  ∧ length (Buffer (MainArcTable rg')) = length (Buffer (MainArcTable rg)).

(** ** A small graph: a chain of three nodes

    Nodes 1, 2, 3 with values 0, 1, 2; arc 1 from node 1 to node 2 and arc 2
    from node 2 to node 3; two paths, tagged 7 and 9, each with one label on
    every arc (labels 1 and 4 on arc 1, labels 2 and 3 on arc 2). Slot 4 of
    the node table, slot 3 of the arc table and slot 5 of the label table
    are free. *)
Definition chain3 : vtkReebGraph :=
  mkGraph
    (mkTable 4 2 3
       [ zero_arc;
         mkArc 1 0 0 2 0 0 1 4;
         mkArc 2 0 0 3 0 0 2 3;
         mkArc 0 0 0 0 0 0 0 (-2) ])
    (mkTable 5 3 4
       [ zero_node;
         mkNode 10 0 0 1 true true;
         mkNode 11 1 1 2 true false;
         mkNode 12 2 2 0 true true;
         mkNode 0 0 0 (-2) false false ])
    (mkTable 6 4 5
       [ zero_label;
         mkLabel 1 0 4 7 0 2;
         mkLabel 2 0 3 7 1 0;
         mkLabel 2 2 0 9 4 0;
         mkLabel 1 1 0 9 0 3;
         mkLabel 0 0 (-2) 0 0 0 ])
    0 2.

(** The node collapsed in [chain3] and its two arcs. *)
Definition chain3_n2 : vtkReebNode := mkNode 11 1 1 2 true false.
Definition chain3_a1 : vtkReebArc := mkArc 1 0 0 2 0 0 1 4.
Definition chain3_a2 : vtkReebArc := mkArc 2 0 0 3 0 0 2 3.

(** ** A small graph: two nodes of equal value

    Node 1 comes from mesh vertex 5 and node 2 from mesh vertex 3; both have
    the value 1, which is also the whole scalar range. Arc 1 goes from node 1
    to node 2. *)
Definition flat2 : vtkReebGraph :=
  mkGraph
    (mkTable 2 1 0 [ zero_arc; mkArc 1 0 0 2 0 0 0 0 ])
    (mkTable 3 2 0
       [ zero_node;
         mkNode 5 1 0 1 true true;
         mkNode 3 1 1 0 true true ])
    (mkTable 1 0 0 [ zero_label ])
    1 1.

Definition flat2_n1 : vtkReebNode := mkNode 5 1 0 1 true true.
Definition flat2_n2 : vtkReebNode := mkNode 3 1 1 0 true true.
Definition flat2_a1 : vtkReebArc := mkArc 1 0 0 2 0 0 0 0.

(** ** Two candidate paths

    [path_short] has the smaller simplification value. *)
Definition path_short : vtkReebPath.t :=
  vtkReebPath.mk 0.25 1 [1] 2 [1; 2].
Definition path_long : vtkReebPath.t :=
  vtkReebPath.mk 0.5 2 [1; 2] 3 [1; 2; 3].

(** * More of the header *)

(** ** The other two orders *)

(** [vtkReebGraphIsHigherThan]: by [Value], ties broken by [VertexId]. *)
Definition vtkReebGraphIsHigherThan (N0 N1 : Z) (n0 n1 : vtkReebNode) : bool :=
  PrimFloat.ltb (Value n1) (Value n0)
  || (PrimFloat.eqb (Value n0) (Value n1)
      && bool_decide (VertexId n1 < VertexId n0)).

(** [vtkReebGraphVertexSoS], on [std::pair<int, double>]. *)
Definition vtkReebGraphVertexSoS (v0 v1 : Z * float) : bool :=
  PrimFloat.ltb v0.2 v1.2
  || (PrimFloat.eqb v0.2 v1.2 && bool_decide (v0.1 < v1.1)).

(** ** Arcs in use, and the order along them *)

(** An arc slot that is in use: not cleared by [vtkReebGraphDeleteArc]. *)
Definition live_arc (rg : vtkReebGraph) (A : Z) (a : vtkReebArc) : Prop :=
  vtkReebGraphGetArc rg A = Some a ∧ LabelId1 a ≠ -2.

(** Every arc in use goes from a smaller node to a larger one, in the order
    of [vtkReebGraphIsSmaller]. *)
Definition arcs_ordered (rg : vtkReebGraph) : Prop :=
  ∀ A a, live_arc rg A a →
    vtkReebGraphIsSmaller2 rg (NodeId0 a) (NodeId1 a) = Some true.

(** ** What an operation leaves of every slot

    [nodes_keep P rg rg']: every node slot [j] of [rg] is a node slot of
    [rg'], and its two contents are related by [P j]; likewise for arcs and
    labels. *)
Definition nodes_keep (P : Z → vtkReebNode → vtkReebNode → Prop)
    (rg rg' : vtkReebGraph) : Prop :=
  ∀ j x, vtkReebGraphGetNode rg j = Some x →
    ∃ x', vtkReebGraphGetNode rg' j = Some x' ∧ P j x x'.

Definition arcs_keep (P : Z → vtkReebArc → vtkReebArc → Prop)
    (rg rg' : vtkReebGraph) : Prop :=
  ∀ j x, vtkReebGraphGetArc rg j = Some x →
    ∃ x', vtkReebGraphGetArc rg' j = Some x' ∧ P j x x'.

Definition labels_keep (P : Z → vtkReebLabel → vtkReebLabel → Prop)
    (rg rg' : vtkReebGraph) : Prop :=
  ∀ j x, vtkReebGraphGetLabel rg j = Some x →
    ∃ x', vtkReebGraphGetLabel rg' j = Some x' ∧ P j x x'.

(** [graph_keep PN PA PL rg rg']: the scalar range and the number of slots
    of each table are the same in both graphs, and every node, arc and label
    slot is kept, related by [PN], [PA] and [PL]. *)
Definition graph_keep
    (PN : Z → vtkReebNode → vtkReebNode → Prop)
    (PA : Z → vtkReebArc → vtkReebArc → Prop)
    (PL : Z → vtkReebLabel → vtkReebLabel → Prop)
    (rg rg' : vtkReebGraph) : Prop :=
  MinimumScalarValue rg' = MinimumScalarValue rg
  ∧ MaximumScalarValue rg' = MaximumScalarValue rg
  ∧ length (Buffer (MainNodeTable rg')) = length (Buffer (MainNodeTable rg))
  ∧ length (Buffer (MainArcTable rg')) = length (Buffer (MainArcTable rg))
  ∧ length (Buffer (MainLabelTable rg'))
    = length (Buffer (MainLabelTable rg))
  ∧ nodes_keep PN rg rg' ∧ arcs_keep PA rg rg' ∧ labels_keep PL rg rg'.

(** ** What a vertex collapse leaves of every slot

    A node keeps its mesh vertex, value and flags, and, unless it is the
    collapsed node [N], the head of its up list. *)
Definition collapse_node_rel (N j : Z) (x x' : vtkReebNode) : Prop :=
  VertexId x' = VertexId x ∧ Value x' = Value x
  ∧ IsFinalized x' = IsFinalized x ∧ IsCritical x' = IsCritical x
  ∧ (j ≠ N → ArcUpId x' = ArcUpId x).

(** An arc keeps its lower node and its links in the up list of that node;
    unless it is the lower arc [A0] it keeps its upper node; unless it is the
    upper arc [A1] it keeps the ends of its label chain. *)
Definition collapse_arc_rel (A0 A1 j : Z) (x x' : vtkReebArc) : Prop :=
  NodeId0 x' = NodeId0 x ∧ ArcUpId0 x' = ArcUpId0 x
  ∧ ArcDwId0 x' = ArcDwId0 x
  ∧ (j ≠ A0 → NodeId1 x' = NodeId1 x)
  ∧ (j ≠ A1 → LabelId0 x' = LabelId0 x ∧ LabelId1 x' = LabelId1 x).

(** A label keeps its tag and its left neighbour on the arc. *)
Definition collapse_label_rel (j : Z) (x x' : vtkReebLabel) : Prop :=
  label x' = label x ∧ HPrev x' = HPrev x.

(** ** The free lists

    The common shape of the three allocation macros and of the three
    deallocation macros, on one table: [link] reads the field that threads
    the free list, [set_link] assigns it, [clear] marks a slot as cleared. *)
Definition table_pop {T} (link : T → Z) (zero : T) (tbl : Table T)
    : option (Z * Table T) :=
  let N := FreeZone tbl in
  n ← peek tbl N;
  num ← int_incr (Number tbl);
  t ← poke (mkTable (Size tbl) num (to_int (link n)) (Buffer tbl)) N
           (λ _, zero);
  Some (N, t).

Definition table_push {T} (clear : T → T) (set_link : Z → T → T)
    (tbl : Table T) (i : Z) : option (Table T) :=
  t ← poke tbl i clear;
  t ← poke t i (set_link (FreeZone t));
  num ← int_decr (Number t);
  Some (mkTable (Size t) num (to_int i) (Buffer t)).

(** The free list of a pool: the slots met from [FreeZone] along the link
    field ([ArcDownId], [LabelId0], [ArcId]) up to the null id. *)
Definition pool_free_list (p : Pool) (rg : vtkReebGraph) (fl : list Z) : Prop :=
  match p with
  | NodePool =>
      chain ArcDownId (MainNodeTable rg) (FreeZone (MainNodeTable rg)) fl
  | ArcPool =>
      chain LabelId0 (MainArcTable rg) (FreeZone (MainArcTable rg)) fl
  | LabelPool =>
      chain ArcId (MainLabelTable rg) (FreeZone (MainLabelTable rg)) fl
  end.

(** Slot [i] of the pool is cleared. *)
Definition pool_cleared (p : Pool) (rg : vtkReebGraph) (i : Z) : Prop :=
  match p with
  | NodePool => vtkReebGraphIsNodeCleared rg i = Some true
  | ArcPool => vtkReebGraphIsArcCleared rg i = Some true
  | LabelPool => vtkReebGraphIsLabelCleared rg i = Some true
  end.

(** The two graphs differ at most in the counters of pool [p] and in its
    slot [i]. *)
Definition pool_same_but (p : Pool) (i : Z) (rg rg' : vtkReebGraph) : Prop :=
  MinimumScalarValue rg' = MinimumScalarValue rg
  ∧ MaximumScalarValue rg' = MaximumScalarValue rg
  ∧ match p with
    | NodePool =>
        MainArcTable rg' = MainArcTable rg
        ∧ MainLabelTable rg' = MainLabelTable rg
        ∧ ∀ j, j ≠ i → vtkReebGraphGetNode rg' j = vtkReebGraphGetNode rg j
    | ArcPool =>
        MainNodeTable rg' = MainNodeTable rg
        ∧ MainLabelTable rg' = MainLabelTable rg
        ∧ ∀ j, j ≠ i → vtkReebGraphGetArc rg' j = vtkReebGraphGetArc rg j
    | LabelPool =>
        MainNodeTable rg' = MainNodeTable rg
        ∧ MainArcTable rg' = MainArcTable rg
        ∧ ∀ j, j ≠ i → vtkReebGraphGetLabel rg' j = vtkReebGraphGetLabel rg j
    end.

(** ** The arc lists of a node

    The arcs that leave a node upwards form a list from the node's
    [ArcUpId], doubly linked through [ArcDwId0] (next) and [ArcUpId0]
    (previous); the arcs that reach it from below form a list from its
    [ArcDownId], linked through [ArcDwId1] and [ArcUpId1]. *)

Definition set_ArcUpId0 (v : Z) (a : vtkReebArc) : vtkReebArc :=
  mkArc (NodeId0 a) v (ArcDwId0 a) (NodeId1 a) (ArcUpId1 a) (ArcDwId1 a)
        (LabelId0 a) (LabelId1 a).
Definition set_ArcDwId0 (v : Z) (a : vtkReebArc) : vtkReebArc :=
  mkArc (NodeId0 a) (ArcUpId0 a) v (NodeId1 a) (ArcUpId1 a) (ArcDwId1 a)
        (LabelId0 a) (LabelId1 a).

(** The four macros. [n] and [a] are pointers: every [n->] and [a->] reads
    the current graph. *)
Definition vtkReebGraphAddUpArc (rg : vtkReebGraph) (N A : Z)
    : option vtkReebGraph :=
  rg ← pokeArc rg A (set_ArcUpId0 0);
  n ← vtkReebGraphGetNode rg N;
  rg ← pokeArc rg A (set_ArcDwId0 (ArcUpId n));
  n ← vtkReebGraphGetNode rg N;
  rg ← (if decide (ArcUpId n ≠ 0)
        then pokeArc rg (ArcUpId n) (set_ArcUpId0 A) else Some rg);
  pokeNode rg N (set_ArcUpId A).

Definition vtkReebGraphAddDownArc (rg : vtkReebGraph) (N A : Z)
    : option vtkReebGraph :=
  rg ← pokeArc rg A (set_ArcUpId1 0);
  n ← vtkReebGraphGetNode rg N;
  rg ← pokeArc rg A (set_ArcDwId1 (ArcDownId n));
  n ← vtkReebGraphGetNode rg N;
  rg ← (if decide (ArcDownId n ≠ 0)
        then pokeArc rg (ArcDownId n) (set_ArcUpId1 A) else Some rg);
  pokeNode rg N (set_ArcDownId A).

Definition vtkReebGraphRemoveUpArc (rg : vtkReebGraph) (N A : Z)
    : option vtkReebGraph :=
  a ← vtkReebGraphGetArc rg A;
  rg ← (if decide (ArcUpId0 a ≠ 0)
        then pokeArc rg (ArcUpId0 a) (set_ArcDwId0 (ArcDwId0 a))
        else pokeNode rg N (set_ArcUpId (ArcDwId0 a)));
  a ← vtkReebGraphGetArc rg A;
  if decide (ArcDwId0 a ≠ 0)
  then pokeArc rg (ArcDwId0 a) (set_ArcUpId0 (ArcUpId0 a)) else Some rg.

Definition vtkReebGraphRemoveDownArc (rg : vtkReebGraph) (N A : Z)
    : option vtkReebGraph :=
  a ← vtkReebGraphGetArc rg A;
  rg ← (if decide (ArcUpId1 a ≠ 0)
        then pokeArc rg (ArcUpId1 a) (set_ArcDwId1 (ArcDwId1 a))
        else pokeNode rg N (set_ArcDownId (ArcDwId1 a)));
  a ← vtkReebGraphGetArc rg A;
  if decide (ArcDwId1 a ≠ 0)
  then pokeArc rg (ArcDwId1 a) (set_ArcUpId1 (ArcUpId1 a)) else Some rg.

(** The two lists, uniformly. *)
Inductive Side := UpSide | DownSide.

Definition side_head (s : Side) : vtkReebNode → Z :=
  match s with UpSide => ArcUpId | DownSide => ArcDownId end.
Definition side_next (s : Side) : vtkReebArc → Z :=
  match s with UpSide => ArcDwId0 | DownSide => ArcDwId1 end.
Definition side_prev (s : Side) : vtkReebArc → Z :=
  match s with UpSide => ArcUpId0 | DownSide => ArcUpId1 end.
Definition set_side_head (s : Side) : Z → vtkReebNode → vtkReebNode :=
  match s with UpSide => set_ArcUpId | DownSide => set_ArcDownId end.
Definition set_side_next (s : Side) : Z → vtkReebArc → vtkReebArc :=
  match s with UpSide => set_ArcDwId0 | DownSide => set_ArcDwId1 end.
Definition set_side_prev (s : Side) : Z → vtkReebArc → vtkReebArc :=
  match s with UpSide => set_ArcUpId0 | DownSide => set_ArcUpId1 end.

Definition AddArcTo (s : Side) (rg : vtkReebGraph) (N A : Z)
    : option vtkReebGraph :=
  match s with
  | UpSide => vtkReebGraphAddUpArc rg N A
  | DownSide => vtkReebGraphAddDownArc rg N A
  end.

Definition RemoveArcFrom (s : Side) (rg : vtkReebGraph) (N A : Z)
    : option vtkReebGraph :=
  match s with
  | UpSide => vtkReebGraphRemoveUpArc rg N A
  | DownSide => vtkReebGraphRemoveDownArc rg N A
  end.

Definition side_degree (s : Side) (rg : vtkReebGraph) (N : Z) : option Z :=
  match s with
  | UpSide => vtkReebGraphGetUpDegree rg N
  | DownSide => vtkReebGraphGetDownDegree rg N
  end.

(** The fields of a node and of an arc that do not belong to the list. *)
Definition side_node_rest (s : Side) (n : vtkReebNode) :=
  (VertexId n, Value n, IsFinalized n, IsCritical n,
   match s with UpSide => ArcDownId n | DownSide => ArcUpId n end).
Definition side_arc_rest (s : Side) (a : vtkReebArc) :=
  (NodeId0 a, NodeId1 a, LabelId0 a, LabelId1 a,
   match s with
   | UpSide => (ArcUpId1 a, ArcDwId1 a)
   | DownSide => (ArcUpId0 a, ArcDwId0 a)
   end).

(** [dchain prev next tbl p h l]: [l] is the list met from [h] along [next],
    as in [chain], and the [prev] of each of its slots is the slot before
    it, [p] for the first. *)
Fixpoint dchain {T} (prev next : T → Z) (tbl : Table T) (p h : Z)
    (l : list Z) : Prop :=
  match l with
  | [] => h = 0
  | x :: l' =>
      h = x ∧ ∃ s, peek tbl x = Some s ∧ prev s = p
                   ∧ dchain prev next tbl x (next s) l'
  end.

(** [arc_list s rg N l]: the list of node [N] on side [s] is [l]. *)
Definition arc_list (s : Side) (rg : vtkReebGraph) (N : Z) (l : list Z)
    : Prop :=
  ∃ n, vtkReebGraphGetNode rg N = Some n
    ∧ dchain (side_prev s) (side_next s) (MainArcTable rg) 0 (side_head s n) l.

(** What the list macros leave of a node and of an arc: the fields outside
    the list, and the whole slot unless it is the node [N], respectively one
    of the arcs [touched]. *)
Definition side_node_rel (s : Side) (N j : Z) (x x' : vtkReebNode) : Prop :=
  side_node_rest s x' = side_node_rest s x ∧ (j ≠ N → x' = x).
Definition side_arc_rel (s : Side) (touched : list Z) (j : Z)
    (x x' : vtkReebArc) : Prop :=
  side_arc_rest s x' = side_arc_rest s x ∧ (j ∉ touched → x' = x).

(** [links_only rg rg']: the two graphs have the same scalar range, the same
    label table, and node and arc tables with the same counters and the
    same number of slots. *)
Definition links_only (rg rg' : vtkReebGraph) : Prop :=
  MinimumScalarValue rg' = MinimumScalarValue rg
  ∧ MaximumScalarValue rg' = MaximumScalarValue rg
  ∧ MainLabelTable rg' = MainLabelTable rg
  ∧ (Size (MainNodeTable rg') = Size (MainNodeTable rg)
     ∧ Number (MainNodeTable rg') = Number (MainNodeTable rg)
     ∧ FreeZone (MainNodeTable rg') = FreeZone (MainNodeTable rg)
     ∧ length (Buffer (MainNodeTable rg'))
       = length (Buffer (MainNodeTable rg)))
  ∧ (Size (MainArcTable rg') = Size (MainArcTable rg)
     ∧ Number (MainArcTable rg') = Number (MainArcTable rg)
     ∧ FreeZone (MainArcTable rg') = FreeZone (MainArcTable rg)
     ∧ length (Buffer (MainArcTable rg'))
       = length (Buffer (MainArcTable rg))).

(** ** A small graph: two branches that join

    Nodes 1, 2, 3, 4 with values 0, 1, 0.5, 2. Arc 1 goes from node 1 to
    node 2, arc 2 from node 2 to node 4, arc 3 from node 3 to node 4: the
    down list of node 4 is arc 3, then arc 2. Node 2 is regular. There are
    no labels and no free slots. *)
Definition join4 : vtkReebGraph :=
  mkGraph
    (mkTable 4 3 0
       [ zero_arc;
         mkArc 1 0 0 2 0 0 0 0;
         mkArc 2 0 0 4 3 0 0 0;
         mkArc 3 0 0 4 0 2 0 0 ])
    (mkTable 5 4 0
       [ zero_node;
         mkNode 20 0 0 1 true true;
         mkNode 21 1 1 2 true false;
         mkNode 22 0.5 0 3 true true;
         mkNode 23 2 3 0 true true ])
    (mkTable 1 0 0 [ zero_label ])
    0 2.

Definition join4_n2 : vtkReebNode := mkNode 21 1 1 2 true false.
Definition join4_a2 : vtkReebArc := mkArc 2 0 0 4 3 0 0 0.

(** ** A small graph: two nodes whose values are the two zeros

    Node 1 has the value [+0] and node 2 the value [-0]; arc 1 goes from
    node 1 to node 2. The scalar range is from [-0] to [+0]. *)
Definition zero2 : vtkReebGraph :=
  mkGraph
    (mkTable 2 1 0 [ zero_arc; mkArc 1 0 0 2 0 0 0 0 ])
    (mkTable 3 2 0
       [ zero_node;
         mkNode 5 0 0 1 true true;
         mkNode 3 neg_zero 1 0 true true ])
    (mkTable 1 0 0 [ zero_label ])
    neg_zero 0.

Definition zero2_n1 : vtkReebNode := mkNode 5 0 0 1 true true.
Definition zero2_n2 : vtkReebNode := mkNode 3 neg_zero 1 0 true true.
Definition zero2_a1 : vtkReebArc := mkArc 1 0 0 2 0 0 0 0.

(** ** A small graph: the chain with one more arc

    [chain3] after an arc from node 1 to node 3 has been put in the free arc
    slot 3: the new arc is the head of the up list of node 1, before arc 1,
    and the head of the down list of node 3, before arc 2. *)
Definition chain3_arc13 : vtkReebGraph :=
  mkGraph
    (mkTable 4 3 0
       [ zero_arc;
         mkArc 1 3 0 2 0 0 1 4;
         mkArc 2 0 0 3 3 0 2 3;
         mkArc 1 0 1 3 0 2 0 0 ])
    (mkTable 5 3 4
       [ zero_node;
         mkNode 10 0 0 3 true true;
         mkNode 11 1 1 2 true false;
         mkNode 12 2 3 0 true true;
         mkNode 0 0 0 (-2) false false ])
    (MainLabelTable chain3)
    0 2.

(** ** A small graph: two branches that join, with labels

    [join4] with the labels of [chain3]: labels 1 and 4 on arc 1, labels 2
    and 3 on arc 2, tagged 7 and 9; label slot 5 is free. *)
Definition join4l : vtkReebGraph :=
  mkGraph
    (mkTable 4 3 0
       [ zero_arc;
         mkArc 1 0 0 2 0 0 1 4;
         mkArc 2 0 0 4 3 0 2 3;
         mkArc 3 0 0 4 0 2 0 0 ])
    (MainNodeTable join4)
    (MainLabelTable chain3)
    0 2.

Definition join4l_a1 : vtkReebArc := mkArc 1 0 0 2 0 0 1 4.
Definition join4l_a2 : vtkReebArc := mkArc 2 0 0 4 3 0 2 3.

(** ** A mesh that is not simplicial: one quad on four vertices, no field *)
Definition quad_mesh : Mesh := mkMesh 4 [[0; 1; 2; 3]] [].

(** ** What [AddPath] does with the table of [AddArc] *)

(** Modelled from the spec: the body of [AddPath] is in vtkReebGraph.cxx,
    which is not part of the header, and [AddArc] takes it as a parameter.
    Section 4.E of the specification: add_path walks the already allocated
    nodes of its table, creating any missing arc between a consecutive pair.
    [arc_added rg x y rg'] says this of the graph [rg'] that a call on the
    table of the two nodes [x] and [y] returns: every node slot is kept with
    its value, and every arc in use in [rg'] was in use in [rg] between the
    same two nodes, or goes from [x] to [y]. *)
Definition arc_added (rg : vtkReebGraph) (x y : Z) (rg' : vtkReebGraph)
    : Prop :=
  (∀ j n, vtkReebGraphGetNode rg j = Some n →
     ∃ n', vtkReebGraphGetNode rg' j = Some n' ∧ Value n' = Value n)
  ∧ (∀ B b, live_arc rg' B b →
       (∃ b0, live_arc rg B b0
              ∧ NodeId0 b0 = NodeId0 b ∧ NodeId1 b0 = NodeId1 b)
       ∨ (NodeId0 b = x ∧ NodeId1 b = y)).

(** * Properties *)

(** ** Integers *)

Lemma to_int_id z : in_int z → to_int z = z.
Proof.
  unfold in_int, to_int, INT_MIN, INT_MAX. intros H.
  rewrite Z.mod_small; lia.
Qed.

Lemma int_decr_Some z : INT_MIN < z → int_decr z = Some (z - 1).
Proof. intros H. unfold int_decr. by rewrite decide_True. Qed.

Lemma int_incr_Some z : z < INT_MAX → int_incr z = Some (z + 1).
Proof. intros H. unfold int_incr. by rewrite decide_True. Qed.

(** ** Reading and writing slots *)

Section slots.
Context {T : Type}.
Implicit Types (tbl : Table T) (f : T → T) (i j : Z).

Lemma peek_Some_range tbl i x :
  peek tbl i = Some x → 0 < i < Z.of_nat (length (Buffer tbl)).
Proof.
  unfold peek. case_decide; [|done].
  intros Hl%lookup_lt_Some. lia.
Qed.

Lemma peek_in_int tbl i x :
  table_ok tbl → peek tbl i = Some x → in_int i.
Proof.
  intros (Hs & Hi & _) H%peek_Some_range.
  unfold in_int, INT_MIN, INT_MAX in *. lia.
Qed.

Lemma peek_is_Some tbl i :
  is_Some (peek tbl i) ↔ 0 < i < Z.of_nat (length (Buffer tbl)).
Proof.
  split.
  - intros [x Hx]. by eapply peek_Some_range.
  - intros Hi. unfold peek. rewrite decide_True by lia.
    apply lookup_lt_is_Some. lia.
Qed.

Lemma poke_Some tbl i f x :
  peek tbl i = Some x →
  poke tbl i f
  = Some (mkTable (Size tbl) (Number tbl) (FreeZone tbl)
                  (<[Z.to_nat i := f x]> (Buffer tbl))).
Proof. intros H. unfold poke. by rewrite H. Qed.

Lemma peek_mk_insert_eq (buf : list T) i y s n z :
  0 < i < Z.of_nat (length buf) →
  peek (mkTable s n z (<[Z.to_nat i := y]> buf)) i = Some y.
Proof.
  intros H. unfold peek. simpl.
  rewrite decide_True by lia. apply list_lookup_insert_eq. lia.
Qed.

Lemma peek_insert_eq tbl i x y s n z :
  peek tbl i = Some x →
  peek (mkTable s n z (<[Z.to_nat i := y]> (Buffer tbl))) i = Some y.
Proof. intros H%peek_Some_range. by apply peek_mk_insert_eq. Qed.

Lemma peek_insert_ne tbl i j y s n z :
  i ≠ j →
  peek (mkTable s n z (<[Z.to_nat i := y]> (Buffer tbl))) j = peek tbl j.
Proof.
  intros Hij. unfold peek. simpl. case_decide; [|done].
  destruct (decide (0 < i)).
  - apply list_lookup_insert_ne. lia.
  - replace (Z.to_nat i) with 0%nat by lia.
    apply list_lookup_insert_ne. lia.
Qed.

End slots.

(** ** Comparisons and subtraction of binary64 numbers *)

Lemma SFcompare_antisym f1 f2 :
  SFcompare f2 f1 = CompOpp <$> SFcompare f1 f2.
Proof.
  destruct f1 as [s1| s1| |s1 m1 e1], f2 as [s2|s2| |s2 m2 e2]; simpl; try done;
    try (by destruct s1); try (by destruct s2); try (by destruct s1, s2).
  f_equal.
  rewrite (Z.compare_antisym e1 e2).
  assert (Hm : Pos.compare_cont Eq m2 m1 = CompOpp (Pos.compare_cont Eq m1 m2))
    by (symmetry; apply (Pos.compare_cont_antisym m1 m2 Eq)).
  rewrite Hm.
  destruct s1, s2; simpl; try done;
    destruct (e1 ?= e2); simpl; try done;
    by destruct (Pos.compare_cont Eq m1 m2).
Qed.

Lemma float_ltb_asym x y : PrimFloat.ltb x y = true → PrimFloat.ltb y x = false.
Proof.
  rewrite !FloatAxioms.ltb_spec. unfold SFltb.
  rewrite (SFcompare_antisym (Prim2SF x)).
  by destruct (SFcompare _ _) as [[]|].
Qed.

Lemma float_ltb_eqb x y : PrimFloat.ltb x y = true → PrimFloat.eqb x y = false.
Proof.
  rewrite FloatAxioms.ltb_spec, FloatAxioms.eqb_spec. unfold SFltb, SFeqb.
  by destruct (SFcompare _ _) as [[]|].
Qed.

Lemma float_eqb_sym x y : PrimFloat.eqb x y = PrimFloat.eqb y x.
Proof.
  rewrite !FloatAxioms.eqb_spec. unfold SFeqb.
  rewrite (SFcompare_antisym (Prim2SF y)).
  by destruct (SFcompare _ _) as [[]|].
Qed.

Lemma float_eqb_ltb x y : PrimFloat.eqb x y = true → PrimFloat.ltb x y = false.
Proof.
  rewrite FloatAxioms.ltb_spec, FloatAxioms.eqb_spec. unfold SFltb, SFeqb.
  by destruct (SFcompare _ _) as [[]|].
Qed.

Lemma SFcompare_None f1 f2 :
  SFcompare f1 f2 = None → f1 = S754_nan ∨ f2 = S754_nan.
Proof. destruct f1, f2; simpl; auto; discriminate. Qed.

Lemma is_nan_Prim2SF x : PrimFloat.is_nan x = false → Prim2SF x ≠ S754_nan.
Proof.
  unfold PrimFloat.is_nan. rewrite FloatAxioms.eqb_spec.
  intros H E. rewrite E in H. done.
Qed.

Lemma float_trichotomy x y :
  PrimFloat.is_nan x = false → PrimFloat.is_nan y = false →
  PrimFloat.ltb x y = false → PrimFloat.ltb y x = false →
  PrimFloat.eqb x y = true.
Proof.
  intros Hx%is_nan_Prim2SF Hy%is_nan_Prim2SF.
  rewrite !FloatAxioms.ltb_spec, FloatAxioms.eqb_spec. unfold SFltb, SFeqb.
  rewrite (SFcompare_antisym (Prim2SF x)).
  destruct (SFcompare _ _) as [[]|] eqn:E; simpl; try done.
  apply SFcompare_None in E. tauto.
Qed.

Lemma is_finite_Prim2SF x :
  PrimFloat.is_finite x = true →
  (∃ s, Prim2SF x = S754_zero s) ∨ (∃ s m e, Prim2SF x = S754_finite s m e).
Proof.
  unfold PrimFloat.is_finite, PrimFloat.is_nan, PrimFloat.is_infinity.
  rewrite !FloatAxioms.eqb_spec, FloatAxioms.abs_spec.
  destruct (Prim2SF x) as [s|s| |s m e] eqn:E; simpl; eauto.
  - destruct s; vm_compute; discriminate.
  - discriminate.
Qed.

Lemma float_sub_diag x :
  PrimFloat.is_finite x = true → PrimFloat.sub x x = 0%float.
Proof.
  intros H.
  rewrite <- (SF2Prim_Prim2SF (PrimFloat.sub x x)), FloatAxioms.sub_spec.
  destruct (is_finite_Prim2SF x H) as [[s ->]|(s & m & e & ->)].
  - by destruct s.
  - unfold SF64sub, SFsub. cbv zeta. rewrite Z.sub_diag. reflexivity.
Qed.

(** Two finite representations compare equal only if they are the same. *)
Lemma SFcompare_finite_Eq s1 m1 e1 s2 m2 e2 :
  SFcompare (S754_finite s1 m1 e1) (S754_finite s2 m2 e2) = Some Eq →
  s1 = s2 ∧ m1 = m2 ∧ e1 = e2.
Proof.
  simpl. intros [= H].
  assert (Hm : Pos.compare_cont Eq m1 m2 = Eq → m1 = m2)
    by apply Pos.compare_eq.
  destruct s1, s2; try discriminate;
    destruct (Z.compare_spec e1 e2); try discriminate;
    destruct (Pos.compare_cont Eq m1 m2); try discriminate; auto.
Qed.

(** The numbers equal to zero are the two zeros. *)
Lemma float_eqb_zero p :
  PrimFloat.eqb p 0 = true → p = 0%float ∨ p = neg_zero.
Proof.
  rewrite FloatAxioms.eqb_spec. unfold SFeqb. intros H.
  rewrite <- (SF2Prim_Prim2SF p).
  destruct (Prim2SF p) as [s|s| |s m e].
  - destruct s; [right|left]; reflexivity.
  - destruct s; discriminate.
  - discriminate.
  - destruct s; discriminate.
Qed.

(** The difference of two equal finite numbers is a zero, also when the two
    are zeros of different sign. *)
Lemma float_eqb_sub_zero x y :
  PrimFloat.is_finite x = true → PrimFloat.eqb x y = true →
  PrimFloat.eqb (PrimFloat.sub x y) 0 = true.
Proof.
  intros Hx He. pose proof He as He'.
  rewrite FloatAxioms.eqb_spec in He'. unfold SFeqb in He'.
  destruct (is_finite_Prim2SF x Hx) as [[s Ex]|(s & m & e & Ex)];
    rewrite Ex in He'.
  - destruct (Prim2SF y) as [s'|s'| |s' m' e'] eqn:Ey; simpl in He';
      try discriminate; try (destruct s; discriminate);
      try (destruct s, s'; discriminate).
    rewrite <- (SF2Prim_Prim2SF x), <- (SF2Prim_Prim2SF y), Ex, Ey.
    by destruct s, s'.
  - destruct (Prim2SF y) as [s'|s'| |s' m' e'] eqn:Ey;
      try (simpl in He'; discriminate);
      try (simpl in He'; destruct s; discriminate);
      try (simpl in He'; destruct s, s'; discriminate).
    destruct (SFcompare _ _) as [[]|] eqn:Ec; try discriminate.
    apply SFcompare_finite_Eq in Ec as (-> & -> & ->).
    assert (x = y) as <-.
    { by rewrite <- (SF2Prim_Prim2SF x), <- (SF2Prim_Prim2SF y), Ex, Ey. }
    by rewrite (float_sub_diag x Hx).
Qed.

(** A zero divided by a zero is not a number. *)
Lemma float_zero_div_zero p q :
  PrimFloat.eqb p 0 = true → PrimFloat.eqb q 0 = true →
  PrimFloat.is_nan (PrimFloat.div p q) = true.
Proof.
  intros [-> | ->]%float_eqb_zero [-> | ->]%float_eqb_zero; reflexivity.
Qed.

(** ** The pool store: delete, then allocate *)

Ltac pool_roundtrip Hok HN :=
  let HNi := fresh "HNi" in
  let Hn := fresh "Hn" in
  let Hz := fresh "Hz" in
  pose proof (peek_in_int _ _ _ Hok HN) as HNi;
  destruct Hok as (_ & _ & Hn & Hz);
  rewrite (poke_Some _ _ _ _ HN); simpl;
  erewrite poke_Some by (eapply peek_insert_eq, HN); simpl;
  rewrite int_decr_Some by (unfold in_int in Hn; unfold INT_MIN; lia); simpl;
  eexists _, _; split; [reflexivity|]; split; [reflexivity|];
  simpl; rewrite (to_int_id _ HNi), list_insert_insert_eq;
  erewrite peek_insert_eq by exact HN; simpl;
  rewrite int_incr_Some by (unfold in_int in Hn; unfold INT_MAX in *; lia);
  simpl;
  erewrite poke_Some by (eapply peek_insert_eq, HN); simpl;
  split; [reflexivity|]; simpl;
  split; [apply peek_mk_insert_eq; rewrite length_insert;
          by eapply peek_Some_range|];
  split; [lia|]; by apply to_int_id.

Lemma delete_new_node rg N n :
  table_ok (MainNodeTable rg) →
  vtkReebGraphGetNode rg N = Some n →
  0 < Number (MainNodeTable rg) →
  ∃ rg1 rg2,
    vtkReebGraphDeleteNode rg N = Some rg1
    ∧ Number (MainNodeTable rg1) = Number (MainNodeTable rg) - 1
    ∧ vtkReebGraphNewNode rg1 = Some (N, rg2)
    ∧ vtkReebGraphGetNode rg2 N = Some zero_node
    ∧ Number (MainNodeTable rg2) = Number (MainNodeTable rg)
    ∧ FreeZone (MainNodeTable rg2) = FreeZone (MainNodeTable rg).
Proof.
  intros Hok HN Hnum. unfold vtkReebGraphGetNode in HN.
  unfold vtkReebGraphDeleteNode, vtkReebGraphClearNode, pokeNode,
    vtkReebGraphNewNode, vtkReebGraphGetNode.
  pool_roundtrip Hok HN.
Qed.

Lemma delete_new_arc rg A a :
  table_ok (MainArcTable rg) →
  vtkReebGraphGetArc rg A = Some a →
  0 < Number (MainArcTable rg) →
  ∃ rg1 rg2,
    vtkReebGraphDeleteArc rg A = Some rg1
    ∧ Number (MainArcTable rg1) = Number (MainArcTable rg) - 1
    ∧ vtkReebGraphNewArc rg1 = Some (A, rg2)
    ∧ vtkReebGraphGetArc rg2 A = Some zero_arc
    ∧ Number (MainArcTable rg2) = Number (MainArcTable rg)
    ∧ FreeZone (MainArcTable rg2) = FreeZone (MainArcTable rg).
Proof.
  intros Hok HN Hnum. unfold vtkReebGraphGetArc in HN.
  unfold vtkReebGraphDeleteArc, vtkReebGraphClearArc, pokeArc,
    vtkReebGraphNewArc, vtkReebGraphGetArc.
  pool_roundtrip Hok HN.
Qed.

Lemma delete_new_label rg L l :
  table_ok (MainLabelTable rg) →
  vtkReebGraphGetLabel rg L = Some l →
  0 < Number (MainLabelTable rg) →
  ∃ rg1 rg2,
    vtkReebGraphDeleteLabel rg L = Some rg1
    ∧ Number (MainLabelTable rg1) = Number (MainLabelTable rg) - 1
    ∧ vtkReebGraphNewLabel rg1 = Some (L, rg2)
    ∧ vtkReebGraphGetLabel rg2 L = Some zero_label
    ∧ Number (MainLabelTable rg2) = Number (MainLabelTable rg)
    ∧ FreeZone (MainLabelTable rg2) = FreeZone (MainLabelTable rg).
Proof.
  intros Hok HN Hnum. unfold vtkReebGraphGetLabel in HN.
  unfold vtkReebGraphDeleteLabel, vtkReebGraphClearLabel, pokeLabel,
    vtkReebGraphNewLabel, vtkReebGraphGetLabel.
  pool_roundtrip Hok HN.
Qed.

(** C9. In each of the three pools (node, arc, label): deleting a slot and
    then allocating from the same pool returns the id just deleted (the free
    list is last-in first-out), the slot handed back is all zero, [Number] is
    one less after the deletion and back at its former value after the
    allocation, and [FreeZone] is back at its former value too. *)
Theorem pool_delete_then_new (p : Pool) (rg : vtkReebGraph) (i : Z) :
  pool_ok p rg →
  pool_slot p rg i →
  0 < pool_Number p rg →
  ∃ rg1 rg2,
    pool_delete p rg i = Some rg1
    ∧ pool_Number p rg1 = pool_Number p rg - 1
    ∧ pool_new p rg1 = Some (i, rg2)
    ∧ pool_zeroed p rg2 i
    ∧ pool_Number p rg2 = pool_Number p rg
    ∧ pool_FreeZone p rg2 = pool_FreeZone p rg.
Proof.
  destruct p; simpl; intros Hok [x Hx] Hnum.
  - by eapply delete_new_node.
  - by eapply delete_new_arc.
  - by eapply delete_new_label.
Qed.

(** ** Arc persistence *)

Lemma GetArcPersistence_eq rg a n0 n1 :
  vtkReebGraphGetNode rg (NodeId0 a) = Some n0 →
  vtkReebGraphGetNode rg (NodeId1 a) = Some n1 →
  vtkReebGraphGetArcPersistence rg a
  = Some (PrimFloat.div
            (PrimFloat.sub (Value n1) (Value n0))
            (PrimFloat.sub (MaximumScalarValue rg) (MinimumScalarValue rg))).
Proof.
  intros H0 H1. unfold vtkReebGraphGetArcPersistence.
  by rewrite H1, H0.
Qed.

(** C4. With no metric, the persistence of an arc whose two endpoints are
    node slots is the difference of the values of its upper and lower
    endpoints divided by the scalar span
    [MaximumScalarValue - MinimumScalarValue]. *)
Theorem arc_persistence_is_normalized_span
    (rg : vtkReebGraph) (a : vtkReebArc) (n0 n1 : vtkReebNode) :
  vtkReebGraphGetNode rg (NodeId0 a) = Some n0 →
  vtkReebGraphGetNode rg (NodeId1 a) = Some n1 →
  vtkReebGraphGetArcPersistence rg a
  = Some (PrimFloat.div
            (PrimFloat.sub (Value n1) (Value n0))
            (PrimFloat.sub (MaximumScalarValue rg) (MinimumScalarValue rg))).
Proof. apply GetArcPersistence_eq. Qed.

(** C10. The default persistence divides by
    [MaximumScalarValue - MinimumScalarValue], and nothing guards the
    division: for every arc between two node slots the macro returns the
    quotient, whatever the divisor. In a graph whose scalar range is attained
    by its nodes and whose values are finite: a divisor other than zero
    requires two nodes with different values; and when all nodes have the
    same value (two zeros of different sign included) the divisor is zero,
    and the persistence of every arc between two nodes is a zero divided by
    zero, which is not a number. *)
Theorem arc_persistence_divides_by_scalar_span (rg : vtkReebGraph) :
  scalar_range_attained rg →
  (∀ N n, live_node rg N n → PrimFloat.is_finite (Value n) = true) →
  (∀ a n0 n1,
     vtkReebGraphGetNode rg (NodeId0 a) = Some n0 →
     vtkReebGraphGetNode rg (NodeId1 a) = Some n1 →
     vtkReebGraphGetArcPersistence rg a
     = Some (PrimFloat.div
               (PrimFloat.sub (Value n1) (Value n0))
               (PrimFloat.sub (MaximumScalarValue rg)
                              (MinimumScalarValue rg))))
  ∧ (PrimFloat.eqb
       (PrimFloat.sub (MaximumScalarValue rg) (MinimumScalarValue rg)) 0
     = false →
     ∃ N n M m, live_node rg N n ∧ live_node rg M m
                ∧ PrimFloat.eqb (Value n) (Value m) = false)
  ∧ ((∀ N n M m, live_node rg N n → live_node rg M m →
                 PrimFloat.eqb (Value n) (Value m) = true) →
     PrimFloat.eqb
       (PrimFloat.sub (MaximumScalarValue rg) (MinimumScalarValue rg)) 0
     = true
     ∧ ∀ a n0 n1,
         live_node rg (NodeId0 a) n0 → live_node rg (NodeId1 a) n1 →
         PrimFloat.eqb (PrimFloat.sub (Value n1) (Value n0)) 0 = true
         ∧ ∃ p, vtkReebGraphGetArcPersistence rg a = Some p
                ∧ PrimFloat.is_nan p = true).
Proof.
  intros [(Nm & nm & Hm & Emin) (NM & nM & HM & Emax)] Hfin.
  split; [intros a n0 n1; apply GetArcPersistence_eq|]. split.
  - intros Hd.
    destruct (PrimFloat.eqb (Value nM) (Value nm)) eqn:E.
    + rewrite Emax, Emin, (float_eqb_sub_zero _ _ (Hfin _ _ HM) E) in Hd.
      discriminate.
    + by exists NM, nM, Nm, nm.
  - intros Hv.
    assert (Hd : PrimFloat.eqb
                   (PrimFloat.sub (MaximumScalarValue rg)
                                  (MinimumScalarValue rg)) 0 = true).
    { rewrite Emax, Emin. apply float_eqb_sub_zero; eauto. }
    split; [done|]. intros a n0 n1 H0 H1.
    assert (Hn : PrimFloat.eqb (PrimFloat.sub (Value n1) (Value n0)) 0
                 = true)
      by (apply float_eqb_sub_zero; eauto).
    split; [done|]. eexists. split.
    + apply GetArcPersistence_eq; [by destruct H0|by destruct H1].
    + by apply float_zero_div_zero.
Qed.

(** ** The order on nodes and [AddArc] *)

Lemma IsSmaller_total nodeId0 nodeId1 node0 node1 :
  nodeId0 ≠ nodeId1 →
  PrimFloat.is_nan (Value node0) = false →
  PrimFloat.is_nan (Value node1) = false →
  vtkReebGraphIsSmaller nodeId0 nodeId1 node0 node1 = false →
  vtkReebGraphIsSmaller nodeId1 nodeId0 node1 node0 = true.
Proof.
  intros Hne H0 H1. unfold vtkReebGraphIsSmaller.
  intros [Hlt Heq]%orb_false_elim.
  destruct (PrimFloat.ltb (Value node1) (Value node0)) eqn:Hgt; [done|]. simpl.
  pose proof (float_trichotomy _ _ H0 H1 Hlt Hgt) as He.
  rewrite He in Heq. rewrite (float_eqb_sym (Value node1)), He. simpl in *.
  apply bool_decide_eq_false in Heq. apply bool_decide_eq_true. lia.
Qed.

Lemma IsSmaller_asym nodeId0 nodeId1 node0 node1 :
  vtkReebGraphIsSmaller nodeId0 nodeId1 node0 node1 = true →
  vtkReebGraphIsSmaller nodeId1 nodeId0 node1 node0 = false.
Proof.
  unfold vtkReebGraphIsSmaller.
  intros [Hlt|[Heq Hid]%andb_prop]%orb_prop.
  - rewrite (float_ltb_asym _ _ Hlt), (float_eqb_sym (Value node1)),
      (float_ltb_eqb _ _ Hlt). done.
  - rewrite float_eqb_sym in Heq. rewrite (float_eqb_ltb _ _ Heq), Heq. simpl.
    apply bool_decide_eq_true in Hid. apply bool_decide_eq_false. lia.
Qed.

(** ** The order on candidate paths *)

(** C3, as the code has it. [operator<] on [vtkReebPath] is the negation of
    the strict ranking "smaller [SimplificationValue], then fewer arcs, then
    smaller last entry of [NodeTable]": for two paths whose last node can be
    read, [a < b] is false exactly when [a] ranks strictly before [b]. So
    [a < a] is true, for any two paths at least one direction holds, and a
    path that ranks strictly before another is the greater of the two. *)
Theorem operator_lt_negates_ranking (a b : vtkReebPath.t) (x y : Z) :
  vtkReebPath.last_node a = Some x →
  vtkReebPath.last_node b = Some y →
  let ranks_before :=
    PrimFloat.ltb (vtkReebPath.SimplificationValue a)
                  (vtkReebPath.SimplificationValue b) = true
    ∨ (PrimFloat.eqb (vtkReebPath.SimplificationValue a)
                     (vtkReebPath.SimplificationValue b) = true
       ∧ (vtkReebPath.ArcNumber a < vtkReebPath.ArcNumber b
          ∨ (vtkReebPath.ArcNumber a = vtkReebPath.ArcNumber b ∧ x < y))) in
  vtkReebPath.operator_lt a a = Some true
  ∧ (vtkReebPath.operator_lt a b = Some true
     ∨ vtkReebPath.operator_lt b a = Some true)
  ∧ (vtkReebPath.operator_lt a b = Some false ↔ ranks_before)
  ∧ (ranks_before → vtkReebPath.operator_lt b a = Some true).
Proof.
  intros Ha Hb ranks_before. subst ranks_before.
  unfold vtkReebPath.operator_lt. rewrite Ha, Hb. simpl.
  set (va := vtkReebPath.SimplificationValue a).
  set (vb := vtkReebPath.SimplificationValue b).
  set (na := vtkReebPath.ArcNumber a).
  set (nb := vtkReebPath.ArcNumber b).
  assert (Hself : (if PrimFloat.ltb va va then Some false
                   else if PrimFloat.eqb va va && bool_decide (na < na)
                   then Some false
                   else if PrimFloat.eqb va va && bool_decide (na = na)
                   then Some (negb (bool_decide (x < x)))
                   else Some true) = Some true).
  { destruct (PrimFloat.ltb va va) eqn:E.
    - pose proof (float_ltb_asym _ _ E). congruence.
    - rewrite (bool_decide_eq_false_2 (na < na)) by lia.
      rewrite (bool_decide_eq_false_2 (x < x)) by lia.
      rewrite andb_false_r. by destruct (_ && _). }
  split; [exact Hself|]. clear Hself.
  destruct (PrimFloat.ltb va vb) eqn:Hab.
  { rewrite (float_ltb_asym _ _ Hab), (float_eqb_sym vb va),
      (float_ltb_eqb _ _ Hab). simpl. intuition. }
  destruct (PrimFloat.eqb va vb) eqn:Heq; simpl.
  2:{ rewrite (float_eqb_sym vb va), Heq. simpl.
      intuition discriminate. }
  rewrite (float_eqb_sym vb va), Heq. rewrite float_eqb_sym in Heq.
  rewrite (float_eqb_ltb _ _ Heq). simpl.
  repeat case_bool_decide; simpl; try lia;
    intuition (try discriminate; try lia).
Qed.

(** ** Return values of [Build] *)

Ltac in_results :=
  unfold ERR_INCORRECT_FIELD, ERR_NO_SUCH_FIELD, ERR_NOT_A_SIMPLICIAL_MESH
    in *;
  intros;
  repeat match goal with
  | H : context [_ ∈ _ :: _] |- _ => rewrite elem_of_cons in H
  | H : context [_ ∈ []] |- _ => rewrite elem_of_nil in H
  end;
  repeat (rewrite elem_of_cons || rewrite elem_of_nil);
  intuition (try discriminate; try congruence; try lia).


(** ** Chains of slots *)

Section chains.
Context {T : Type} (next : T → Z).
Implicit Types (tbl : Table T) (l : list Z).

Lemma chain_det tbl h l1 l2 :
  chain next tbl h l1 → chain next tbl h l2 → l1 = l2.
Proof.
  revert h l2. induction l1 as [|x l1 IH]; intros h [|y l2]; simpl.
  - done.
  - intros E (E' & s & Hs & _). apply peek_Some_range in Hs. lia.
  - intros (E' & s & Hs & _) E. apply peek_Some_range in Hs. lia.
  - intros (E & s & Hs & H1) (E' & s' & Hs' & H2). subst.
    rewrite Hs in Hs'. injection Hs' as <-. f_equal. by eapply IH.
Qed.

Lemma chain_range tbl h l x :
  chain next tbl h l → x ∈ l → 0 < x < Z.of_nat (length (Buffer tbl)).
Proof.
  revert h. induction l as [|y l IH]; simpl; intros h Hc Hx.
  - by apply elem_of_nil in Hx.
  - destruct Hc as (-> & s & Hs & Hc).
    apply elem_of_cons in Hx as [->|Hx]; [by eapply peek_Some_range|eauto].
Qed.

Lemma chain_frame tbl tbl' h l :
  (∀ x, x ∈ l → is_Some (peek tbl x) ∧ peek tbl' x = peek tbl x) →
  chain next tbl h l → chain next tbl' h l.
Proof.
  revert h. induction l as [|y l IH]; simpl; intros h Hf Hc; [done|].
  destruct Hc as (-> & s & Hs & Hc). split; [done|]. exists s. split.
  - destruct (Hf y) as [_ ->]; [apply elem_of_cons; auto|done].
  - apply IH; [|done]. intros x Hx. apply Hf, elem_of_cons. auto.
Qed.

Lemma chain_peek tbl h l x :
  chain next tbl h l → x ∈ l → is_Some (peek tbl x).
Proof.
  intros Hc Hx. apply peek_is_Some. by eapply chain_range.
Qed.

Lemma chain_from_elem tbl h l x :
  chain next tbl h l → x ∈ l →
  ∃ l1 l2, l = l1 ++ l2 ∧ chain next tbl x l2 ∧ l2 ≠ [].
Proof.
  revert h. induction l as [|y l IH]; simpl; intros h Hc Hx.
  - by apply elem_of_nil in Hx.
  - destruct (decide (x = y)) as [->|Hne].
    + exists [], (y :: l). destruct Hc as (-> & Hc). simpl. eauto.
    + apply elem_of_cons in Hx as [?|Hx]; [done|].
      destruct Hc as (-> & s & Hs & Hc).
      destruct (IH _ Hc Hx) as (l1 & l2 & -> & H2 & Hnil).
      exists (y :: l1), l2. eauto.
Qed.

(** A chain that reaches the null id does not visit a slot twice. *)
Lemma chain_NoDup tbl h l : chain next tbl h l → NoDup l.
Proof.
  revert h. induction l as [|x l IH]; simpl; intros h Hc.
  - constructor.
  - pose proof Hc as (-> & s & Hs & Hc'). constructor; [|eauto].
    intros Hx.
    destruct (chain_from_elem _ _ _ _ Hc' Hx) as (l1 & l2 & -> & H2 & _).
    assert (Hc2 : chain next tbl x (x :: l1 ++ l2)) by (simpl; eauto).
    pose proof (chain_det _ _ _ _ H2 Hc2) as E.
    apply (f_equal length) in E. simpl in E. rewrite length_app in E. lia.
Qed.

Lemma chain_length tbl h l :
  chain next tbl h l → (length l < length (Buffer tbl) ∨ l = [])%nat.
Proof.
  intros Hc. destruct l as [|x0 l0]; [by right|left].
  set (l := x0 :: l0) in *.
  assert (Hsub : l ⊆+ seqZ 1 (Z.of_nat (length (Buffer tbl)) - 1)).
  { apply NoDup_submseteq; [by eapply chain_NoDup|].
    intros x Hx. apply elem_of_seqZ.
    pose proof (chain_range _ _ _ _ Hc Hx). lia. }
  apply submseteq_length in Hsub. rewrite length_seqZ in Hsub.
  assert (0 < Z.of_nat (length (Buffer tbl))).
  { assert (Hin : x0 ∈ l) by (subst l; apply elem_of_cons; auto).
    pose proof (chain_range _ _ _ x0 Hc Hin). lia. }
  simpl in *. lia.
Qed.

Lemma chain_head_in_int tbl h l :
  table_ok tbl → chain next tbl h l → to_int h = h.
Proof.
  intros Hok Hc. destruct l as [|x l]; simpl in Hc.
  - by subst.
  - destruct Hc as (-> & s & Hs & _). apply to_int_id.
    by eapply peek_in_int.
Qed.
End chains.

(** ** Degrees and regular nodes *)

Lemma degree_loop_chain next rg l : ∀ fuel h dst,
  table_ok (MainArcTable rg) →
  chain next (MainArcTable rg) h l →
  (length l ≤ fuel)%nat →
  degree_loop next fuel rg h dst = Some (dst + Z.of_nat (length l)).
Proof.
  induction l as [|x l IH]; intros fuel h dst Hok Hc Hfuel; simpl in Hc.
  - subst h. destruct fuel; simpl; f_equal; lia.
  - destruct Hc as (-> & a & Ha & Hc).
    pose proof (peek_Some_range _ _ _ Ha).
    destruct fuel as [|fuel]; simpl in Hfuel; [lia|]. simpl.
    rewrite decide_False by lia.
    unfold vtkReebGraphGetArc. rewrite Ha. simpl.
    rewrite (chain_head_in_int _ _ _ _ Hok Hc).
    rewrite (IH fuel _ _ Hok Hc) by lia. f_equal. lia.
Qed.

Lemma degree_of_chain next rg h l :
  table_ok (MainArcTable rg) →
  chain next (MainArcTable rg) h l →
  degree_loop next (length (Buffer (MainArcTable rg))) rg (to_int h) 0
  = Some (Z.of_nat (length l)).
Proof.
  intros Hok Hc. rewrite (chain_head_in_int _ _ _ _ Hok Hc).
  rewrite (degree_loop_chain next rg l _ _ 0 Hok Hc); [done|].
  destruct (chain_length _ _ _ _ Hc) as [?| ->]; simpl; lia.
Qed.

(** C8. For a node whose down and up arc lists are well formed (following
    the sibling links from the list heads ends at the null id), the two
    degree loops return the lengths of the lists, and the regularity test of
    the code returns what the definition of the specification returns: true
    exactly when the node is not critical and both degrees are 1. *)
Theorem IsRegular_agrees_with_degrees
    (rg : vtkReebGraph) (N : Z) (n : vtkReebNode) (ds us : list Z) :
  table_ok (MainArcTable rg) →
  vtkReebGraphGetNode rg N = Some n →
  chain ArcDwId1 (MainArcTable rg) (ArcDownId n) ds →
  chain ArcDwId0 (MainArcTable rg) (ArcUpId n) us →
  vtkReebGraphGetDownDegree rg N = Some (Z.of_nat (length ds))
  ∧ vtkReebGraphGetUpDegree rg N = Some (Z.of_nat (length us))
  ∧ ∃ b, vtkReebGraphIsRegular rg n = Some b
         ∧ spec_is_regular rg N = Some b
         ∧ (b = true ↔ IsCritical n = false
                        ∧ length ds = 1%nat ∧ length us = 1%nat).
Proof.
  intros Hok HN Hd Hu.
  assert (Hdown : vtkReebGraphGetDownDegree rg N = Some (Z.of_nat (length ds))).
  { unfold vtkReebGraphGetDownDegree. rewrite HN. simpl.
    by apply degree_of_chain. }
  assert (Hup : vtkReebGraphGetUpDegree rg N = Some (Z.of_nat (length us))).
  { unfold vtkReebGraphGetUpDegree. rewrite HN. simpl.
    by apply degree_of_chain. }
  split; [done|]. split; [done|].
  unfold spec_is_regular. rewrite HN, Hdown, Hup. simpl.
  unfold vtkReebGraphIsRegular, vtkReebGraphGetArc.
  destruct (IsCritical n).
  { exists false. simpl. intuition discriminate. }
  simpl.
  destruct ds as [|d ds]; simpl in Hd.
  { rewrite decide_True by done. exists false. simpl.
    intuition (try discriminate; try lia). }
  destruct Hd as (Ed & ad & Had & Hd). rewrite Ed.
  pose proof (peek_Some_range _ _ _ Had).
  rewrite decide_False by lia. rewrite Had. simpl.
  destruct ds as [|d' ds]; simpl in Hd.
  2:{ destruct Hd as (Ed' & ad' & Had' & _).
      pose proof (peek_Some_range _ _ _ Had').
      rewrite decide_True by lia. exists false.
      rewrite bool_decide_eq_false_2 by (simpl; lia). simpl.
      intuition (try discriminate; try (simpl in *; lia)). }
  rewrite decide_False by lia. simpl.
  destruct us as [|u us]; simpl in Hu.
  { rewrite decide_True by done. exists false. simpl.
    intuition (try discriminate; try lia). }
  destruct Hu as (Eu & au & Hau & Hu). rewrite Eu.
  pose proof (peek_Some_range _ _ _ Hau).
  rewrite decide_False by lia. rewrite Hau. simpl.
  destruct us as [|u' us]; simpl in Hu.
  - exists true. rewrite bool_decide_eq_true_2 by done. simpl. done.
  - destruct Hu as (Eu' & au' & Hau' & _).
    pose proof (peek_Some_range _ _ _ Hau').
    exists false. rewrite (bool_decide_eq_false_2 (ArcDwId0 au = 0)) by lia.
    rewrite bool_decide_eq_false_2 by (simpl; lia).
    intuition (try discriminate; try (simpl in *; lia)).
Qed.

(** ** Vertex collapse: the labels of the upper arc *)

Lemma same_but_labels_refl rg : same_but_labels rg rg.
Proof. by repeat split. Qed.

Lemma same_but_labels_trans rg1 rg2 rg3 :
  same_but_labels rg1 rg2 → same_but_labels rg2 rg3 → same_but_labels rg1 rg3.
Proof.
  unfold same_but_labels. intros (?&?&?&?&?&?) (?&?&?&?&?&?).
  repeat split; congruence.
Qed.

Lemma same_but_labels_is_Some rg rg' i :
  same_but_labels rg rg' →
  is_Some (vtkReebGraphGetLabel rg i) → is_Some (vtkReebGraphGetLabel rg' i).
Proof.
  intros (_&_&_&_&_&Hl). unfold vtkReebGraphGetLabel.
  rewrite !peek_is_Some. lia.
Qed.

Lemma pokeLabel_spec rg i f li :
  vtkReebGraphGetLabel rg i = Some li →
  ∃ rg', pokeLabel rg i f = Some rg'
    ∧ same_but_labels rg rg'
    ∧ Number (MainLabelTable rg') = Number (MainLabelTable rg)
    ∧ FreeZone (MainLabelTable rg') = FreeZone (MainLabelTable rg)
    ∧ vtkReebGraphGetLabel rg' i = Some (f li)
    ∧ ∀ j, j ≠ i → vtkReebGraphGetLabel rg' j = vtkReebGraphGetLabel rg j.
Proof.
  unfold vtkReebGraphGetLabel, pokeLabel, same_but_labels. intros Hi.
  rewrite (poke_Some _ _ f _ Hi). simpl. eexists. split; [done|]. simpl.
  rewrite length_insert. repeat split; try done.
  - by eapply peek_insert_eq.
  - intros j Hj. by apply peek_insert_ne.
Qed.

(** The two conditional assignments of the loop body. *)
Lemma pokeLabel_if_spec rg (c i : Z) f :
  (c ≠ 0 → is_Some (vtkReebGraphGetLabel rg i)) →
  ∃ rg', (if decide (c ≠ 0) then pokeLabel rg i f else Some rg) = Some rg'
    ∧ same_but_labels rg rg'
    ∧ Number (MainLabelTable rg') = Number (MainLabelTable rg)
    ∧ FreeZone (MainLabelTable rg') = FreeZone (MainLabelTable rg)
    ∧ (∀ j, (c ≠ 0 → j ≠ i) →
            vtkReebGraphGetLabel rg' j = vtkReebGraphGetLabel rg j)
    ∧ (c ≠ 0 → ∀ li, vtkReebGraphGetLabel rg i = Some li →
                     vtkReebGraphGetLabel rg' i = Some (f li)).
Proof.
  intros Hc. case_decide as Hd.
  - destruct (Hc Hd) as [li Hi].
    destruct (pokeLabel_spec rg i f li Hi) as (rg' & -> & ? & ? & ? & Hi' & Hj).
    exists rg'. do 4 (split; [done|]). split.
    + intros j Hji. apply Hj. auto.
    + intros _ li' Hli'. congruence.
  - exists rg. split; [done|]. split; [apply same_but_labels_refl|].
    do 2 (split; [done|]). split; [done|]. intros ?. by destruct Hd.
Qed.

Lemma DeleteLabel_spec rg i li :
  vtkReebGraphGetLabel rg i = Some li →
  INT_MIN < Number (MainLabelTable rg) →
  ∃ rg', vtkReebGraphDeleteLabel rg i = Some rg'
    ∧ same_but_labels rg rg'
    ∧ Number (MainLabelTable rg') = Number (MainLabelTable rg) - 1
    ∧ FreeZone (MainLabelTable rg') = to_int i
    ∧ vtkReebGraphGetLabel rg' i
      = Some (set_ArcId (FreeZone (MainLabelTable rg)) (set_HNext (-2) li))
    ∧ ∀ j, j ≠ i → vtkReebGraphGetLabel rg' j = vtkReebGraphGetLabel rg j.
Proof.
  intros Hi Hnum.
  unfold vtkReebGraphDeleteLabel, vtkReebGraphClearLabel.
  destruct (pokeLabel_spec rg i (set_HNext (-2)) li Hi)
    as (rg1 & -> & S1 & Hnum1 & Hz1 & Hi1 & Hj1).
  simpl.
  destruct (pokeLabel_spec rg1 i (set_ArcId (FreeZone (MainLabelTable rg1))) _ Hi1)
    as (rg2 & -> & S2 & Hnum2 & Hz2 & Hi2 & Hj2).
  simpl. rewrite int_decr_Some by congruence. simpl.
  pose proof (same_but_labels_trans _ _ _ S1 S2) as (?&?&?&?&?&?).
  eexists. split; [done|]. unfold vtkReebGraphGetLabel, same_but_labels in *.
  simpl. repeat split; try congruence.
  - unfold peek in *. simpl. by rewrite <- Hz1.
  - intros j Hj. unfold peek in *. simpl.
    specialize (Hj1 j Hj). specialize (Hj2 j Hj). simpl in *. congruence.
Qed.

Lemma VertexCollapse_labels_spec ls : ∀ rg L fuel,
  table_ok (MainLabelTable rg) →
  chain HNext (MainLabelTable rg) L ls →
  (length ls ≤ fuel)%nat →
  vlinks_ok rg ls →
  Z.of_nat (length ls) ≤ Number (MainLabelTable rg) →
  ∃ rg', VertexCollapse_labels fuel rg L = Some rg'
    ∧ same_but_labels rg rg'
    ∧ labels_unthreaded rg ls rg'
    ∧ labels_frame rg ls rg'.
Proof.
  induction ls as [|x ls IH]; intros rg L fuel Hok Hc Hfuel Hv Hnum.
  { simpl in Hc. subst L. exists rg.
    split; [by destruct fuel|]. split; [apply same_but_labels_refl|].
    split.
    - split; [simpl; lia|]. split; intros ? **; by exfalso; eapply elem_of_nil.
    - intros i li _ Hi. exists li. by repeat split. }
  pose proof (chain_NoDup _ _ _ _ Hc) as Hnd.
  apply NoDup_cons in Hnd as [Hx Hnd].
  pose proof Hc as (-> & lb & Hlb & Hc').
  pose proof (peek_Some_range _ _ _ Hlb) as Hxr.
  pose proof (peek_in_int _ _ _ Hok Hlb) as Hxi.
  destruct Hv as [HV Hinj].
  assert (Hxin : x ∈ x :: ls) by (apply elem_of_cons; auto).
  destruct (HV x lb Hxin Hlb) as [Hp Hq].
  assert (Hn1 : Z.of_nat (length ls) + 1 ≤ Number (MainLabelTable rg))
    by (simpl length in Hnum; lia).
  (* the loop body *)
  destruct fuel as [|fuel]; [simpl in Hfuel; lia|]. simpl.
  rewrite decide_False by lia.
  change (vtkReebGraphGetLabel rg x = Some lb) in Hlb. rewrite Hlb. simpl.
  assert (Hpi : VPrev lb ≠ 0 → to_int (VPrev lb) = VPrev lb).
  { intros Hne. destruct Hp as [?|[[lp Hlp] _]]; [done|].
    apply to_int_id. by eapply peek_in_int. }
  destruct (pokeLabel_if_spec rg (VPrev lb) (to_int (VPrev lb))
              (set_VNext (VNext lb)))
    as (rgA & -> & SA & NA & ZA & HAj & HAi).
  { intros Hne. rewrite (Hpi Hne). by destruct Hp as [?|[? _]]. }
  simpl.
  assert (HxA : vtkReebGraphGetLabel rgA x = Some lb).
  { rewrite HAj; [done|]. intros Hne. rewrite (Hpi Hne).
    destruct Hp as [?|[_ Hnin]]; [done|]. intros ->. by apply Hnin. }
  rewrite HxA. simpl.
  destruct (pokeLabel_if_spec rgA (VNext lb) (VNext lb)
              (set_VPrev (VPrev lb)))
    as (rgB & -> & SB & NB & ZB & HBj & HBi).
  { intros Hne. apply (same_but_labels_is_Some rg); [done|].
    by destruct Hq as [?|[? _]]. }
  simpl.
  assert (HxB : vtkReebGraphGetLabel rgB x = Some lb).
  { rewrite HBj; [done|]. intros Hne.
    destruct Hq as [?|[_ Hnin]]; [done|]. intros ->. by apply Hnin. }
  destruct (DeleteLabel_spec rgB x lb HxB)
    as (rgC & -> & SC & NC & ZC & HCx & HCj).
  { rewrite NB, NA. unfold INT_MIN. lia. }
  simpl.
  pose proof (same_but_labels_trans _ _ _ SA
                (same_but_labels_trans _ _ _ SB SC)) as SAC.
  (* labels other than x and its two vertical neighbours are untouched *)
  assert (Hsame : ∀ j, j ≠ x → (VPrev lb ≠ 0 → j ≠ VPrev lb) →
                       (VNext lb ≠ 0 → j ≠ VNext lb) →
                       vtkReebGraphGetLabel rgC j = vtkReebGraphGetLabel rg j).
  { intros j H1 H2 H3. rewrite HCj, HBj, HAj; auto.
    intros Hne. rewrite (Hpi Hne). auto. }
  assert (Hls : ∀ y, y ∈ ls →
                     vtkReebGraphGetLabel rgC y = vtkReebGraphGetLabel rg y).
  { intros y Hy. apply Hsame.
    - intros ->. done.
    - intros Hne. destruct Hp as [?|[_ Hnin]]; [done|]. intros ->.
      apply Hnin, elem_of_cons. auto.
    - intros Hne. destruct Hq as [?|[_ Hnin]]; [done|]. intros ->.
      apply Hnin, elem_of_cons. auto. }
  (* the induction hypothesis applies to the rest of the chain *)
  destruct (IH rgC (to_int (HNext lb)) fuel)
    as (rg' & Hrun & S' & (N' & Hcl' & Hth') & Hfr').
  { destruct SAC as (_&_&_&_&Hsz&Hlen). destruct Hok as (Hs&?&[? ?]&?).
    unfold table_ok. rewrite Hsz, Hlen, NC, NB, NA, ZC, (to_int_id _ Hxi).
    unfold in_int, INT_MIN, INT_MAX in *. repeat split; try done; lia. }
  { rewrite (chain_head_in_int _ _ _ _ Hok Hc').
    eapply chain_frame; [|exact Hc']. intros y Hy. split.
    - by eapply chain_peek.
    - by apply Hls. }
  { simpl in Hfuel. lia. }
  { split.
    - intros y ly Hy Hly. rewrite (Hls y Hy) in Hly.
      destruct (HV y ly) as [Hpy Hqy]; [apply elem_of_cons; auto|done|].
      split.
      + destruct Hpy as [?|[Hs Hnin]]; [by left|right]. split.
        * by apply (same_but_labels_is_Some rg).
        * intros Hin. apply Hnin, elem_of_cons. auto.
      + destruct Hqy as [?|[Hs Hnin]]; [by left|right]. split.
        * by apply (same_but_labels_is_Some rg).
        * intros Hin. apply Hnin, elem_of_cons. auto.
    - intros y z ly lz Hy Hz Hyz Hly Hlz.
      rewrite (Hls y Hy) in Hly. rewrite (Hls z Hz) in Hlz.
      apply (Hinj y z); auto; apply elem_of_cons; auto. }
  { rewrite NC, NB, NA. lia. }
  exists rg'. split; [exact Hrun|].
  split; [by eapply same_but_labels_trans|].
  (* labels outside the whole chain *)
  assert (Hframe : labels_frame rg (x :: ls) rg').
  { intros i li Hi Hli.
    apply not_elem_of_cons in Hi as [Hix Hi].
    assert (∃ liC, vtkReebGraphGetLabel rgC i = Some liC
              ∧ ArcId liC = ArcId li ∧ HPrev liC = HPrev li
              ∧ HNext liC = HNext li ∧ label liC = label li
              ∧ (VPrev lb ≠ i → VNext liC = VNext li)
              ∧ (VNext lb ≠ i → VPrev liC = VPrev li))
      as (liC & HliC & E1 & E2 & E3 & E4 & E5 & E6).
    { rewrite (HCj i Hix).
      assert (∃ liA, vtkReebGraphGetLabel rgA i = Some liA
                ∧ ArcId liA = ArcId li ∧ HPrev liA = HPrev li
                ∧ HNext liA = HNext li ∧ label liA = label li
                ∧ (VPrev lb ≠ i → VNext liA = VNext li)
                ∧ VPrev liA = VPrev li)
        as (liA & HliA & A1 & A2 & A3 & A4 & A5 & A6).
      { destruct (decide (VPrev lb ≠ 0 ∧ i = VPrev lb)) as [[Hne ->]|Hn].
        - exists (set_VNext (VNext lb) li). split.
          + rewrite <- (Hpi Hne) at 1. apply HAi; [done|]. by rewrite (Hpi Hne).
          + by repeat split.
        - exists li. split.
          + rewrite HAj; [done|]. intros Hne. rewrite (Hpi Hne). tauto.
          + by repeat split. }
      destruct (decide (VNext lb ≠ 0 ∧ i = VNext lb)) as [[Hne ->]|Hn].
      - exists (set_VPrev (VPrev lb) liA). split; [by apply HBi|].
        by repeat split.
      - exists liA. split.
        + rewrite HBj; [done|]. tauto.
        + by repeat split. }
    destruct (Hfr' i liC Hi HliC)
      as (li' & Hli' & F1 & F2 & F3 & F4 & F5 & F6).
    exists li'. split; [done|]. do 4 (split; [congruence|]). split.
    - intros Hno. rewrite F5, E5; [done|by eapply Hno|].
      intros y ly Hy Hly. rewrite (Hls y Hy) in Hly.
      eapply Hno; [|done]. apply elem_of_cons. auto.
    - intros Hno. rewrite F6, E6; [done|by eapply Hno|].
      intros y ly Hy Hly. rewrite (Hls y Hy) in Hly.
      eapply Hno; [|done]. apply elem_of_cons. auto. }
  split; [|exact Hframe].
  split; [rewrite N', NC, NB, NA; simpl length; lia|]. split.
  - (* every label of the chain is cleared *)
    intros y [->|Hy]%elem_of_cons; [|by apply Hcl'].
    destruct (Hfr' x _ Hx HCx) as (lx' & Hlx' & _ & _ & F3 & _).
    unfold vtkReebGraphIsLabelCleared. rewrite Hlx'. simpl.
    by rewrite F3.
  - (* the vertical neighbours are linked to each other *)
    intros y ly [->|Hy]%elem_of_cons Hly.
    + rewrite Hlb in Hly. injection Hly as <-. split.
      * intros Hne. destruct Hp as [?|[[lp Hlp] Hnin]]; [done|].
        apply not_elem_of_cons in Hnin as [Hpx Hnin].
        assert (∃ lpC, vtkReebGraphGetLabel rgC (VPrev lb) = Some lpC
                       ∧ VNext lpC = VNext lb) as (lpC & HlpC & EC).
        { rewrite (HCj _ Hpx).
          pose proof (HAi Hne lp) as HA. rewrite (Hpi Hne) in HA.
          specialize (HA Hlp).
          destruct (decide (VNext lb ≠ 0 ∧ VPrev lb = VNext lb)) as [[Hq0 E]|Hn].
          - exists (set_VPrev (VPrev lb) (set_VNext (VNext lb) lp)).
            split; [|done]. rewrite E in HA |- *. rewrite <- E at 2.
            by apply HBi.
          - exists (set_VNext (VNext lb) lp). split; [|done].
            rewrite HBj; [done|]. tauto. }
        destruct (Hfr' _ lpC Hnin HlpC)
          as (lp' & Hlp' & _ & _ & _ & _ & F5 & _).
        exists lp'. split; [done|]. rewrite F5; [done|].
        intros z lz Hz Hlz. rewrite (Hls z Hz) in Hlz.
        assert (x ≠ z) by (intros ->; done).
        destruct (Hinj x z lb lz) as [Hd _]; auto.
        apply elem_of_cons; auto. intros E. by apply Hd.
      * intros Hne. destruct Hq as [?|[[lq Hlq] Hnin]]; [done|].
        apply not_elem_of_cons in Hnin as [Hqx Hnin].
        assert (∃ lqC, vtkReebGraphGetLabel rgC (VNext lb) = Some lqC
                       ∧ VPrev lqC = VPrev lb) as (lqC & HlqC & EC).
        { rewrite (HCj _ Hqx).
          destruct (same_but_labels_is_Some rg rgA (VNext lb) SA)
            as [lqA HlqA]; [by eexists|].
          exists (set_VPrev (VPrev lb) lqA). split; [|done].
          by apply HBi. }
        destruct (Hfr' _ lqC Hnin HlqC)
          as (lq' & Hlq' & _ & _ & _ & _ & _ & F6).
        exists lq'. split; [done|]. rewrite F6; [done|].
        intros z lz Hz Hlz. rewrite (Hls z Hz) in Hlz.
        assert (x ≠ z) by (intros ->; done).
        destruct (Hinj x z lb lz) as [_ Hd]; auto.
        apply elem_of_cons; auto. intros E. by apply Hd.
    + rewrite <- (Hls y Hy) in Hly. by apply (Hth' y ly).
Qed.

(** ** Vertex collapse: the arcs and the node *)

Lemma same_but_arcs_refl rg : same_but_arcs rg rg.
Proof. by repeat split. Qed.

Lemma same_but_arcs_trans rg1 rg2 rg3 :
  same_but_arcs rg1 rg2 → same_but_arcs rg2 rg3 → same_but_arcs rg1 rg3.
Proof.
  unfold same_but_arcs. intros (?&?&?&?&?&?&?&?) (?&?&?&?&?&?&?&?).
  repeat split; congruence.
Qed.

Lemma same_but_arcs_is_Some rg rg' i :
  same_but_arcs rg rg' →
  is_Some (vtkReebGraphGetArc rg i) → is_Some (vtkReebGraphGetArc rg' i).
Proof.
  intros (_&_&_&_&_&_&_&Hl). unfold vtkReebGraphGetArc.
  rewrite !peek_is_Some. lia.
Qed.

Lemma pokeArc_spec rg i f ai :
  vtkReebGraphGetArc rg i = Some ai →
  ∃ rg', pokeArc rg i f = Some rg'
    ∧ same_but_arcs rg rg'
    ∧ vtkReebGraphGetArc rg' i = Some (f ai)
    ∧ ∀ j, j ≠ i → vtkReebGraphGetArc rg' j = vtkReebGraphGetArc rg j.
Proof.
  unfold vtkReebGraphGetArc, pokeArc, same_but_arcs. intros Hi.
  rewrite (poke_Some _ _ f _ Hi). simpl. eexists. split; [done|]. simpl.
  rewrite length_insert. repeat split; try done.
  - by eapply peek_insert_eq.
  - intros j Hj. by apply peek_insert_ne.
Qed.

Lemma pokeArc_if_spec rg (c : Z) f :
  (c ≠ 0 → is_Some (vtkReebGraphGetArc rg c)) →
  ∃ rg', (if decide (c ≠ 0) then pokeArc rg c f else Some rg) = Some rg'
    ∧ same_but_arcs rg rg'
    ∧ ∀ j, j ≠ c → vtkReebGraphGetArc rg' j = vtkReebGraphGetArc rg j.
Proof.
  intros Hc. case_decide as Hd.
  - destruct (Hc Hd) as [ai Hi].
    destruct (pokeArc_spec rg c f ai Hi) as (rg' & -> & ? & ? & Hj).
    by exists rg'.
  - exists rg. split; [done|]. split; [apply same_but_arcs_refl|done].
Qed.

Lemma DeleteArc_spec rg i ai :
  vtkReebGraphGetArc rg i = Some ai →
  INT_MIN < Number (MainArcTable rg) →
  ∃ rg', vtkReebGraphDeleteArc rg i = Some rg'
    ∧ MainNodeTable rg' = MainNodeTable rg
    ∧ MainLabelTable rg' = MainLabelTable rg
    ∧ Number (MainArcTable rg') = Number (MainArcTable rg) - 1
    ∧ vtkReebGraphGetArc rg' i
      = Some (set_LabelId0 (FreeZone (MainArcTable rg)) (set_LabelId1 (-2) ai))
    ∧ ∀ j, j ≠ i → vtkReebGraphGetArc rg' j = vtkReebGraphGetArc rg j.
Proof.
  intros Hi Hnum.
  unfold vtkReebGraphDeleteArc, vtkReebGraphClearArc.
  destruct (pokeArc_spec rg i (set_LabelId1 (-2)) ai Hi)
    as (rg1 & -> & S1 & Hi1 & Hj1).
  simpl.
  destruct (pokeArc_spec rg1 i (set_LabelId0 (FreeZone (MainArcTable rg1))) _ Hi1)
    as (rg2 & -> & S2 & Hi2 & Hj2).
  simpl.
  pose proof S1 as (?&?&?&?&?&HN1&HZ1&?).
  pose proof S2 as (?&?&?&?&?&HN2&HZ2&?).
  rewrite int_decr_Some by congruence. simpl.
  eexists. split; [done|]. unfold vtkReebGraphGetArc in *.
  simpl. repeat split; try congruence.
  - unfold peek in *. simpl. by rewrite <- HZ1.
  - intros j Hj. unfold peek in *. simpl.
    specialize (Hj1 j Hj). specialize (Hj2 j Hj). simpl in *. congruence.
Qed.

Lemma pokeNode_spec rg i f ni :
  vtkReebGraphGetNode rg i = Some ni →
  ∃ rg', pokeNode rg i f = Some rg'
    ∧ MainArcTable rg' = MainArcTable rg
    ∧ MainLabelTable rg' = MainLabelTable rg
    ∧ Number (MainNodeTable rg') = Number (MainNodeTable rg)
    ∧ FreeZone (MainNodeTable rg') = FreeZone (MainNodeTable rg)
    ∧ length (Buffer (MainNodeTable rg')) = length (Buffer (MainNodeTable rg))
    ∧ vtkReebGraphGetNode rg' i = Some (f ni)
    ∧ ∀ j, j ≠ i → vtkReebGraphGetNode rg' j = vtkReebGraphGetNode rg j.
Proof.
  unfold vtkReebGraphGetNode, pokeNode. intros Hi.
  rewrite (poke_Some _ _ f _ Hi). simpl. eexists. split; [done|]. simpl.
  rewrite length_insert. repeat split; try done.
  - by eapply peek_insert_eq.
  - intros j Hj. by apply peek_insert_ne.
Qed.

Lemma DeleteNode_spec rg i ni :
  vtkReebGraphGetNode rg i = Some ni →
  INT_MIN < Number (MainNodeTable rg) →
  ∃ rg', vtkReebGraphDeleteNode rg i = Some rg'
    ∧ MainArcTable rg' = MainArcTable rg
    ∧ MainLabelTable rg' = MainLabelTable rg
    ∧ Number (MainNodeTable rg') = Number (MainNodeTable rg) - 1
    ∧ vtkReebGraphGetNode rg' i
      = Some (set_ArcDownId (FreeZone (MainNodeTable rg)) (set_ArcUpId (-2) ni)).
Proof.
  intros Hi Hnum.
  unfold vtkReebGraphDeleteNode, vtkReebGraphClearNode.
  destruct (pokeNode_spec rg i (set_ArcUpId (-2)) ni Hi)
    as (rg1 & -> & A1 & L1 & N1 & Z1 & Len1 & Hi1 & Hj1).
  simpl.
  destruct (pokeNode_spec rg1 i (set_ArcDownId (FreeZone (MainNodeTable rg1))) _ Hi1)
    as (rg2 & -> & A2 & L2 & N2 & Z2 & Len2 & Hi2 & Hj2).
  simpl.
  rewrite int_decr_Some by congruence. simpl.
  eexists. split; [done|]. unfold vtkReebGraphGetNode in *.
  simpl. repeat split; try congruence.
  unfold peek in *. simpl. by rewrite <- Z1.
Qed.

Lemma vlinks_ok_ext rg rg' ls :
  MainLabelTable rg' = MainLabelTable rg → vlinks_ok rg ls → vlinks_ok rg' ls.
Proof.
  unfold vlinks_ok, vtkReebGraphGetLabel. by intros ->.
Qed.

Lemma labels_unthreaded_ext rg1 rg1' rg2 rg2' ls :
  MainLabelTable rg1' = MainLabelTable rg1 →
  MainLabelTable rg2' = MainLabelTable rg2 →
  labels_unthreaded rg1 ls rg2 → labels_unthreaded rg1' ls rg2'.
Proof.
  unfold labels_unthreaded, vtkReebGraphIsLabelCleared, vtkReebGraphGetLabel.
  by intros -> ->.
Qed.

Lemma labels_frame_kept rg1 rg1' rg2 rg2' ls :
  MainLabelTable rg1' = MainLabelTable rg1 →
  MainLabelTable rg2' = MainLabelTable rg2 →
  labels_frame rg1 ls rg2 → labels_kept rg1' ls rg2'.
Proof.
  unfold labels_frame, labels_kept, vtkReebGraphGetLabel.
  intros -> -> Hf i li Hi Hli.
  destruct (Hf i li Hi Hli) as (li' & ? & ? & ? & ? & ? & _).
  by exists li'.
Qed.

(** The collapse itself: it returns, the lower arc gets the upper node and
    the two sibling links of the upper arc, the node and the upper arc are
    deleted, and so is every label of the upper arc. *)
Lemma VertexCollapse_spec
    (rg : vtkReebGraph) (N : Z) (n : vtkReebNode) (a0 a1 : vtkReebArc)
    (ls : list Z) :
  collapsible rg N n a0 a1 ls →
  ∃ rg',
    vtkReebGraphVertexCollapse rg N n = Some rg'
    ∧ vtkReebGraphGetArc rg' (ArcDownId n)
      = Some (mkArc (NodeId0 a0) (ArcUpId0 a0) (ArcDwId0 a0)
                    (NodeId1 a1) (ArcUpId1 a1) (ArcDwId1 a1)
                    (LabelId0 a0) (LabelId1 a0))
    ∧ vtkReebGraphIsNodeCleared rg' N = Some true
    ∧ Number (MainNodeTable rg') = Number (MainNodeTable rg) - 1
    ∧ vtkReebGraphIsArcCleared rg' (ArcUpId n) = Some true
    ∧ Number (MainArcTable rg') = Number (MainArcTable rg) - 1
    ∧ labels_unthreaded rg ls rg'
    ∧ labels_kept rg ls rg'.
Proof.
  intros (HokA & HokN & HokL & HN & HA0 & HA1 & Hne & Hu & Hd & [n1 Hn1]
          & Hch & Hvl & HnumN & HnumA & HnumL).
  unfold vtkReebGraphVertexCollapse.
  rewrite (to_int_id (ArcDownId n))
    by exact (peek_in_int (MainArcTable rg) _ a0 HokA HA0).
  rewrite (to_int_id (ArcUpId n))
    by exact (peek_in_int (MainArcTable rg) _ a1 HokA HA1).
  pose proof (peek_Some_range _ _ _ HA0) as HA0r.
  assert (Hu0 : ArcDownId n ≠ ArcUpId1 a1 ∧ ArcUpId n ≠ ArcUpId1 a1).
  { destruct Hu as [->|(_ & ? & ?)]; [|done].
    pose proof (peek_Some_range _ _ _ HA1). lia. }
  assert (Hd0 : ArcDownId n ≠ ArcDwId1 a1 ∧ ArcUpId n ≠ ArcDwId1 a1).
  { destruct Hd as [->|(_ & ? & ?)]; [|done].
    pose proof (peek_Some_range _ _ _ HA1). lia. }
  destruct Hu0 as [Hu0 Hu1]. destruct Hd0 as [Hd0 Hd1].
  set (A0 := ArcDownId n) in *. set (A1 := ArcUpId n) in *.
  rewrite HA1. simpl.
  (* a0->NodeId1 = a1->NodeId1 *)
  destruct (pokeArc_spec rg A0 (set_NodeId1 (NodeId1 a1)) a0 HA0)
    as (rg1 & -> & S1 & H01 & Hj1). simpl.
  assert (H11 : vtkReebGraphGetArc rg1 A1 = Some a1) by (rewrite Hj1; auto).
  rewrite H11. simpl.
  (* a0->ArcUpId1 = a1->ArcUpId1, and the sibling above *)
  destruct (pokeArc_spec rg1 A0 (set_ArcUpId1 (ArcUpId1 a1)) _ H01)
    as (rg2 & -> & S2 & H02 & Hj2). simpl.
  assert (H12 : vtkReebGraphGetArc rg2 A1 = Some a1) by (rewrite Hj2; auto).
  rewrite H12. simpl.
  destruct (pokeArc_if_spec rg2 (ArcUpId1 a1) (set_ArcDwId1 A0))
    as (rg3 & -> & S3 & Hj3).
  { intros Hc. destruct Hu as [?|(Hs & ? & ?)]; [done|].
    apply (same_but_arcs_is_Some rg); [|done].
    eauto using same_but_arcs_trans. }
  simpl.
  assert (H03 : vtkReebGraphGetArc rg3 A0 = Some
                  (set_ArcUpId1 (ArcUpId1 a1) (set_NodeId1 (NodeId1 a1) a0)))
    by (rewrite Hj3; auto).
  assert (H13 : vtkReebGraphGetArc rg3 A1 = Some a1) by (rewrite Hj3; auto).
  rewrite H13. simpl.
  (* a0->ArcDwId1 = a1->ArcDwId1, and the sibling below *)
  destruct (pokeArc_spec rg3 A0 (set_ArcDwId1 (ArcDwId1 a1)) _ H03)
    as (rg4 & -> & S4 & H04 & Hj4). simpl.
  assert (H14 : vtkReebGraphGetArc rg4 A1 = Some a1) by (rewrite Hj4; auto).
  rewrite H14. simpl.
  destruct (pokeArc_if_spec rg4 (ArcDwId1 a1) (set_ArcUpId1 A0))
    as (rg5 & -> & S5 & Hj5).
  { intros Hc. destruct Hd as [?|(Hs & ? & ?)]; [done|].
    apply (same_but_arcs_is_Some rg); [|done].
    eauto using same_but_arcs_trans. }
  simpl.
  assert (H05 : vtkReebGraphGetArc rg5 A0 = Some
                  (set_ArcDwId1 (ArcDwId1 a1)
                     (set_ArcUpId1 (ArcUpId1 a1)
                        (set_NodeId1 (NodeId1 a1) a0))))
    by (rewrite Hj5; auto).
  assert (H15 : vtkReebGraphGetArc rg5 A1 = Some a1) by (rewrite Hj5; auto).
  rewrite H15. simpl.
  pose proof (same_but_arcs_trans _ _ _ S1
                (same_but_arcs_trans _ _ _ S2
                   (same_but_arcs_trans _ _ _ S3
                      (same_but_arcs_trans _ _ _ S4 S5))))
    as (EN5 & EL5 & _ & _ & _ & ENum5 & _ & _).
  (* the head of the down list of the upper node *)
  assert (∃ rg6,
            (if decide (ArcDownId n1 = A1)
             then pokeNode rg5 (NodeId1 a1) (set_ArcDownId A0)
             else Some rg5) = Some rg6
            ∧ MainArcTable rg6 = MainArcTable rg5
            ∧ MainLabelTable rg6 = MainLabelTable rg5
            ∧ Number (MainNodeTable rg6) = Number (MainNodeTable rg5)
            ∧ is_Some (vtkReebGraphGetNode rg6 N))
    as (rg6 & Hrg6 & EA6 & EL6 & ENum6 & [nN HnN]).
  { case_decide.
    - destruct (pokeNode_spec rg5 (NodeId1 a1) (set_ArcDownId A0) n1)
        as (rg6 & -> & ? & ? & ? & ? & Hlen & _);
        [unfold vtkReebGraphGetNode; by rewrite EN5|].
      exists rg6. repeat split; try done.
      unfold vtkReebGraphGetNode. apply peek_is_Some. rewrite Hlen, EN5.
      by eapply peek_Some_range.
    - exists rg5. repeat split; try done.
      unfold vtkReebGraphGetNode. rewrite EN5. by eexists. }
  assert (Hn15 : vtkReebGraphGetNode rg5 (NodeId1 a1) = Some n1)
    by (unfold vtkReebGraphGetNode; by rewrite EN5).
  rewrite Hn15. simpl. rewrite Hrg6. simpl.
  assert (H06 : vtkReebGraphGetArc rg6 A0 = vtkReebGraphGetArc rg5 A0)
    by (unfold vtkReebGraphGetArc; by rewrite EA6).
  assert (H16 : vtkReebGraphGetArc rg6 A1 = Some a1)
    by (unfold vtkReebGraphGetArc; by rewrite EA6).
  rewrite H16. simpl.
  (* the labels of the upper arc *)
  assert (EL : MainLabelTable rg6 = MainLabelTable rg) by congruence.
  destruct (VertexCollapse_labels_spec ls rg6 (to_int (LabelId0 a1))
              (length (Buffer (MainLabelTable rg6))))
    as (rg7 & -> & (EA7 & EN7 & _) & Hunth & Hframe).
  { by rewrite EL. }
  { rewrite EL, (chain_head_in_int _ _ _ _ HokL Hch). done. }
  { rewrite EL. destruct (chain_length _ _ _ _ Hch) as [?| ->]; simpl; lia. }
  { by apply (vlinks_ok_ext rg). }
  { by rewrite EL. }
  simpl.
  (* the upper arc and the node are deleted *)
  destruct (DeleteArc_spec rg7 A1 a1) as (rg8 & -> & EN8 & EL8 & ENum8 & H18 & Hj8).
  { unfold vtkReebGraphGetArc in *. by rewrite EA7. }
  { rewrite EA7, EA6, ENum5. unfold INT_MIN. lia. }
  simpl.
  destruct (DeleteNode_spec rg8 N nN) as (rg9 & -> & EA9 & EL9 & ENum9 & HN9).
  { unfold vtkReebGraphGetNode in *. by rewrite EN8, EN7. }
  { rewrite EN8, EN7, ENum6, EN5. unfold INT_MIN. lia. }
  exists rg9. split; [done|]. split; [|split; [|split; [|split; [|split; [|split]]]]].
  - unfold vtkReebGraphGetArc in *. rewrite EA9, Hj8 by done.
    by rewrite EA7, H06, H05.
  - unfold vtkReebGraphIsNodeCleared. by rewrite HN9.
  - rewrite ENum9, EN8, EN7, ENum6, EN5. done.
  - unfold vtkReebGraphIsArcCleared, vtkReebGraphGetArc in *.
    by rewrite EA9, H18.
  - rewrite EA9, ENum8, EA7, EA6, ENum5. done.
  - apply (labels_unthreaded_ext rg6 rg rg7 rg9); [congruence|congruence|done].
  - apply (labels_frame_kept rg6 rg rg7 rg9); [congruence|congruence|done].
Qed.

(** * The statements at concrete inputs *)

Lemma pool_delete_then_new_witness :
  pool_ok NodePool chain3 ∧ pool_slot NodePool chain3 2
  ∧ 0 < pool_Number NodePool chain3
  ∧ ∃ rg1 rg2,
      pool_delete NodePool chain3 2 = Some rg1
      ∧ pool_Number NodePool rg1 = pool_Number NodePool chain3 - 1
      ∧ pool_new NodePool rg1 = Some (2, rg2)
      ∧ pool_zeroed NodePool rg2 2
      ∧ pool_Number NodePool rg2 = pool_Number NodePool chain3
      ∧ pool_FreeZone NodePool rg2 = pool_FreeZone NodePool chain3.
Proof.
  assert (H1 : pool_ok NodePool chain3).
  { simpl. unfold table_ok, in_int, INT_MIN, INT_MAX. simpl. lia. }
  assert (H2 : pool_slot NodePool chain3 2) by (simpl; by eexists).
  assert (H3 : 0 < pool_Number NodePool chain3) by (simpl; lia).
  split; [exact H1|]. split; [exact H2|]. split; [exact H3|].
  exact (pool_delete_then_new NodePool chain3 2 H1 H2 H3).
Defined.

Lemma arc_persistence_is_normalized_span_witness :
  vtkReebGraphGetNode chain3 (NodeId0 chain3_a1) = Some (mkNode 10 0 0 1 true true)
  ∧ vtkReebGraphGetNode chain3 (NodeId1 chain3_a1) = Some chain3_n2
  ∧ vtkReebGraphGetArcPersistence chain3 chain3_a1
    = Some (PrimFloat.div (PrimFloat.sub 1 0) (PrimFloat.sub 2 0)).
Proof.
  split; [reflexivity|]. split; [reflexivity|].
  exact (arc_persistence_is_normalized_span chain3 chain3_a1
           (mkNode 10 0 0 1 true true) chain3_n2 eq_refl eq_refl).
Defined.



(** C3, counterexample. [operator<] holds between a path and itself, and
    fails from the path of smaller simplification value to the other. *)
Lemma operator_lt_reflexive_and_reversed :
  vtkReebPath.operator_lt path_short path_short = Some true
  ∧ PrimFloat.ltb (vtkReebPath.SimplificationValue path_short)
                  (vtkReebPath.SimplificationValue path_long) = true
  ∧ vtkReebPath.operator_lt path_short path_long = Some false
  ∧ vtkReebPath.operator_lt path_long path_short = Some true.
Proof. repeat split; reflexivity. Qed.

Lemma operator_lt_negates_ranking_witness :
  vtkReebPath.last_node path_short = Some 2
  ∧ vtkReebPath.last_node path_long = Some 3
  ∧ vtkReebPath.operator_lt path_short path_short = Some true
  ∧ vtkReebPath.operator_lt path_short path_long = Some false
  ∧ vtkReebPath.operator_lt path_long path_short = Some true.
Proof.
  split; [reflexivity|]. split; [reflexivity|].
  destruct (operator_lt_negates_ranking path_short path_long 2 3
              eq_refl eq_refl) as (Hrefl & _ & Hiff & Hrev).
  assert (Hr : PrimFloat.ltb (vtkReebPath.SimplificationValue path_short)
                 (vtkReebPath.SimplificationValue path_long) = true)
    by reflexivity.
  split; [exact Hrefl|]. split.
  - apply Hiff. left. exact Hr.
  - apply Hrev. left. exact Hr.
Defined.

Lemma IsRegular_agrees_with_degrees_witness :
  table_ok (MainArcTable chain3)
  ∧ vtkReebGraphGetNode chain3 2 = Some chain3_n2
  ∧ chain ArcDwId1 (MainArcTable chain3) (ArcDownId chain3_n2) [1]
  ∧ chain ArcDwId0 (MainArcTable chain3) (ArcUpId chain3_n2) [2]
  ∧ vtkReebGraphGetDownDegree chain3 2 = Some 1
  ∧ vtkReebGraphGetUpDegree chain3 2 = Some 1
  ∧ vtkReebGraphIsRegular chain3 chain3_n2 = Some true
  ∧ spec_is_regular chain3 2 = Some true.
Proof.
  assert (H1 : table_ok (MainArcTable chain3)).
  { unfold table_ok, in_int, INT_MIN, INT_MAX. simpl. lia. }
  assert (H2 : chain ArcDwId1 (MainArcTable chain3) (ArcDownId chain3_n2) [1]).
  { simpl. split; [reflexivity|]. eexists. split; reflexivity. }
  assert (H3 : chain ArcDwId0 (MainArcTable chain3) (ArcUpId chain3_n2) [2]).
  { simpl. split; [reflexivity|]. eexists. split; reflexivity. }
  split; [exact H1|]. split; [reflexivity|]. split; [exact H2|].
  split; [exact H3|].
  destruct (IsRegular_agrees_with_degrees chain3 2 chain3_n2 [1] [2]
              H1 eq_refl H2 H3) as (Hd & Hu & b & Hb & Hs & Hiff).
  split; [exact Hd|]. split; [exact Hu|].
  assert (E : b = true) by (apply Hiff; repeat split; reflexivity).
  rewrite E in Hb, Hs. split; [exact Hb|exact Hs].
Defined.

Lemma zero2_live N n : live_node zero2 N n → n = zero2_n1 ∨ n = zero2_n2.
Proof.
  intros [H _]. unfold vtkReebGraphGetNode, peek in H. simpl in H.
  case_decide; [|discriminate].
  destruct (Z.to_nat N) as [|[|[|k]]] eqn:E; simpl in H;
    [lia| | |discriminate]; injection H as <-; auto.
Qed.

Lemma arc_persistence_divides_by_scalar_span_witness :
  scalar_range_attained zero2
  ∧ (∀ N n, live_node zero2 N n → PrimFloat.is_finite (Value n) = true)
  ∧ (∀ N n M m, live_node zero2 N n → live_node zero2 M m →
                PrimFloat.eqb (Value n) (Value m) = true)
  ∧ vtkReebGraphGetArcPersistence zero2 zero2_a1
    = Some (PrimFloat.div (PrimFloat.sub neg_zero 0)
                          (PrimFloat.sub 0 neg_zero))
  ∧ PrimFloat.eqb
      (PrimFloat.sub (MaximumScalarValue zero2) (MinimumScalarValue zero2)) 0
    = true
  ∧ ∃ p, vtkReebGraphGetArcPersistence zero2 zero2_a1 = Some p
         ∧ PrimFloat.is_nan p = true.
Proof.
  assert (L1 : live_node zero2 1 zero2_n1) by (split; [reflexivity|discriminate]).
  assert (L2 : live_node zero2 2 zero2_n2) by (split; [reflexivity|discriminate]).
  assert (H1 : scalar_range_attained zero2).
  { split; [exists 2, zero2_n2|exists 1, zero2_n1]; (split; [done|reflexivity]). }
  assert (H2 : ∀ N n, live_node zero2 N n →
                      PrimFloat.is_finite (Value n) = true).
  { intros N n [-> | ->]%zero2_live; reflexivity. }
  assert (H3 : ∀ N n M m, live_node zero2 N n → live_node zero2 M m →
                          PrimFloat.eqb (Value n) (Value m) = true).
  { intros N n M m [-> | ->]%zero2_live [-> | ->]%zero2_live; reflexivity. }
  split; [exact H1|]. split; [exact H2|]. split; [exact H3|].
  destruct (arc_persistence_divides_by_scalar_span zero2 H1 H2)
    as (Hf & _ & Hc).
  split; [exact (Hf zero2_a1 zero2_n1 zero2_n2 eq_refl eq_refl)|].
  destruct (Hc H3) as [Hz Ha]. split; [exact Hz|].
  exact (proj2 (Ha zero2_a1 zero2_n1 zero2_n2 L1 L2)).
Defined.

(** C2, counterexample. In [chain3] the upper arc of node 2 is arc 2, with
    the labels 2 and 3. After the collapse of node 2 both labels are deleted
    (cleared, and the head of the free list is label 3); only the two labels
    of the lower arc are left, and no label is attached to arc 1 that was
    not there before. *)
Lemma VertexCollapse_upper_labels_do_not_survive :
  vtkReebGraphGetNode chain3 2 = Some chain3_n2
  ∧ vtkReebGraphGetArc chain3 (ArcUpId chain3_n2) = Some chain3_a2
  ∧ vtkReebGraphGetLabel chain3 2 = Some (mkLabel 2 0 3 7 1 0)
  ∧ vtkReebGraphGetLabel chain3 3 = Some (mkLabel 2 2 0 9 4 0)
  ∧ ∃ rg',
      vtkReebGraphVertexCollapse chain3 2 chain3_n2 = Some rg'
      ∧ vtkReebGraphIsLabelCleared rg' 2 = Some true
      ∧ vtkReebGraphIsLabelCleared rg' 3 = Some true
      ∧ FreeZone (MainLabelTable rg') = 3
      ∧ Number (MainLabelTable chain3) = 4
      ∧ Number (MainLabelTable rg') = 2
      ∧ vtkReebGraphGetArc rg' 1 = Some (mkArc 1 0 0 3 0 0 1 4)
      ∧ vtkReebGraphGetLabel rg' 1 = Some (mkLabel 1 0 4 7 0 0)
      ∧ vtkReebGraphGetLabel rg' 4 = Some (mkLabel 1 1 0 9 0 0).
Proof.
  do 4 (split; [reflexivity|]).
  eexists. split; [vm_compute; reflexivity|]. repeat split; reflexivity.
Qed.



(** * Further properties of the inline code *)

(** ** Transitivity of the comparison of binary64 numbers *)

Lemma SFcompare_trans f1 f2 f3 a b :
  SFcompare f1 f2 = Some a → SFcompare f2 f3 = Some b →
  a ≠ Gt → b ≠ Gt →
  SFcompare f1 f3
  = Some (match a, b with Eq, Eq => Eq | _, _ => Lt end).
Proof.
  destruct f1 as [s1|s1| |s1 m1 e1], f2 as [s2|s2| |s2 m2 e2],
    f3 as [s3|s3| |s3 m3 e3]; simpl; try discriminate;
    repeat match goal with
      | |- context [Pos.compare_cont Eq ?p ?q] =>
          change (Pos.compare_cont Eq p q) with (p ?= q)%positive
      end;
    repeat match goal with s : bool |- _ => destruct s end; simpl;
    intros [= <-] [= <-]; try congruence;
    repeat match goal with
      | |- context [(?x ?= ?y)%Z] => destruct (Z.compare_spec x y)
      | |- context [(?p ?= ?q)%positive] => destruct (Pos.compare_spec p q)
      end; simpl; try congruence; try lia.
Qed.

Lemma float_ltb_trans x y z :
  PrimFloat.ltb x y = true → PrimFloat.ltb y z = true →
  PrimFloat.ltb x z = true.
Proof.
  rewrite !FloatAxioms.ltb_spec. unfold SFltb.
  destruct (SFcompare (Prim2SF x) (Prim2SF y)) as [[]|] eqn:E1; try done.
  destruct (SFcompare (Prim2SF y) (Prim2SF z)) as [[]|] eqn:E2; try done.
  by rewrite (SFcompare_trans _ _ _ _ _ E1 E2).
Qed.

Lemma float_ltb_eqb_trans x y z :
  PrimFloat.ltb x y = true → PrimFloat.eqb y z = true →
  PrimFloat.ltb x z = true.
Proof.
  rewrite !FloatAxioms.ltb_spec, FloatAxioms.eqb_spec. unfold SFltb, SFeqb.
  destruct (SFcompare (Prim2SF x) (Prim2SF y)) as [[]|] eqn:E1; try done.
  destruct (SFcompare (Prim2SF y) (Prim2SF z)) as [[]|] eqn:E2; try done.
  by rewrite (SFcompare_trans _ _ _ _ _ E1 E2).
Qed.

Lemma float_eqb_ltb_trans x y z :
  PrimFloat.eqb x y = true → PrimFloat.ltb y z = true →
  PrimFloat.ltb x z = true.
Proof.
  rewrite !FloatAxioms.ltb_spec, FloatAxioms.eqb_spec. unfold SFltb, SFeqb.
  destruct (SFcompare (Prim2SF x) (Prim2SF y)) as [[]|] eqn:E1; try done.
  destruct (SFcompare (Prim2SF y) (Prim2SF z)) as [[]|] eqn:E2; try done.
  by rewrite (SFcompare_trans _ _ _ _ _ E1 E2).
Qed.

Lemma float_eqb_trans x y z :
  PrimFloat.eqb x y = true → PrimFloat.eqb y z = true →
  PrimFloat.eqb x z = true.
Proof.
  rewrite !FloatAxioms.eqb_spec. unfold SFeqb.
  destruct (SFcompare (Prim2SF x) (Prim2SF y)) as [[]|] eqn:E1; try done.
  destruct (SFcompare (Prim2SF y) (Prim2SF z)) as [[]|] eqn:E2; try done.
  by rewrite (SFcompare_trans _ _ _ _ _ E1 E2).
Qed.

Lemma float_ltb_irrefl x : PrimFloat.ltb x x = false.
Proof.
  destruct (PrimFloat.ltb x x) eqn:E; [|done].
  pose proof (float_ltb_asym _ _ E). congruence.
Qed.

Lemma is_nan_true_Prim2SF x :
  PrimFloat.is_nan x = true → Prim2SF x = S754_nan.
Proof.
  unfold PrimFloat.is_nan. rewrite FloatAxioms.eqb_spec. unfold SFeqb.
  destruct (Prim2SF x) as [s|s| |s m e]; simpl; try done;
    try (by destruct s).
  rewrite Z.compare_refl.
  change (Pos.compare_cont Eq m m) with (m ?= m)%positive.
  rewrite Pos.compare_refl. by destruct s.
Qed.

(** ** The three orders of the header *)

Lemma lex_irrefl v (k : Z) :
  PrimFloat.ltb v v || (PrimFloat.eqb v v && bool_decide (k < k)) = false.
Proof.
  rewrite float_ltb_irrefl, (bool_decide_eq_false_2 (k < k)) by lia.
  by rewrite andb_false_r.
Qed.

Lemma lex_asym v w (k l : Z) :
  PrimFloat.ltb v w || (PrimFloat.eqb v w && bool_decide (k < l)) = true →
  PrimFloat.ltb w v || (PrimFloat.eqb w v && bool_decide (l < k)) = false.
Proof.
  intros [Hlt|[Heq Hid]%andb_prop]%orb_prop.
  - by rewrite (float_ltb_asym _ _ Hlt), (float_eqb_sym w), (float_ltb_eqb _ _ Hlt).
  - rewrite float_eqb_sym in Heq. rewrite (float_eqb_ltb _ _ Heq), Heq. simpl.
    apply bool_decide_eq_true in Hid. apply bool_decide_eq_false. lia.
Qed.

Lemma lex_trans u v w (j k l : Z) :
  PrimFloat.ltb u v || (PrimFloat.eqb u v && bool_decide (j < k)) = true →
  PrimFloat.ltb v w || (PrimFloat.eqb v w && bool_decide (k < l)) = true →
  PrimFloat.ltb u w || (PrimFloat.eqb u w && bool_decide (j < l)) = true.
Proof.
  intros [H1|[H1 I1]%andb_prop]%orb_prop [H2|[H2 I2]%andb_prop]%orb_prop.
  - by rewrite (float_ltb_trans _ _ _ H1 H2).
  - by rewrite (float_ltb_eqb_trans _ _ _ H1 H2).
  - by rewrite (float_eqb_ltb_trans _ _ _ H1 H2).
  - rewrite (float_eqb_trans _ _ _ H1 H2).
    apply bool_decide_eq_true in I1, I2.
    rewrite (bool_decide_eq_true_2 (j < l)) by lia. apply orb_true_r.
Qed.

Lemma lex_total v w (k l : Z) :
  k ≠ l → PrimFloat.is_nan v = false → PrimFloat.is_nan w = false →
  PrimFloat.ltb v w || (PrimFloat.eqb v w && bool_decide (k < l)) = true
  ∨ PrimFloat.ltb w v || (PrimFloat.eqb w v && bool_decide (l < k)) = true.
Proof.
  intros Hne Hv Hw.
  destruct (PrimFloat.ltb v w) eqn:E1; [by left|].
  destruct (PrimFloat.ltb w v) eqn:E2; [by right|].
  rewrite (float_eqb_sym w v), (float_trichotomy _ _ Hv Hw E1 E2). simpl.
  destruct (decide (k < l)).
  - left. by apply bool_decide_eq_true.
  - right. apply bool_decide_eq_true. lia.
Qed.

(** X1. On nodes whose values are numbers, [vtkReebGraphIsSmaller] is a
    strict total order of the pairs (value, node id): no node is smaller than
    itself, two nodes are never smaller than each other, the relation is
    transitive, and of two nodes with different ids one is smaller than the
    other. With a value that is not a number neither direction holds. *)
Theorem IsSmaller_strict_total_order :
  (∀ i n, vtkReebGraphIsSmaller i i n n = false)
  ∧ (∀ i j n m, vtkReebGraphIsSmaller i j n m = true →
                vtkReebGraphIsSmaller j i m n = false)
  ∧ (∀ i j k n m p,
       vtkReebGraphIsSmaller i j n m = true →
       vtkReebGraphIsSmaller j k m p = true →
       vtkReebGraphIsSmaller i k n p = true)
  ∧ (∀ i j n m, i ≠ j →
       PrimFloat.is_nan (Value n) = false →
       PrimFloat.is_nan (Value m) = false →
       vtkReebGraphIsSmaller i j n m = true
       ∨ vtkReebGraphIsSmaller j i m n = true)
  ∧ (∀ i j n m, PrimFloat.is_nan (Value n) = true →
       vtkReebGraphIsSmaller i j n m = false
       ∧ vtkReebGraphIsSmaller j i m n = false).
Proof.
  unfold vtkReebGraphIsSmaller. split; [|split; [|split; [|split]]].
  - intros. apply lex_irrefl.
  - intros *. apply lex_asym.
  - intros *. apply lex_trans.
  - intros *. apply lex_total.
  - intros i j n m Hn.
    assert (Hx : ∀ w, PrimFloat.ltb (Value n) w = false
                      ∧ PrimFloat.ltb w (Value n) = false
                      ∧ PrimFloat.eqb (Value n) w = false
                      ∧ PrimFloat.eqb w (Value n) = false).
    { intros w. apply is_nan_true_Prim2SF in Hn.
      rewrite !FloatAxioms.ltb_spec, !FloatAxioms.eqb_spec.
      unfold SFltb, SFeqb. rewrite Hn. by destruct (Prim2SF w). }
    destruct (Hx (Value m)) as (-> & -> & -> & ->). done.
Qed.

Lemma IsHigherThan_lex N0 N1 n0 n1 :
  vtkReebGraphIsHigherThan N0 N1 n0 n1
  = PrimFloat.ltb (Value n1) (Value n0)
    || (PrimFloat.eqb (Value n1) (Value n0)
        && bool_decide (VertexId n1 < VertexId n0)).
Proof. unfold vtkReebGraphIsHigherThan. by rewrite float_eqb_sym. Qed.

(** X2. [vtkReebGraphIsHigherThan] is a strict order of the pairs (value,
    mesh vertex id), total on nodes with numeric values and different vertex
    ids. It is the converse of [vtkReebGraphIsSmaller] on two nodes whose
    values differ; on two nodes of equal value it compares the vertex ids
    where [vtkReebGraphIsSmaller] compares the node ids. *)
Theorem IsHigherThan_order_and_IsSmaller :
  (∀ N n, vtkReebGraphIsHigherThan N N n n = false)
  ∧ (∀ N0 N1 n0 n1, vtkReebGraphIsHigherThan N0 N1 n0 n1 = true →
                    vtkReebGraphIsHigherThan N1 N0 n1 n0 = false)
  ∧ (∀ N0 N1 N2 n0 n1 n2,
       vtkReebGraphIsHigherThan N0 N1 n0 n1 = true →
       vtkReebGraphIsHigherThan N1 N2 n1 n2 = true →
       vtkReebGraphIsHigherThan N0 N2 n0 n2 = true)
  ∧ (∀ N0 N1 n0 n1, VertexId n0 ≠ VertexId n1 →
       PrimFloat.is_nan (Value n0) = false →
       PrimFloat.is_nan (Value n1) = false →
       vtkReebGraphIsHigherThan N0 N1 n0 n1 = true
       ∨ vtkReebGraphIsHigherThan N1 N0 n1 n0 = true)
  ∧ (∀ N0 N1 n0 n1, PrimFloat.eqb (Value n0) (Value n1) = false →
       vtkReebGraphIsHigherThan N0 N1 n0 n1
       = vtkReebGraphIsSmaller N1 N0 n1 n0)
  ∧ (∀ N0 N1 n0 n1, PrimFloat.eqb (Value n0) (Value n1) = true →
       vtkReebGraphIsHigherThan N0 N1 n0 n1
       = bool_decide (VertexId n1 < VertexId n0)
       ∧ vtkReebGraphIsSmaller N1 N0 n1 n0 = bool_decide (N1 < N0)).
Proof.
  split; [|split; [|split; [|split; [|split]]]].
  - intros. rewrite IsHigherThan_lex. apply lex_irrefl.
  - intros *. rewrite !IsHigherThan_lex. apply lex_asym.
  - intros *. rewrite !IsHigherThan_lex. intros H1 H2.
    exact (lex_trans _ _ _ _ _ _ H2 H1).
  - intros * Hne H0 H1. rewrite !IsHigherThan_lex.
    destruct (lex_total (Value n1) (Value n0) (VertexId n1) (VertexId n0));
      auto.
  - intros * He. rewrite IsHigherThan_lex. unfold vtkReebGraphIsSmaller.
    rewrite float_eqb_sym in He. by rewrite He.
  - intros * He. rewrite IsHigherThan_lex. unfold vtkReebGraphIsSmaller.
    rewrite float_eqb_sym in He. by rewrite He, (float_eqb_ltb _ _ He).
Qed.

(** X3. On pairs whose scalars are numbers, [vtkReebGraphVertexSoS] is a
    strict total order of the pairs (scalar, vertex id): irreflexive,
    asymmetric, transitive, and total on pairs with different ids. *)
Theorem VertexSoS_strict_total_order :
  (∀ v, vtkReebGraphVertexSoS v v = false)
  ∧ (∀ v0 v1, vtkReebGraphVertexSoS v0 v1 = true →
              vtkReebGraphVertexSoS v1 v0 = false)
  ∧ (∀ v0 v1 v2, vtkReebGraphVertexSoS v0 v1 = true →
                 vtkReebGraphVertexSoS v1 v2 = true →
                 vtkReebGraphVertexSoS v0 v2 = true)
  ∧ (∀ v0 v1, v0.1 ≠ v1.1 →
       PrimFloat.is_nan v0.2 = false → PrimFloat.is_nan v1.2 = false →
       vtkReebGraphVertexSoS v0 v1 = true
       ∨ vtkReebGraphVertexSoS v1 v0 = true).
Proof.
  unfold vtkReebGraphVertexSoS. split; [|split; [|split]].
  - intros. apply lex_irrefl.
  - intros *. apply lex_asym.
  - intros *. apply lex_trans.
  - intros *. apply lex_total.
Qed.

(** ** What the operations leave of every slot *)

Section keep.
Context (PN : Z → vtkReebNode → vtkReebNode → Prop)
        (PA : Z → vtkReebArc → vtkReebArc → Prop)
        (PL : Z → vtkReebLabel → vtkReebLabel → Prop).
Hypothesis PN_refl : ∀ j x, PN j x x.
Hypothesis PA_refl : ∀ j x, PA j x x.
Hypothesis PL_refl : ∀ j x, PL j x x.
Hypothesis PN_trans : ∀ j x y z, PN j x y → PN j y z → PN j x z.
Hypothesis PA_trans : ∀ j x y z, PA j x y → PA j y z → PA j x z.
Hypothesis PL_trans : ∀ j x y z, PL j x y → PL j y z → PL j x z.

Lemma graph_keep_refl rg : graph_keep PN PA PL rg rg.
Proof. do 5 (split; [done|]). repeat split; intros j x Hx; eauto. Qed.

Lemma graph_keep_trans rg1 rg2 rg3 :
  graph_keep PN PA PL rg1 rg2 → graph_keep PN PA PL rg2 rg3 →
  graph_keep PN PA PL rg1 rg3.
Proof.
  intros (m1 & M1 & ?&?&? & N1 & A1 & L1) (m2 & M2 & ?&?&? & N2 & A2 & L2).
  do 5 (split; [congruence|]).
  split; [|split]; intros j x Hx.
  - destruct (N1 j x Hx) as (y & Hy & ?). destruct (N2 j y Hy) as (z & ? & ?).
    eauto.
  - destruct (A1 j x Hx) as (y & Hy & ?). destruct (A2 j y Hy) as (z & ? & ?).
    eauto.
  - destruct (L1 j x Hx) as (y & Hy & ?). destruct (L2 j y Hy) as (z & ? & ?).
    eauto.
Qed.

(** Graphs with the same buffers and the same scalar range. *)
Lemma graph_keep_buffers rg rg' :
  MinimumScalarValue rg' = MinimumScalarValue rg →
  MaximumScalarValue rg' = MaximumScalarValue rg →
  Buffer (MainNodeTable rg') = Buffer (MainNodeTable rg) →
  Buffer (MainArcTable rg') = Buffer (MainArcTable rg) →
  Buffer (MainLabelTable rg') = Buffer (MainLabelTable rg) →
  graph_keep PN PA PL rg rg'.
Proof.
  intros ? ? EN EA EL. do 2 (split; [done|]).
  do 3 (split; [congruence|]).
  unfold nodes_keep, arcs_keep, labels_keep, vtkReebGraphGetNode,
    vtkReebGraphGetArc, vtkReebGraphGetLabel, peek.
  rewrite EN, EA, EL. repeat split; eauto.
Qed.

Lemma pokeNode_keep rg i f rg' :
  (∀ x, PN i x (f x)) → pokeNode rg i f = Some rg' →
  graph_keep PN PA PL rg rg'.
Proof.
  intros Hf H. unfold pokeNode in H.
  apply bind_Some in H as (t & Ht & [= <-]).
  unfold poke in Ht. apply bind_Some in Ht as (x & Hx & [= <-]).
  do 2 (split; [done|]). simpl. rewrite length_insert.
  do 3 (split; [done|]). split; [|split]; [|intros j y Hy; eauto..].
  intros j y Hy. unfold vtkReebGraphGetNode in *. simpl.
  destruct (decide (i = j)) as [->|Hne].
  - rewrite (peek_insert_eq _ _ _ _ _ _ _ Hx). rewrite Hx in Hy.
    injection Hy as <-. eauto.
  - rewrite peek_insert_ne by done. eauto.
Qed.

Lemma pokeArc_keep rg i f rg' :
  (∀ x, PA i x (f x)) → pokeArc rg i f = Some rg' →
  graph_keep PN PA PL rg rg'.
Proof.
  intros Hf H. unfold pokeArc in H.
  apply bind_Some in H as (t & Ht & [= <-]).
  unfold poke in Ht. apply bind_Some in Ht as (x & Hx & [= <-]).
  do 2 (split; [done|]). simpl. rewrite length_insert.
  do 3 (split; [done|]).
  split; [|split]; [intros j y Hy; eauto| |intros j y Hy; eauto].
  intros j y Hy. unfold vtkReebGraphGetArc in *. simpl.
  destruct (decide (i = j)) as [->|Hne].
  - rewrite (peek_insert_eq _ _ _ _ _ _ _ Hx). rewrite Hx in Hy.
    injection Hy as <-. eauto.
  - rewrite peek_insert_ne by done. eauto.
Qed.

Lemma pokeLabel_keep rg i f rg' :
  (∀ x, PL i x (f x)) → pokeLabel rg i f = Some rg' →
  graph_keep PN PA PL rg rg'.
Proof.
  intros Hf H. unfold pokeLabel in H.
  apply bind_Some in H as (t & Ht & [= <-]).
  unfold poke in Ht. apply bind_Some in Ht as (x & Hx & [= <-]).
  do 2 (split; [done|]). simpl. rewrite length_insert.
  do 3 (split; [done|]). split; [|split]; [intros j y Hy; eauto..|].
  intros j y Hy. unfold vtkReebGraphGetLabel in *. simpl.
  destruct (decide (i = j)) as [->|Hne].
  - rewrite (peek_insert_eq _ _ _ _ _ _ _ Hx). rewrite Hx in Hy.
    injection Hy as <-. eauto.
  - rewrite peek_insert_ne by done. eauto.
Qed.

Lemma DeleteNode_keep rg i rg' :
  (∀ v x, PN i x (set_ArcUpId v x)) → (∀ v x, PN i x (set_ArcDownId v x)) →
  vtkReebGraphDeleteNode rg i = Some rg' → graph_keep PN PA PL rg rg'.
Proof.
  intros H1 H2 H. unfold vtkReebGraphDeleteNode, vtkReebGraphClearNode in H.
  apply bind_Some in H as (rg1 & K1%pokeNode_keep & H); [|by auto].
  apply bind_Some in H as (rg2 & K2%pokeNode_keep & H); [|by auto].
  apply bind_Some in H as (num & _ & [= <-]).
  eapply graph_keep_trans; [exact K1|].
  eapply graph_keep_trans; [exact K2|]. by apply graph_keep_buffers.
Qed.

Lemma DeleteArc_keep rg i rg' :
  (∀ v x, PA i x (set_LabelId1 v x)) → (∀ v x, PA i x (set_LabelId0 v x)) →
  vtkReebGraphDeleteArc rg i = Some rg' → graph_keep PN PA PL rg rg'.
Proof.
  intros H1 H2 H. unfold vtkReebGraphDeleteArc, vtkReebGraphClearArc in H.
  apply bind_Some in H as (rg1 & K1%pokeArc_keep & H); [|by auto].
  apply bind_Some in H as (rg2 & K2%pokeArc_keep & H); [|by auto].
  apply bind_Some in H as (num & _ & [= <-]).
  eapply graph_keep_trans; [exact K1|].
  eapply graph_keep_trans; [exact K2|]. by apply graph_keep_buffers.
Qed.

Lemma DeleteLabel_keep rg i rg' :
  (∀ v x, PL i x (set_HNext v x)) → (∀ v x, PL i x (set_ArcId v x)) →
  vtkReebGraphDeleteLabel rg i = Some rg' → graph_keep PN PA PL rg rg'.
Proof.
  intros H1 H2 H. unfold vtkReebGraphDeleteLabel, vtkReebGraphClearLabel in H.
  apply bind_Some in H as (rg1 & K1%pokeLabel_keep & H); [|by auto].
  apply bind_Some in H as (rg2 & K2%pokeLabel_keep & H); [|by auto].
  apply bind_Some in H as (num & _ & [= <-]).
  eapply graph_keep_trans; [exact K1|].
  eapply graph_keep_trans; [exact K2|]. by apply graph_keep_buffers.
Qed.

Lemma VertexCollapse_labels_keep fuel : ∀ rg Lb rg',
  (∀ i v x, PL i x (set_VNext v x)) → (∀ i v x, PL i x (set_VPrev v x)) →
  (∀ i v x, PL i x (set_HNext v x)) → (∀ i v x, PL i x (set_ArcId v x)) →
  VertexCollapse_labels fuel rg Lb = Some rg' → graph_keep PN PA PL rg rg'.
Proof.
  induction fuel as [|fuel IH]; intros rg Lb rg' H1 H2 H3 H4 H; simpl in H.
  - case_decide; [|done]. injection H as <-. apply graph_keep_refl.
  - case_decide; [injection H as <-; apply graph_keep_refl|].
    apply bind_Some in H as (lb & _ & H).
    apply bind_Some in H as (rgA & HA & H).
    apply bind_Some in H as (lb' & _ & H).
    apply bind_Some in H as (rgB & HB & H).
    apply bind_Some in H as (rgC & HC%DeleteLabel_keep & H); [|by auto..].
    assert (KA : graph_keep PN PA PL rg rgA).
    { cbv zeta in HA.
      destruct (decide (VPrev lb ≠ 0));
        [eapply pokeLabel_keep; [|exact HA]; auto|].
      injection HA as <-. apply graph_keep_refl. }
    assert (KB : graph_keep PN PA PL rgA rgB).
    { destruct (decide (VNext lb' ≠ 0));
        [eapply pokeLabel_keep; [|exact HB]; auto|].
      injection HB as <-. apply graph_keep_refl. }
    eauto using graph_keep_trans.
Qed.
End keep.

(** ** Vertex collapse: what it never changes *)

Ltac rel_solve :=
  intros; unfold collapse_node_rel, collapse_arc_rel, collapse_label_rel in *;
  simpl; intuition congruence.

Lemma poke_counters {T} (tbl : Table T) i f t :
  poke tbl i f = Some t →
  Number t = Number tbl ∧ FreeZone t = FreeZone tbl.
Proof.
  unfold poke. intros (x & _ & [= <-])%bind_Some. done.
Qed.

Lemma DeleteArc_cleared rg i rg' :
  vtkReebGraphDeleteArc rg i = Some rg' →
  vtkReebGraphIsArcCleared rg' i = Some true.
Proof.
  intros H. pose proof H as H0.
  unfold vtkReebGraphDeleteArc, vtkReebGraphClearArc in H.
  apply bind_Some in H as (rg1 & H1 & H).
  apply bind_Some in H as (rg2 & H2 & H).
  apply bind_Some in H as (num & Hnum & _).
  unfold pokeArc in H1. apply bind_Some in H1 as (t & Ht & [= <-]).
  unfold pokeArc in H2. apply bind_Some in H2 as (t2 & Ht2 & [= <-]).
  destruct (poke_counters _ _ _ _ Ht) as [E1 _].
  destruct (poke_counters _ _ _ _ Ht2) as [E2 _]. simpl in *.
  unfold poke in Ht. apply bind_Some in Ht as (ai & Hai & _).
  assert (E : Number t2 = Number (MainArcTable rg)) by congruence.
  destruct (DeleteArc_spec rg i ai Hai) as (rg'' & E' & _ & _ & _ & Hc & _).
  { unfold int_decr in Hnum. case_decide; [|done]. by rewrite <- E. }
  rewrite E' in H0. injection H0 as <-.
  unfold vtkReebGraphIsArcCleared. by rewrite Hc.
Qed.

Lemma DeleteNode_cleared rg i rg' :
  vtkReebGraphDeleteNode rg i = Some rg' →
  vtkReebGraphIsNodeCleared rg' i = Some true.
Proof.
  intros H. pose proof H as H0.
  unfold vtkReebGraphDeleteNode, vtkReebGraphClearNode in H.
  apply bind_Some in H as (rg1 & H1 & H).
  apply bind_Some in H as (rg2 & H2 & H).
  apply bind_Some in H as (num & Hnum & _).
  unfold pokeNode in H1. apply bind_Some in H1 as (t & Ht & [= <-]).
  unfold pokeNode in H2. apply bind_Some in H2 as (t2 & Ht2 & [= <-]).
  destruct (poke_counters _ _ _ _ Ht) as [E1 _].
  destruct (poke_counters _ _ _ _ Ht2) as [E2 _]. simpl in *.
  unfold poke in Ht. apply bind_Some in Ht as (ni & Hni & _).
  assert (E : Number t2 = Number (MainNodeTable rg)) by congruence.
  destruct (DeleteNode_spec rg i ni Hni) as (rg'' & E' & _ & _ & _ & Hc).
  { unfold int_decr in Hnum. case_decide; [|done]. by rewrite <- E. }
  rewrite E' in H0. injection H0 as <-.
  unfold vtkReebGraphIsNodeCleared. by rewrite Hc.
Qed.

Lemma DeleteNode_arcs rg i rg' :
  vtkReebGraphDeleteNode rg i = Some rg' →
  MainArcTable rg' = MainArcTable rg.
Proof.
  unfold vtkReebGraphDeleteNode, vtkReebGraphClearNode, pokeNode.
  intros (rg1 & (t1 & _ & [= <-])%bind_Some & H)%bind_Some.
  apply bind_Some in H as (rg2 & (t2 & _ & [= <-])%bind_Some & H).
  apply bind_Some in H as (num & _ & [= <-]). done.
Qed.

Section collapse_keep.
Context (PN : Z → vtkReebNode → vtkReebNode → Prop)
        (PA : Z → vtkReebArc → vtkReebArc → Prop)
        (PL : Z → vtkReebLabel → vtkReebLabel → Prop).
Context (N : Z) (n : vtkReebNode).
Hypothesis PN_refl : ∀ j x, PN j x x.
Hypothesis PA_refl : ∀ j x, PA j x x.
Hypothesis PL_refl : ∀ j x, PL j x x.
Hypothesis PN_trans : ∀ j x y z, PN j x y → PN j y z → PN j x z.
Hypothesis PA_trans : ∀ j x y z, PA j x y → PA j y z → PA j x z.
Hypothesis PL_trans : ∀ j x y z, PL j x y → PL j y z → PL j x z.
Hypothesis PN_down : ∀ i v x, PN i x (set_ArcDownId v x).
Hypothesis PN_up : ∀ v x, PN N x (set_ArcUpId v x).
Hypothesis PA_up1 : ∀ i v x, PA i x (set_ArcUpId1 v x).
Hypothesis PA_dw1 : ∀ i v x, PA i x (set_ArcDwId1 v x).
Hypothesis PA_l0 : ∀ v x, PA (to_int (ArcUpId n)) x (set_LabelId0 v x).
Hypothesis PA_l1 : ∀ v x, PA (to_int (ArcUpId n)) x (set_LabelId1 v x).
Hypothesis PL_vn : ∀ i v x, PL i x (set_VNext v x).
Hypothesis PL_vp : ∀ i v x, PL i x (set_VPrev v x).
Hypothesis PL_hn : ∀ i v x, PL i x (set_HNext v x).
Hypothesis PL_ai : ∀ i v x, PL i x (set_ArcId v x).

(** A successful collapse is the assignment [a0->NodeId1 = a1->NodeId1]
    followed by steps that keep [PN], [PA] and [PL]; it ends with the upper
    arc and the node cleared. *)
Lemma VertexCollapse_inv rg rg' :
  vtkReebGraphVertexCollapse rg N n = Some rg' →
  ∃ a1 rg1,
    vtkReebGraphGetArc rg (to_int (ArcUpId n)) = Some a1
    ∧ pokeArc rg (to_int (ArcDownId n)) (set_NodeId1 (NodeId1 a1)) = Some rg1
    ∧ graph_keep PN PA PL rg1 rg'
    ∧ vtkReebGraphIsArcCleared rg' (to_int (ArcUpId n)) = Some true
    ∧ vtkReebGraphIsNodeCleared rg' N = Some true.
Proof.
  unfold vtkReebGraphVertexCollapse. cbv zeta. intros H.
  apply bind_Some in H as (a1 & Ha1 & H).
  apply bind_Some in H as (rg1 & H1 & H).
  exists a1, rg1. split; [done|]. split; [done|].
  apply bind_Some in H as (a1b & _ & H).
  apply bind_Some in H as (rg2 & K2 & H).
  apply pokeArc_keep with (PN := PN) (PA := PA) (PL := PL) in K2;
    [|by auto..].
  apply bind_Some in H as (a1c & _ & H).
  apply bind_Some in H as (rg3 & H3 & H).
  assert (K3 : graph_keep PN PA PL rg2 rg3).
  { destruct (decide (ArcUpId1 a1c ≠ 0));
      [eapply (pokeArc_keep PN PA PL); [..|exact H3]; auto|].
    injection H3 as <-. by apply graph_keep_refl. }
  apply bind_Some in H as (a1d & _ & H).
  apply bind_Some in H as (rg4 & K4 & H).
  apply pokeArc_keep with (PN := PN) (PA := PA) (PL := PL) in K4;
    [|by auto..].
  apply bind_Some in H as (a1e & _ & H).
  apply bind_Some in H as (rg5 & H5 & H).
  assert (K5 : graph_keep PN PA PL rg4 rg5).
  { destruct (decide (ArcDwId1 a1e ≠ 0));
      [eapply (pokeArc_keep PN PA PL); [..|exact H5]; auto|].
    injection H5 as <-. by apply graph_keep_refl. }
  apply bind_Some in H as (a1f & _ & H).
  apply bind_Some in H as (n1 & _ & H).
  apply bind_Some in H as (rg6 & H6 & H).
  assert (K6 : graph_keep PN PA PL rg5 rg6).
  { destruct (decide (ArcDownId n1 = to_int (ArcUpId n)));
      [eapply (pokeNode_keep PN PA PL); [..|exact H6]; auto|].
    injection H6 as <-. by apply graph_keep_refl. }
  apply bind_Some in H as (a1g & _ & H).
  apply bind_Some in H as (rg7 & K7 & H).
  apply VertexCollapse_labels_keep with (PN := PN) (PA := PA) (PL := PL)
    in K7; [|by auto..].
  apply bind_Some in H as (rg8 & H8 & H9).
  pose proof (DeleteArc_cleared _ _ _ H8) as Hc8.
  apply DeleteArc_keep with (PN := PN) (PA := PA) (PL := PL) in H8;
    [|by auto..].
  pose proof (DeleteNode_cleared _ _ _ H9) as Hc9.
  pose proof (DeleteNode_arcs _ _ _ H9) as EA.
  apply DeleteNode_keep with (PN := PN) (PA := PA) (PL := PL) in H9;
    [|by auto..].
  split; [eauto 10 using graph_keep_trans|]. split; [|done].
  unfold vtkReebGraphIsArcCleared, vtkReebGraphGetArc in *. by rewrite EA.
Qed.
End collapse_keep.

(** What a vertex collapse leaves of every slot. *)
Lemma VertexCollapse_kept
    (rg : vtkReebGraph) (N : Z) (n : vtkReebNode) (rg' : vtkReebGraph) :
  vtkReebGraphVertexCollapse rg N n = Some rg' →
  graph_keep (collapse_node_rel N)
             (collapse_arc_rel (to_int (ArcDownId n)) (to_int (ArcUpId n)))
             collapse_label_rel rg rg'
  ∧ vtkReebGraphIsArcCleared rg' (to_int (ArcUpId n)) = Some true
  ∧ vtkReebGraphIsNodeCleared rg' N = Some true.
Proof.
  intros H.
  destruct (VertexCollapse_inv (collapse_node_rel N)
              (collapse_arc_rel (to_int (ArcDownId n)) (to_int (ArcUpId n)))
              collapse_label_rel N n) with (rg := rg) (rg' := rg')
    as (a1 & rg1 & Ha1 & H1 & K & Hc); try rel_solve.
  split; [|exact Hc].
  apply pokeArc_keep
    with (PN := collapse_node_rel N)
         (PA := collapse_arc_rel (to_int (ArcDownId n)) (to_int (ArcUpId n)))
         (PL := collapse_label_rel) in H1; [|rel_solve..].
  eapply graph_keep_trans; [rel_solve..|exact H1|exact K].
Qed.

(** X4. Whatever the shape of the graph, a vertex collapse that returns
    leaves the scalar range and the number of slots of each table as they
    were; every node keeps its mesh vertex, value and flags, and every node
    but the collapsed one the head of its up list; every arc keeps its lower
    node and its links in the up list of that node, every arc but the lower
    one its upper node, and every arc but the upper one the ends of its
    label chain; every label keeps its tag and left neighbour. The upper arc
    and the node end up cleared. *)
Theorem VertexCollapse_frame
    (rg : vtkReebGraph) (N : Z) (n : vtkReebNode) (rg' : vtkReebGraph) :
  vtkReebGraphVertexCollapse rg N n = Some rg' →
  graph_keep (collapse_node_rel N)
             (collapse_arc_rel (to_int (ArcDownId n)) (to_int (ArcUpId n)))
             collapse_label_rel rg rg'
  ∧ vtkReebGraphIsArcCleared rg' (to_int (ArcUpId n)) = Some true
  ∧ vtkReebGraphIsNodeCleared rg' N = Some true.
Proof. apply VertexCollapse_kept. Qed.

(** ** Vertex collapse keeps the arcs ordered *)

Lemma IsSmaller2_trans rg i j k :
  vtkReebGraphIsSmaller2 rg i j = Some true →
  vtkReebGraphIsSmaller2 rg j k = Some true →
  vtkReebGraphIsSmaller2 rg i k = Some true.
Proof.
  unfold vtkReebGraphIsSmaller2, vtkReebGraphIsSmaller.
  destruct (vtkReebGraphGetNode rg i) as [x|]; [|done].
  destruct (vtkReebGraphGetNode rg j) as [y|]; [|done].
  destruct (vtkReebGraphGetNode rg k) as [z|]; [|done]. simpl.
  intros [= H1] [= H2]. f_equal. by eapply lex_trans.
Qed.

Lemma IsSmaller2_keep N rg rg' i j b :
  nodes_keep (collapse_node_rel N) rg rg' →
  vtkReebGraphIsSmaller2 rg i j = Some b →
  vtkReebGraphIsSmaller2 rg' i j = Some b.
Proof.
  intros K. unfold vtkReebGraphIsSmaller2, vtkReebGraphIsSmaller.
  destruct (vtkReebGraphGetNode rg i) as [x|] eqn:Hx; [|done].
  destruct (vtkReebGraphGetNode rg j) as [y|] eqn:Hy; [|done]. simpl.
  destruct (K i x Hx) as (x' & -> & _ & Vx & _).
  destruct (K j y Hy) as (y' & -> & _ & Vy & _). simpl.
  by rewrite Vx, Vy.
Qed.

Lemma VertexCollapse_upper_node rg N n rg' a1 :
  vtkReebGraphVertexCollapse rg N n = Some rg' →
  vtkReebGraphGetArc rg (to_int (ArcUpId n)) = Some a1 →
  ∃ x, vtkReebGraphGetArc rg' (to_int (ArcDownId n)) = Some x
       ∧ NodeId1 x = NodeId1 a1.
Proof.
  intros H Ha1.
  destruct (VertexCollapse_inv (λ _ _ _, True)
              (λ _ x x', NodeId1 x' = NodeId1 x) (λ _ _ _, True) N n)
    with (rg := rg) (rg' := rg')
    as (a1' & rg1 & Ha1' & H1 & (_&_&_&_&_&_&K&_) & _);
    try done; try (intros; simpl; congruence).
  rewrite Ha1 in Ha1'. injection Ha1' as <-.
  unfold pokeArc in H1. apply bind_Some in H1 as (t & Ht & [= <-]).
  unfold poke in Ht. apply bind_Some in Ht as (a0 & Ha0 & [= <-]).
  destruct (K (to_int (ArcDownId n)) (set_NodeId1 (NodeId1 a1) a0))
    as (x & Hx & E).
  { unfold vtkReebGraphGetArc. simpl. by eapply peek_insert_eq. }
  exists x. by split.
Qed.

(** Every arc in use stays ordered through a vertex collapse; the merged
    arc by transitivity. *)
Lemma VertexCollapse_arcs_ordered
    (rg : vtkReebGraph) (N : Z) (n : vtkReebNode) (a0 a1 : vtkReebArc)
    (rg' : vtkReebGraph) :
  table_ok (MainArcTable rg) →
  live_arc rg (ArcDownId n) a0 →
  live_arc rg (ArcUpId n) a1 →
  NodeId1 a0 = N → NodeId0 a1 = N →
  arcs_ordered rg →
  vtkReebGraphVertexCollapse rg N n = Some rg' →
  arcs_ordered rg'.
Proof.
  intros Hok [Ha0 Hl0] [Ha1 Hl1] E0 E1 Hord H.
  pose proof (to_int_id _ (peek_in_int _ _ _ Hok Ha0)) as I0.
  pose proof (to_int_id _ (peek_in_int _ _ _ Hok Ha1)) as I1.
  destruct (VertexCollapse_kept rg N n rg' H)
    as ((_ & _ & _ & Hlen & _ & KN & KA & _) & Hcl & _).
  rewrite I0, I1 in KA. rewrite I1 in Hcl.
  destruct (VertexCollapse_upper_node rg N n rg' a1 H) as (x0 & Hx0 & Ex0);
    [by rewrite I1|]. rewrite I0 in Hx0.
  intros A a' [Ha' Hlive].
  assert (is_Some (vtkReebGraphGetArc rg A)) as [a Ha].
  { unfold vtkReebGraphGetArc in *. apply peek_is_Some. rewrite <- Hlen.
    apply peek_is_Some. by eexists. }
  destruct (KA A a Ha) as (a'' & Ha'' & R0 & _ & _ & R1 & RL).
  rewrite Ha' in Ha''. injection Ha'' as <-.
  destruct (decide (A = ArcUpId n)) as [->|HneA1].
  { unfold vtkReebGraphIsArcCleared in Hcl. rewrite Ha' in Hcl.
    simpl in Hcl. injection Hcl as Hcl%bool_decide_eq_true. done. }
  destruct (RL HneA1) as [_ EL].
  assert (Ho : vtkReebGraphIsSmaller2 rg (NodeId0 a) (NodeId1 a) = Some true).
  { apply (Hord A). split; [done|congruence]. }
  rewrite R0.
  destruct (decide (A = ArcDownId n)) as [->|HneA0].
  - rewrite Hx0 in Ha'. injection Ha' as <-. rewrite Ex0.
    rewrite Ha0 in Ha. injection Ha as <-.
    apply (IsSmaller2_keep N rg); [done|].
    apply (IsSmaller2_trans rg _ N).
    + by rewrite <- E0.
    + rewrite <- E1. apply (Hord (ArcUpId n)). by split.
  - rewrite (R1 HneA0). by apply (IsSmaller2_keep N rg).
Qed.

(** X5. A vertex collapse keeps the arcs ordered. If every arc in use goes
    from a smaller to a larger node (in the order of
    [vtkReebGraphIsSmaller]), and the collapsed node [N] is the upper node of
    its lower arc and the lower node of its upper arc, both in use, then
    after the collapse every arc in use still goes from a smaller to a
    larger node; the merged arc does so by transitivity. *)
Theorem VertexCollapse_keeps_arcs_ordered
    (rg : vtkReebGraph) (N : Z) (n : vtkReebNode) (a0 a1 : vtkReebArc)
    (rg' : vtkReebGraph) :
  table_ok (MainArcTable rg) →
  live_arc rg (ArcDownId n) a0 →
  live_arc rg (ArcUpId n) a1 →
  NodeId1 a0 = N → NodeId0 a1 = N →
  arcs_ordered rg →
  vtkReebGraphVertexCollapse rg N n = Some rg' →
  arcs_ordered rg'.
Proof. apply VertexCollapse_arcs_ordered. Qed.

(** ** The free lists of the pools *)

Section free_list.
Context {T : Type} (link : T → Z) (zero : T)
        (clear : T → T) (set_link : Z → T → T).
Hypothesis link_set_link : ∀ v x, link (set_link v x) = v.
Implicit Types (tbl : Table T) (fl : list Z).

Lemma table_pop_empty tbl :
  chain link tbl (FreeZone tbl) [] → table_pop link zero tbl = None.
Proof.
  simpl. intros E. unfold table_pop, peek. rewrite E. done.
Qed.

Lemma table_pop_spec tbl x fl :
  table_ok tbl → Number tbl < INT_MAX →
  chain link tbl (FreeZone tbl) (x :: fl) →
  ∃ t, table_pop link zero tbl = Some (x, t)
    ∧ table_ok t
    ∧ chain link t (FreeZone t) fl
    ∧ Number t = Number tbl + 1
    ∧ peek t x = Some zero
    ∧ ∀ j, j ≠ x → peek t j = peek tbl j.
Proof.
  intros Hok Hnum Hc. pose proof (chain_NoDup _ _ _ _ Hc) as Hnd.
  apply NoDup_cons in Hnd as [Hx _].
  destruct Hc as (E & s & Hs & Hc). unfold table_pop. rewrite E, Hs. simpl.
  rewrite int_incr_Some by done. simpl.
  pose proof (peek_Some_range _ _ _ Hs) as Hr.
  unfold poke.
  assert (Hs' : peek (mkTable (Size tbl) (Number tbl + 1) (to_int (link s))
                        (Buffer tbl)) x = Some s) by exact Hs.
  rewrite Hs'. simpl.
  eexists. split; [done|]. simpl.
  rewrite (chain_head_in_int link _ _ _ Hok Hc).
  assert (Hj : ∀ j, j ≠ x →
            peek (mkTable (Size tbl) (Number tbl + 1) (link s)
                    (<[Z.to_nat x:=zero]> (Buffer tbl))) j = peek tbl j).
  { intros j Hj. by apply peek_insert_ne. }
  split; [|split; [|split; [done|split; [|done]]]].
  - destruct Hok as (Hsz & Hi & Hn & Hz). unfold table_ok. simpl.
    rewrite length_insert. repeat split; try done;
      unfold in_int, INT_MIN, INT_MAX in *; try lia.
    + destruct fl; simpl in Hc; [lia|]. destruct Hc as (-> & ? & Hp & _).
      apply peek_Some_range in Hp. lia.
    + destruct fl; simpl in Hc; [lia|]. destruct Hc as (-> & ? & Hp & _).
      apply peek_Some_range in Hp. lia.
  - eapply chain_frame; [|exact Hc]. intros y Hy. split.
    + by eapply chain_peek.
    + apply Hj. intros ->. done.
  - by eapply peek_insert_eq.
Qed.

Lemma table_push_inv tbl i t :
  table_ok tbl → table_push clear set_link tbl i = Some t →
  ∃ s, peek tbl i = Some s
    ∧ INT_MIN < Number tbl
    ∧ t = mkTable (Size tbl) (Number tbl - 1) i
            (<[Z.to_nat i := set_link (FreeZone tbl) (clear s)]> (Buffer tbl)).
Proof.
  intros Hok H. unfold table_push in H.
  apply bind_Some in H as (t1 & H1 & H).
  apply bind_Some in H as (t2 & H2 & H).
  apply bind_Some in H as (num & Hnum & [= <-]).
  unfold poke in H1. apply bind_Some in H1 as (s & Hs & [= <-]).
  unfold poke in H2. apply bind_Some in H2 as (s' & Hs' & [= <-]).
  simpl in *. rewrite (peek_insert_eq _ _ _ _ _ _ _ Hs) in Hs'.
  injection Hs' as <-. exists s. split; [done|].
  unfold int_decr in Hnum. case_decide; [|done]. injection Hnum as <-.
  split; [done|]. rewrite list_insert_insert_eq.
  by rewrite (to_int_id _ (peek_in_int _ _ _ Hok Hs)).
Qed.

Lemma table_push_spec tbl i s fl :
  table_ok tbl → INT_MIN < Number tbl →
  peek tbl i = Some s → i ∉ fl →
  chain link tbl (FreeZone tbl) fl →
  ∃ t, table_push clear set_link tbl i = Some t
    ∧ table_ok t
    ∧ chain link t (FreeZone t) (i :: fl)
    ∧ Number t = Number tbl - 1
    ∧ peek t i = Some (set_link (FreeZone tbl) (clear s))
    ∧ ∀ j, j ≠ i → peek t j = peek tbl j.
Proof.
  intros Hok Hnum Hs Hi Hc.
  pose proof (peek_Some_range _ _ _ Hs) as Hr.
  pose proof (peek_in_int _ _ _ Hok Hs) as Hii.
  unfold table_push. rewrite (poke_Some _ _ _ _ Hs). simpl.
  erewrite poke_Some by (eapply peek_insert_eq, Hs). simpl.
  rewrite int_decr_Some by done. simpl.
  rewrite list_insert_insert_eq, (to_int_id _ Hii).
  eexists. split; [done|]. simpl.
  assert (Hj : ∀ j, j ≠ i →
            peek (mkTable (Size tbl) (Number tbl - 1) i
                    (<[Z.to_nat i:=set_link (FreeZone tbl) (clear s)]>
                       (Buffer tbl))) j = peek tbl j).
  { intros j Hj. by apply peek_insert_ne. }
  assert (Hii' : peek (mkTable (Size tbl) (Number tbl - 1) i
                    (<[Z.to_nat i:=set_link (FreeZone tbl) (clear s)]>
                       (Buffer tbl))) i
                 = Some (set_link (FreeZone tbl) (clear s)))
    by (by eapply peek_insert_eq).
  split; [|split; [|split; [done|split; [done|done]]]].
  - destruct Hok as (Hsz & Hsi & Hn & Hz). unfold table_ok. simpl.
    rewrite length_insert.
    repeat split; try done; unfold in_int, INT_MIN, INT_MAX in *; lia.
  - split; [done|]. eexists. split; [exact Hii'|].
    rewrite link_set_link.
    eapply chain_frame; [|exact Hc]. intros y Hy. split.
    + by eapply chain_peek.
    + apply Hj. intros ->. done.
Qed.

(** Deleting a slot that is already on the free list ties the list into a
    cycle. *)
Lemma table_push_twice tbl i fl t :
  table_ok tbl →
  chain link tbl (FreeZone tbl) fl → i ∈ fl →
  table_push clear set_link tbl i = Some t →
  ∀ l, ¬ chain link t (FreeZone t) l.
Proof.
  intros Hok Hc Hi H l Hl.
  destruct (table_push_inv _ _ _ Hok H) as (s & Hs & Hnum & ->).
  assert (Hj : ∀ j, j ≠ i →
            peek (mkTable (Size tbl) (Number tbl - 1) i
                    (<[Z.to_nat i:=set_link (FreeZone tbl) (clear s)]>
                       (Buffer tbl))) j = peek tbl j).
  { intros j Hj. by apply peek_insert_ne. }
  set (t := mkTable _ _ _ _) in *.
  assert (Hreach : ∀ pre post h l1,
            chain link tbl h (pre ++ i :: post) → i ∉ pre →
            chain link t h l1 → i ∈ l1).
  { induction pre as [|y pre IH]; intros post h l1 Hch Hpre Hl1.
    - destruct Hch as (-> & _).
      destruct l1 as [|z l1]; simpl in Hl1.
      + apply peek_Some_range in Hs. lia.
      + destruct Hl1 as (-> & _). apply elem_of_cons. auto.
    - apply not_elem_of_cons in Hpre as [Hiy Hpre].
      destruct Hch as (-> & sy & Hsy & Hch).
      destruct l1 as [|z l1]; simpl in Hl1.
      + apply peek_Some_range in Hsy. lia.
      + destruct Hl1 as (<- & sy' & Hsy' & Hl1).
        rewrite Hj in Hsy' by done. rewrite Hsy in Hsy'.
        injection Hsy' as <-. apply elem_of_cons. right. eauto. }
  pose proof (chain_NoDup _ _ _ _ Hl) as Hnd.
  destruct l as [|z l]; simpl in Hl.
  { apply peek_Some_range in Hs. simpl in Hl. lia. }
  destruct Hl as (Ez & sz & Hsz & Hl). simpl in Ez. subst z.
  assert (Esz : sz = set_link (FreeZone tbl) (clear s)).
  { subst t. rewrite (peek_insert_eq _ _ _ _ _ _ _ Hs) in Hsz. congruence. }
  rewrite Esz, link_set_link in Hl.
  apply NoDup_cons in Hnd as [Hnd _]. apply Hnd.
  apply list_elem_of_split in Hi as (pre & post & ->).
  assert (∃ pre' post', pre ++ i :: post = pre' ++ i :: post' ∧ i ∉ pre')
    as (pre' & post' & E & Hpre').
  { clear -pre. induction pre as [|y pre IH].
    - exists [], post. split; [done|]. apply not_elem_of_nil.
    - destruct (decide (y = i)) as [->|Hne].
      + exists [], (pre ++ i :: post). split; [done|]. apply not_elem_of_nil.
      + destruct IH as (pre' & post' & E & Hp). exists (y :: pre'), post'.
        split; [simpl; by rewrite E|]. apply not_elem_of_cons. auto. }
  rewrite E in Hc. by eapply Hreach.
Qed.
End free_list.

Lemma NewNode_pop rg :
  vtkReebGraphNewNode rg
  = (r ← table_pop ArcDownId zero_node (MainNodeTable rg);
     Some (r.1, set_MainNodeTable r.2 rg)).
Proof.
  unfold vtkReebGraphNewNode, table_pop. cbv zeta.
  destruct (peek _ _); simpl; [|done].
  destruct (int_incr _); simpl; [|done]. by destruct (poke _ _ _).
Qed.

Lemma NewArc_pop rg :
  vtkReebGraphNewArc rg
  = (r ← table_pop LabelId0 zero_arc (MainArcTable rg);
     Some (r.1, set_MainArcTable r.2 rg)).
Proof.
  unfold vtkReebGraphNewArc, table_pop. cbv zeta.
  destruct (peek _ _); simpl; [|done].
  destruct (int_incr _); simpl; [|done]. by destruct (poke _ _ _).
Qed.

Lemma NewLabel_pop rg :
  vtkReebGraphNewLabel rg
  = (r ← table_pop ArcId zero_label (MainLabelTable rg);
     Some (r.1, set_MainLabelTable r.2 rg)).
Proof.
  unfold vtkReebGraphNewLabel, table_pop. cbv zeta.
  destruct (peek _ _); simpl; [|done].
  destruct (int_incr _); simpl; [|done]. by destruct (poke _ _ _).
Qed.

Lemma DeleteNode_push rg i :
  vtkReebGraphDeleteNode rg i
  = (t ← table_push (set_ArcUpId (-2)) set_ArcDownId (MainNodeTable rg) i;
     Some (set_MainNodeTable t rg)).
Proof.
  unfold vtkReebGraphDeleteNode, vtkReebGraphClearNode, pokeNode, table_push.
  destruct (poke (MainNodeTable rg) i _) as [t1|]; simpl; [|done].
  destruct (poke t1 i _) as [t2|]; simpl; [|done].
  by destruct (int_decr _).
Qed.

Lemma DeleteArc_push rg i :
  vtkReebGraphDeleteArc rg i
  = (t ← table_push (set_LabelId1 (-2)) set_LabelId0 (MainArcTable rg) i;
     Some (set_MainArcTable t rg)).
Proof.
  unfold vtkReebGraphDeleteArc, vtkReebGraphClearArc, pokeArc, table_push.
  destruct (poke (MainArcTable rg) i _) as [t1|]; simpl; [|done].
  destruct (poke t1 i _) as [t2|]; simpl; [|done].
  by destruct (int_decr _).
Qed.

Lemma DeleteLabel_push rg i :
  vtkReebGraphDeleteLabel rg i
  = (t ← table_push (set_HNext (-2)) set_ArcId (MainLabelTable rg) i;
     Some (set_MainLabelTable t rg)).
Proof.
  unfold vtkReebGraphDeleteLabel, vtkReebGraphClearLabel, pokeLabel,
    table_push.
  destruct (poke (MainLabelTable rg) i _) as [t1|]; simpl; [|done].
  destruct (poke t1 i _) as [t2|]; simpl; [|done].
  by destruct (int_decr _).
Qed.

(** X6. Allocation pops the free list. In each pool with an [int] counter
    below [INT_MAX]: if the free list is empty ([FreeZone] is null) the
    allocation macro dereferences the null slot, and the embedding returns
    nothing; otherwise it returns the first slot of the free list, zeroed,
    leaves the rest of the list as the free list, raises [Number] by one and
    touches no other slot and no other table. *)
Theorem pool_new_pops_free_list (p : Pool) (rg : vtkReebGraph) (fl : list Z) :
  pool_ok p rg →
  pool_Number p rg < INT_MAX →
  pool_free_list p rg fl →
  match fl with
  | [] => pool_new p rg = None
  | x :: fl' =>
      ∃ rg', pool_new p rg = Some (x, rg')
        ∧ pool_ok p rg'
        ∧ pool_free_list p rg' fl'
        ∧ pool_Number p rg' = pool_Number p rg + 1
        ∧ pool_zeroed p rg' x
        ∧ pool_same_but p x rg rg'
  end.
Proof.
  intros Hok Hnum Hfl. destruct fl as [|x fl'].
  - destruct p; simpl in *.
    + rewrite NewNode_pop.
      by rewrite (table_pop_empty ArcDownId zero_node _ Hfl).
    + rewrite NewArc_pop.
      by rewrite (table_pop_empty LabelId0 zero_arc _ Hfl).
    + rewrite NewLabel_pop.
      by rewrite (table_pop_empty ArcId zero_label _ Hfl).
  - destruct p; simpl in *.
    + destruct (table_pop_spec ArcDownId zero_node _ _ _ Hok Hnum Hfl)
        as (t & E & ? & ? & ? & ? & ?).
      rewrite NewNode_pop, E. simpl. eexists. split; [reflexivity|].
      unfold vtkReebGraphGetNode. simpl. unfold pool_same_but. simpl. tauto.
    + destruct (table_pop_spec LabelId0 zero_arc _ _ _ Hok Hnum Hfl)
        as (t & E & ? & ? & ? & ? & ?).
      rewrite NewArc_pop, E. simpl. eexists. split; [reflexivity|].
      unfold vtkReebGraphGetArc. simpl. unfold pool_same_but. simpl. tauto.
    + destruct (table_pop_spec ArcId zero_label _ _ _ Hok Hnum Hfl)
        as (t & E & ? & ? & ? & ? & ?).
      rewrite NewLabel_pop, E. simpl. eexists. split; [reflexivity|].
      unfold vtkReebGraphGetLabel. simpl. unfold pool_same_but. simpl. tauto.
Qed.

(** X7. Deletion pushes on the free list. In each pool with a counter above
    [INT_MIN]: deleting a slot that is not on the free list succeeds, makes
    that slot the new head of the free list in front of the old one, marks
    it cleared, lowers [Number] by one and touches no other slot and no
    other table. *)
Theorem pool_delete_pushes_free_list (p : Pool) (rg : vtkReebGraph) (i : Z)
    (fl : list Z) :
  pool_ok p rg →
  INT_MIN < pool_Number p rg →
  pool_slot p rg i →
  i ∉ fl →
  pool_free_list p rg fl →
  ∃ rg', pool_delete p rg i = Some rg'
    ∧ pool_ok p rg'
    ∧ pool_free_list p rg' (i :: fl)
    ∧ pool_Number p rg' = pool_Number p rg - 1
    ∧ pool_cleared p rg' i
    ∧ pool_same_but p i rg rg'.
Proof.
  intros Hok Hnum Hs Hi Hfl.
  destruct p; simpl in *; destruct Hs as [s Hs].
  - destruct (table_push_spec ArcDownId (set_ArcUpId (-2)) set_ArcDownId
                (λ _ _, eq_refl) _ _ _ _ Hok Hnum Hs Hi Hfl)
      as (t & E & Ht & Hc & Hn & Hp & Hj).
    rewrite DeleteNode_push, E. exists (set_MainNodeTable t rg).
    split; [reflexivity|]. split; [exact Ht|]. split; [exact Hc|].
    split; [exact Hn|]. split.
    + unfold vtkReebGraphIsNodeCleared, vtkReebGraphGetNode. simpl. rewrite Hp. reflexivity.
    + unfold pool_same_but, vtkReebGraphGetNode. simpl. tauto.
  - destruct (table_push_spec LabelId0 (set_LabelId1 (-2)) set_LabelId0
                (λ _ _, eq_refl) _ _ _ _ Hok Hnum Hs Hi Hfl)
      as (t & E & Ht & Hc & Hn & Hp & Hj).
    rewrite DeleteArc_push, E. exists (set_MainArcTable t rg).
    split; [reflexivity|]. split; [exact Ht|]. split; [exact Hc|].
    split; [exact Hn|]. split.
    + unfold vtkReebGraphIsArcCleared, vtkReebGraphGetArc. simpl. rewrite Hp. reflexivity.
    + unfold pool_same_but, vtkReebGraphGetArc. simpl. tauto.
  - destruct (table_push_spec ArcId (set_HNext (-2)) set_ArcId
                (λ _ _, eq_refl) _ _ _ _ Hok Hnum Hs Hi Hfl)
      as (t & E & Ht & Hc & Hn & Hp & Hj).
    rewrite DeleteLabel_push, E. exists (set_MainLabelTable t rg).
    split; [reflexivity|]. split; [exact Ht|]. split; [exact Hc|].
    split; [exact Hn|]. split.
    + unfold vtkReebGraphIsLabelCleared, vtkReebGraphGetLabel. simpl. rewrite Hp. reflexivity.
    + unfold pool_same_but, vtkReebGraphGetLabel. simpl. tauto.
Qed.

(** X8. Deleting a slot twice corrupts the pool. If a slot that is already
    on the free list is deleted again and the macro returns, then afterwards
    the links from [FreeZone] lead back to that slot and never reach the
    null id: no list is the free list of the pool any more. *)
Theorem pool_double_delete_cycles (p : Pool) (rg rg' : vtkReebGraph) (i : Z)
    (fl : list Z) :
  pool_ok p rg →
  pool_free_list p rg fl →
  i ∈ fl →
  pool_delete p rg i = Some rg' →
  ∀ l, ¬ pool_free_list p rg' l.
Proof.
  intros Hok Hfl Hi Hd l. destruct p; simpl in *.
  - rewrite DeleteNode_push in Hd.
    apply bind_Some in Hd as (t & Ht & [= <-]). simpl.
    exact (table_push_twice ArcDownId (set_ArcUpId (-2)) set_ArcDownId
             (λ _ _, eq_refl) _ _ _ _ Hok Hfl Hi Ht l).
  - rewrite DeleteArc_push in Hd.
    apply bind_Some in Hd as (t & Ht & [= <-]). simpl.
    exact (table_push_twice LabelId0 (set_LabelId1 (-2)) set_LabelId0
             (λ _ _, eq_refl) _ _ _ _ Hok Hfl Hi Ht l).
  - rewrite DeleteLabel_push in Hd.
    apply bind_Some in Hd as (t & Ht & [= <-]). simpl.
    exact (table_push_twice ArcId (set_HNext (-2)) set_ArcId
             (λ _ _, eq_refl) _ _ _ _ Hok Hfl Hi Ht l).
Qed.

(** X9. Allocating a slot and deleting it again restores the pool. In each
    pool with a non-empty free list and a counter below [INT_MAX],
    allocation followed by deletion of the slot it returned succeeds, and
    leaves the free list, [Number] and [FreeZone] as they were; the slot is
    marked cleared, and no other slot and no other table has changed. *)
Theorem pool_new_then_delete (p : Pool) (rg : vtkReebGraph) (x : Z)
    (fl : list Z) :
  pool_ok p rg →
  pool_Number p rg < INT_MAX →
  pool_free_list p rg (x :: fl) →
  ∃ rg1 rg2, pool_new p rg = Some (x, rg1)
    ∧ pool_delete p rg1 x = Some rg2
    ∧ pool_ok p rg2
    ∧ pool_free_list p rg2 (x :: fl)
    ∧ pool_Number p rg2 = pool_Number p rg
    ∧ pool_FreeZone p rg2 = pool_FreeZone p rg
    ∧ pool_cleared p rg2 x
    ∧ pool_same_but p x rg rg2.
Proof.
  intros Hok Hnum Hfl. destruct p; simpl in *.
  - pose proof (chain_NoDup ArcDownId (MainNodeTable rg) _ (x :: fl) Hfl)
      as [Hx _]%NoDup_cons.
    destruct (table_pop_spec ArcDownId zero_node _ _ _ Hok Hnum Hfl)
      as (t & E & Ht & Hc & Hn & Hp & Hj).
    assert (Hn' : INT_MIN < Number t).
    { destruct Hok as (_ & _ & [? ?] & _). lia. }
    destruct (table_push_spec ArcDownId (set_ArcUpId (-2)) set_ArcDownId
                (λ _ _, eq_refl) _ _ _ _ Ht Hn' Hp Hx Hc)
      as (t2 & E2 & Ht2 & Hc2 & Hn2 & Hp2 & Hj2).
    exists (set_MainNodeTable t rg), (set_MainNodeTable t2 rg).
    split; [by rewrite NewNode_pop, E|].
    split; [by rewrite DeleteNode_push; simpl; rewrite E2|].
    split; [exact Ht2|]. split; [exact Hc2|]. split; [simpl; lia|].
    split; [simpl; destruct Hc2 as [-> _]; by destruct Hfl|]. split.
    + unfold vtkReebGraphIsNodeCleared, vtkReebGraphGetNode. simpl.
      by rewrite Hp2.
    + unfold pool_same_but, vtkReebGraphGetNode. simpl.
      do 4 (split; [done|]). intros j Hne. by rewrite Hj2, Hj.
  - pose proof (chain_NoDup LabelId0 (MainArcTable rg) _ (x :: fl) Hfl)
      as [Hx _]%NoDup_cons.
    destruct (table_pop_spec LabelId0 zero_arc _ _ _ Hok Hnum Hfl)
      as (t & E & Ht & Hc & Hn & Hp & Hj).
    assert (Hn' : INT_MIN < Number t).
    { destruct Hok as (_ & _ & [? ?] & _). lia. }
    destruct (table_push_spec LabelId0 (set_LabelId1 (-2)) set_LabelId0
                (λ _ _, eq_refl) _ _ _ _ Ht Hn' Hp Hx Hc)
      as (t2 & E2 & Ht2 & Hc2 & Hn2 & Hp2 & Hj2).
    exists (set_MainArcTable t rg), (set_MainArcTable t2 rg).
    split; [by rewrite NewArc_pop, E|].
    split; [by rewrite DeleteArc_push; simpl; rewrite E2|].
    split; [exact Ht2|]. split; [exact Hc2|]. split; [simpl; lia|].
    split; [simpl; destruct Hc2 as [-> _]; by destruct Hfl|]. split.
    + unfold vtkReebGraphIsArcCleared, vtkReebGraphGetArc. simpl.
      by rewrite Hp2.
    + unfold pool_same_but, vtkReebGraphGetArc. simpl.
      do 4 (split; [done|]). intros j Hne. by rewrite Hj2, Hj.
  - pose proof (chain_NoDup ArcId (MainLabelTable rg) _ (x :: fl) Hfl)
      as [Hx _]%NoDup_cons.
    destruct (table_pop_spec ArcId zero_label _ _ _ Hok Hnum Hfl)
      as (t & E & Ht & Hc & Hn & Hp & Hj).
    assert (Hn' : INT_MIN < Number t).
    { destruct Hok as (_ & _ & [? ?] & _). lia. }
    destruct (table_push_spec ArcId (set_HNext (-2)) set_ArcId
                (λ _ _, eq_refl) _ _ _ _ Ht Hn' Hp Hx Hc)
      as (t2 & E2 & Ht2 & Hc2 & Hn2 & Hp2 & Hj2).
    exists (set_MainLabelTable t rg), (set_MainLabelTable t2 rg).
    split; [by rewrite NewLabel_pop, E|].
    split; [by rewrite DeleteLabel_push; simpl; rewrite E2|].
    split; [exact Ht2|]. split; [exact Hc2|]. split; [simpl; lia|].
    split; [simpl; destruct Hc2 as [-> _]; by destruct Hfl|]. split.
    + unfold vtkReebGraphIsLabelCleared, vtkReebGraphGetLabel. simpl.
      by rewrite Hp2.
    + unfold pool_same_but, vtkReebGraphGetLabel. simpl.
      do 4 (split; [done|]). intros j Hne. by rewrite Hj2, Hj.
Qed.

(** ** The arc lists of a node *)

Lemma side_prev_set_prev s v a : side_prev s (set_side_prev s v a) = v.
Proof. by destruct s. Qed.
Lemma side_next_set_prev s v a :
  side_next s (set_side_prev s v a) = side_next s a.
Proof. by destruct s. Qed.
Lemma side_prev_set_next s v a :
  side_prev s (set_side_next s v a) = side_prev s a.
Proof. by destruct s. Qed.
Lemma side_next_set_next s v a : side_next s (set_side_next s v a) = v.
Proof. by destruct s. Qed.
Lemma side_head_set_head s v n : side_head s (set_side_head s v n) = v.
Proof. by destruct s. Qed.
Lemma side_arc_rest_set_prev s v a :
  side_arc_rest s (set_side_prev s v a) = side_arc_rest s a.
Proof. by destruct s. Qed.
Lemma side_arc_rest_set_next s v a :
  side_arc_rest s (set_side_next s v a) = side_arc_rest s a.
Proof. by destruct s. Qed.
Lemma side_node_rest_set_head s v n :
  side_node_rest s (set_side_head s v n) = side_node_rest s n.
Proof. by destruct s. Qed.
Lemma set_side_prev_twice s u v a :
  set_side_prev s u (set_side_prev s v a) = set_side_prev s u a.
Proof. by destruct s. Qed.
Lemma set_side_prev_id s a : set_side_prev s (side_prev s a) a = a.
Proof. by destruct s, a. Qed.
Lemma set_side_head_twice s u v n :
  set_side_head s u (set_side_head s v n) = set_side_head s u n.
Proof. by destruct s. Qed.
Lemma set_side_head_id s n : set_side_head s (side_head s n) n = n.
Proof. by destruct s, n. Qed.

Ltac side_simpl :=
  repeat first
    [ rewrite side_prev_set_prev | rewrite side_next_set_prev
    | rewrite side_prev_set_next | rewrite side_next_set_next
    | rewrite side_head_set_head | rewrite side_arc_rest_set_prev
    | rewrite side_arc_rest_set_next | rewrite side_node_rest_set_head
    | rewrite set_side_prev_twice | rewrite set_side_head_twice ].

Ltac in_list :=
  repeat match goal with
  | H : context [_ ∈ _ ++ _] |- _ => rewrite elem_of_app in H
  | H : context [_ ∈ _ :: _] |- _ => rewrite elem_of_cons in H
  end;
  repeat (rewrite elem_of_app || rewrite elem_of_cons); tauto.

Lemma peek_null {T} (tbl : Table T) : peek tbl 0 = None.
Proof. unfold peek. by rewrite decide_False by lia. Qed.

Lemma links_only_refl rg : links_only rg rg.
Proof. by repeat split. Qed.

Lemma links_only_trans rg1 rg2 rg3 :
  links_only rg1 rg2 → links_only rg2 rg3 → links_only rg1 rg3.
Proof. unfold links_only. intuition congruence. Qed.

Lemma links_only_table_ok rg rg' :
  links_only rg rg' →
  table_ok (MainArcTable rg) → table_ok (MainArcTable rg').
Proof.
  unfold links_only, table_ok.
  intros (_ & _ & _ & _ & -> & -> & -> & ->). done.
Qed.

(** One assignment through an arc pointer, slot by slot. *)
Lemma pokeArc_pt rg i f ai :
  vtkReebGraphGetArc rg i = Some ai →
  ∃ rg', pokeArc rg i f = Some rg'
    ∧ links_only rg rg'
    ∧ (∀ j, vtkReebGraphGetNode rg' j = vtkReebGraphGetNode rg j)
    ∧ ∀ j, vtkReebGraphGetArc rg' j
           = if decide (j = i) then f <$> vtkReebGraphGetArc rg j
             else vtkReebGraphGetArc rg j.
Proof.
  unfold vtkReebGraphGetArc, pokeArc, links_only. intros Hi.
  rewrite (poke_Some _ _ f _ Hi). simpl. eexists. split; [done|]. simpl.
  rewrite length_insert. repeat split; try done.
  intros j. case_decide as Hj.
  - subst j. rewrite Hi. simpl. by eapply peek_insert_eq.
  - by apply peek_insert_ne.
Qed.

Lemma pokeArc_if_pt rg (c : Z) f :
  (c ≠ 0 → is_Some (vtkReebGraphGetArc rg c)) →
  ∃ rg', (if decide (c ≠ 0) then pokeArc rg c f else Some rg) = Some rg'
    ∧ links_only rg rg'
    ∧ (∀ j, vtkReebGraphGetNode rg' j = vtkReebGraphGetNode rg j)
    ∧ ∀ j, vtkReebGraphGetArc rg' j
           = if decide (j = c) then f <$> vtkReebGraphGetArc rg j
             else vtkReebGraphGetArc rg j.
Proof.
  intros Hc. destruct (decide (c ≠ 0)) as [Hd|Hd].
  - destruct (Hc Hd) as [ai Hi]. by apply (pokeArc_pt rg c f ai).
  - exists rg. split; [done|]. split; [apply links_only_refl|].
    split; [done|]. intros j. case_decide as Hj; [|done].
    subst j. replace c with 0 by lia.
    unfold vtkReebGraphGetArc. by rewrite peek_null.
Qed.

Lemma pokeNode_pt rg i f ni :
  vtkReebGraphGetNode rg i = Some ni →
  ∃ rg', pokeNode rg i f = Some rg'
    ∧ links_only rg rg'
    ∧ (∀ j, vtkReebGraphGetArc rg' j = vtkReebGraphGetArc rg j)
    ∧ ∀ j, vtkReebGraphGetNode rg' j
           = if decide (j = i) then f <$> vtkReebGraphGetNode rg j
             else vtkReebGraphGetNode rg j.
Proof.
  unfold vtkReebGraphGetNode, pokeNode, links_only. intros Hi.
  rewrite (poke_Some _ _ f _ Hi). simpl. eexists. split; [done|]. simpl.
  rewrite length_insert. repeat split; try done.
  intros j. case_decide as Hj.
  - subst j. rewrite Hi. simpl. by eapply peek_insert_eq.
  - by apply peek_insert_ne.
Qed.

Section dchains.
Context {T : Type} (prev next : T → Z).
Implicit Types (tbl : Table T).

Lemma dchain_chain tbl p h l :
  dchain prev next tbl p h l → chain next tbl h l.
Proof.
  revert p h. induction l as [|x l IH]; simpl; intros p h; [done|].
  intros (-> & s & Hs & _ & Hc). eauto.
Qed.

Lemma dchain_frame tbl tbl' p h l :
  (∀ x, x ∈ l → peek tbl' x = peek tbl x) →
  dchain prev next tbl p h l → dchain prev next tbl' p h l.
Proof.
  revert p h. induction l as [|y l IH]; simpl; intros p h Hf Hc; [done|].
  destruct Hc as (-> & s & Hs & Hp & Hc). split; [done|]. exists s.
  split; [|split; [done|]].
  - rewrite Hf; [done|]. apply elem_of_cons; auto.
  - apply IH; [|done]. intros x Hx. apply Hf, elem_of_cons; auto.
Qed.

Lemma dchain_pos tbl p h l x :
  dchain prev next tbl p h l → x ∈ l → 0 < x.
Proof.
  intros Hc%dchain_chain Hx.
  by destruct (chain_range next _ _ _ _ Hc Hx).
Qed.

Lemma dchain_NoDup tbl p h l : dchain prev next tbl p h l → NoDup l.
Proof. intros Hc%dchain_chain. by eapply chain_NoDup. Qed.

Context (set_prev set_next : Z → T → T).
Hypothesis prev_set_prev : ∀ v a, prev (set_prev v a) = v.
Hypothesis next_set_prev : ∀ v a, next (set_prev v a) = next a.
Hypothesis prev_set_next : ∀ v a, prev (set_next v a) = prev a.
Hypothesis next_set_next : ∀ v a, next (set_next v a) = v.

(** Unlinking [A]: the slot before it gets a new [next], the slot after it
    a new [prev], and the list closes over the gap. *)
Lemma dchain_remove tbl tbl' A a : ∀ l1 l2 p h,
  p ∉ l1 ++ A :: l2 →
  dchain prev next tbl p h (l1 ++ A :: l2) →
  peek tbl A = Some a →
  (∀ j, prev a ≠ 0 → j = prev a →
        peek tbl' j = set_next (next a) <$> peek tbl j) →
  (∀ j, j ≠ prev a → j = next a →
        peek tbl' j = set_prev (prev a) <$> peek tbl j) →
  (∀ j, j ≠ prev a → j ≠ next a → peek tbl' j = peek tbl j) →
  prev a = default p (last l1)
  ∧ next a = hd 0 l2
  ∧ dchain prev next tbl' p (if l1 is [] then next a else h) (l1 ++ l2).
Proof.
  induction l1 as [|x l1 IH]; intros l2 p h Hp Hc Ha Hpr Hnx Hot.
  - simpl in *. destruct Hc as (-> & a' & Ha' & Hpa & Hc).
    assert (a' = a) as -> by congruence.
    split; [done|].
    pose proof (dchain_NoDup _ _ _ _ Hc) as Hnd.
    destruct l2 as [|y l2]; simpl in *; [done|].
    destruct Hc as (Hy & sy & Hsy & Hpy & Hc). split; [done|].
    split; [done|]. exists (set_prev p sy).
    assert (y ≠ p) by (intros ->; apply Hp; in_list).
    split; [|split].
    + rewrite Hnx, Hsy; [by rewrite Hpa|congruence|done].
    + apply prev_set_prev.
    + rewrite next_set_prev. eapply dchain_frame; [|exact Hc].
      intros z Hz. apply Hot.
      * rewrite Hpa. intros ->. apply Hp. in_list.
      * rewrite Hy. intros ->. by inversion Hnd.
  - simpl in Hc. destruct Hc as (-> & sx & Hsx & Hpx & Hc).
    pose proof (dchain_NoDup _ _ _ _ Hc) as Hnd.
    assert (0 < x) as Hx0 by (pose proof (peek_Some_range _ _ _ Hsx); lia).
    assert (Hxn : x ∉ l1 ++ A :: l2).
    { intros Hx.
      assert (Hc' : dchain prev next tbl p x (x :: l1 ++ A :: l2)).
      { simpl. eauto 6. }
      apply dchain_NoDup in Hc'. by inversion Hc'. }
    destruct (IH l2 x (next sx) Hxn Hc Ha Hpr Hnx Hot) as (E1 & E2 & Hc').
    assert (Hnx' : x ≠ next a).
    { rewrite E2. destruct l2 as [|y l2]; simpl; [lia|].
      intros ->. apply Hxn. in_list. }
    split; [|split; [done|]].
    { rewrite last_cons. rewrite E1. by destruct (last l1). }
    simpl. split; [done|].
    destruct l1 as [|x' l1].
    + simpl in *. exists (set_next (next a) sx). split; [|split].
      * rewrite (Hpr x), Hsx; [done|lia|done].
      * by rewrite prev_set_next.
      * by rewrite next_set_next.
    + exists sx. split; [|split; [done|exact Hc']].
      rewrite Hot; [done| |done].
      rewrite E1. simpl. rewrite last_cons.
      intros Hx. apply Hxn.
      destruct (last l1) as [w|] eqn:E; simpl in Hx.
      * apply last_Some in E as [l' ->]. in_list.
      * in_list.
Qed.

End dchains.

Section dchain_mid.
Context {T : Type} (prev next : T → Z).

Lemma dchain_mid (tbl : Table T) A a : ∀ l1 l2 p h,
  dchain prev next tbl p h (l1 ++ A :: l2) →
  peek tbl A = Some a →
  prev a = default p (last l1) ∧ next a = hd 0 l2.
Proof.
  induction l1 as [|x l1 IH]; intros l2 p h Hc Ha; simpl in Hc.
  - destruct Hc as (-> & a' & Ha' & Hpa & Hc).
    assert (a' = a) as -> by congruence. split; [done|].
    destruct l2; simpl in *; [done|]. by destruct Hc.
  - destruct Hc as (-> & sx & Hsx & Hpx & Hc).
    destruct (IH l2 x (next sx) Hc Ha) as [E1 E2]. split; [|done].
    rewrite last_cons, E1. by destruct (last l1).
Qed.

End dchain_mid.

Lemma last_default_in (l : list Z) p :
  (l = [] ∧ default p (last l) = p) ∨ default p (last l) ∈ l.
Proof.
  destruct (last l) as [w|] eqn:E; simpl.
  - right. apply last_Some in E as [l' ->]. in_list.
  - left. by apply last_None in E.
Qed.

Lemma hd_default_in (l : list Z) :
  (l = [] ∧ hd 0 l = 0) ∨ hd 0 l ∈ l.
Proof. destruct l; simpl; [by left|right; in_list]. Qed.

Lemma links_only_keep PN PA rg rg' :
  links_only rg rg' →
  nodes_keep PN rg rg' → arcs_keep PA rg rg' →
  graph_keep PN PA (λ _ x x', x' = x) rg rg'.
Proof.
  intros (? & ? & Hl & (_ & _ & _ & ?) & (_ & _ & _ & ?)) HN HA.
  repeat split; try done. rewrite Hl. done.
  intros j x Hx. exists x. split; [|done].
  unfold vtkReebGraphGetLabel in *. by rewrite Hl.
Qed.

Lemma AddArcTo_unfold s rg N A :
  AddArcTo s rg N A
  = (rg ← pokeArc rg A (set_side_prev s 0);
     n ← vtkReebGraphGetNode rg N;
     rg ← pokeArc rg A (set_side_next s (side_head s n));
     n ← vtkReebGraphGetNode rg N;
     rg ← (if decide (side_head s n ≠ 0)
           then pokeArc rg (side_head s n) (set_side_prev s A) else Some rg);
     pokeNode rg N (set_side_head s A)).
Proof. by destruct s. Qed.

Lemma RemoveArcFrom_unfold s rg N A :
  RemoveArcFrom s rg N A
  = (a ← vtkReebGraphGetArc rg A;
     rg ← (if decide (side_prev s a ≠ 0)
           then pokeArc rg (side_prev s a) (set_side_next s (side_next s a))
           else pokeNode rg N (set_side_head s (side_next s a)));
     a ← vtkReebGraphGetArc rg A;
     if decide (side_next s a ≠ 0)
     then pokeArc rg (side_next s a) (set_side_prev s (side_prev s a))
     else Some rg).
Proof. by destruct s. Qed.

Lemma side_degree_unfold s rg N :
  side_degree s rg N
  = (n ← vtkReebGraphGetNode rg N;
     degree_loop (side_next s) (length (Buffer (MainArcTable rg))) rg
                 (to_int (side_head s n)) 0).
Proof. by destruct s. Qed.

(** The slots after [AddArcTo]. *)
Lemma AddArcTo_spec s rg N A n a :
  vtkReebGraphGetNode rg N = Some n →
  vtkReebGraphGetArc rg A = Some a →
  side_head s n ≠ A →
  (side_head s n ≠ 0 → is_Some (vtkReebGraphGetArc rg (side_head s n))) →
  ∃ rg', AddArcTo s rg N A = Some rg'
    ∧ links_only rg rg'
    ∧ (∀ j, vtkReebGraphGetNode rg' j
            = if decide (j = N) then Some (set_side_head s A n)
              else vtkReebGraphGetNode rg j)
    ∧ (∀ j, vtkReebGraphGetArc rg' j
            = if decide (j = A)
              then Some (set_side_next s (side_head s n)
                                       (set_side_prev s 0 a))
              else if decide (j = side_head s n)
              then set_side_prev s A <$> vtkReebGraphGetArc rg j
              else vtkReebGraphGetArc rg j).
Proof.
  intros Hn Ha Hne Hh. rewrite AddArcTo_unfold.
  destruct (pokeArc_pt rg A (set_side_prev s 0) a Ha)
    as (rg1 & -> & L1 & N1 & A1). simpl.
  rewrite N1, Hn. simpl.
  assert (Ha1 : vtkReebGraphGetArc rg1 A = Some (set_side_prev s 0 a)).
  { by rewrite A1, decide_True, Ha. }
  destruct (pokeArc_pt rg1 A (set_side_next s (side_head s n)) _ Ha1)
    as (rg2 & -> & L2 & N2 & A2). simpl.
  rewrite N2, N1, Hn. simpl.
  destruct (pokeArc_if_pt rg2 (side_head s n) (set_side_prev s A))
    as (rg3 & -> & L3 & N3 & A3).
  { intros Hd. destruct (Hh Hd) as [x Hx].
    rewrite A2, decide_False, A1, decide_False, Hx by done. eauto. }
  simpl.
  destruct (pokeNode_pt rg3 N (set_side_head s A) n)
    as (rg4 & -> & L4 & A4 & N4).
  { by rewrite N3, N2, N1. }
  exists rg4. split; [done|]. split.
  { eauto using links_only_trans. }
  split.
  - intros j. rewrite N4, N3, N2, N1. case_decide; [subst j|done].
    by rewrite Hn.
  - intros j. rewrite A4, A3, A2, A1.
    destruct (decide (j = A)) as [->|HjA].
    + rewrite decide_False by done. by rewrite Ha.
    + done.
Qed.

(** The slots after [RemoveArcFrom]. *)
Lemma RemoveArcFrom_spec s rg N A a :
  vtkReebGraphGetArc rg A = Some a →
  side_prev s a ≠ A →
  (side_prev s a ≠ 0 → is_Some (vtkReebGraphGetArc rg (side_prev s a))) →
  (side_prev s a = 0 → is_Some (vtkReebGraphGetNode rg N)) →
  (side_next s a ≠ 0 → is_Some (vtkReebGraphGetArc rg (side_next s a))) →
  (side_next s a ≠ 0 → side_next s a ≠ side_prev s a) →
  ∃ rg', RemoveArcFrom s rg N A = Some rg'
    ∧ links_only rg rg'
    ∧ (∀ j, vtkReebGraphGetNode rg' j
            = if decide (j = N ∧ side_prev s a = 0)
              then set_side_head s (side_next s a)
                   <$> vtkReebGraphGetNode rg j
              else vtkReebGraphGetNode rg j)
    ∧ (∀ j, vtkReebGraphGetArc rg' j
            = if decide (j = side_prev s a)
              then set_side_next s (side_next s a)
                   <$> vtkReebGraphGetArc rg j
              else if decide (j = side_next s a)
              then set_side_prev s (side_prev s a)
                   <$> vtkReebGraphGetArc rg j
              else vtkReebGraphGetArc rg j).
Proof.
  intros Ha HpA Hp Hn Hx Hne. rewrite RemoveArcFrom_unfold, Ha. simpl.
  assert (∃ rg1,
    (if decide (side_prev s a ≠ 0)
     then pokeArc rg (side_prev s a) (set_side_next s (side_next s a))
     else pokeNode rg N (set_side_head s (side_next s a))) = Some rg1
    ∧ links_only rg rg1
    ∧ (∀ j, vtkReebGraphGetNode rg1 j
            = if decide (j = N ∧ side_prev s a = 0)
              then set_side_head s (side_next s a)
                   <$> vtkReebGraphGetNode rg j
              else vtkReebGraphGetNode rg j)
    ∧ (∀ j, vtkReebGraphGetArc rg1 j
            = if decide (j = side_prev s a)
              then set_side_next s (side_next s a)
                   <$> vtkReebGraphGetArc rg j
              else vtkReebGraphGetArc rg j))
    as (rg1 & -> & L1 & N1 & A1).
  { destruct (decide (side_prev s a ≠ 0)) as [Hd|Hd].
    - destruct (Hp Hd) as [x Hx'].
      destruct (pokeArc_pt rg _ (set_side_next s (side_next s a)) x Hx')
        as (rg1 & -> & L & Nn & Aa).
      exists rg1. split; [done|]. split; [done|]. split; [|done].
      intros j. rewrite Nn. rewrite decide_False; [done|]. tauto.
    - assert (E0 : side_prev s a = 0) by lia.
      destruct (Hn E0) as [x Hx'].
      destruct (pokeNode_pt rg N (set_side_head s (side_next s a)) x Hx')
        as (rg1 & -> & L & Aa & Nn).
      exists rg1. split; [done|]. split; [done|]. split.
      + intros j. rewrite Nn.
        destruct (decide (j = N)) as [->|Hj].
        * by rewrite decide_True.
        * rewrite decide_False; [done|]. tauto.
      + intros j. rewrite Aa. case_decide as Hj; [|done]. subst j.
        rewrite E0. unfold vtkReebGraphGetArc. by rewrite peek_null. }
  simpl. rewrite A1, decide_False, Ha by congruence. simpl.
  destruct (pokeArc_if_pt rg1 (side_next s a)
              (set_side_prev s (side_prev s a)))
    as (rg2 & -> & L2 & N2 & A2).
  { intros Hd. rewrite A1, decide_False by auto. auto. }
  exists rg2. split; [done|]. split; [by eapply links_only_trans|]. split.
  - intros j. by rewrite N2, N1.
  - intros j. rewrite A2, A1.
    destruct (decide (j = side_next s a)) as [E|E];
      destruct (decide (j = side_prev s a)) as [E'|E']; try done.
    assert (j = 0) as ->.
    { destruct (decide (side_next s a = 0)) as [?|Hd]; [congruence|].
      destruct (Hne Hd). congruence. }
    unfold vtkReebGraphGetArc. by rewrite peek_null.
Qed.

Lemma arc_list_slots s rg N l x :
  arc_list s rg N l → x ∈ l →
  0 < x ∧ is_Some (vtkReebGraphGetArc rg x).
Proof.
  intros (n & _ & Hc) Hx. apply dchain_chain in Hc. split.
  - by destruct (chain_range _ _ _ _ _ Hc Hx).
  - by eapply chain_peek.
Qed.

Lemma arc_list_head s rg N l n :
  arc_list s rg N l → vtkReebGraphGetNode rg N = Some n →
  side_head s n = hd 0 l.
Proof.
  intros (n' & Hn' & Hc) Hn. assert (n' = n) as -> by congruence.
  destruct l; simpl in *; [done|]. by destruct Hc.
Qed.

Lemma side_degree_list s rg N l :
  table_ok (MainArcTable rg) → arc_list s rg N l →
  side_degree s rg N = Some (Z.of_nat (length l)).
Proof.
  intros Hok (n & Hn & Hc). rewrite side_degree_unfold, Hn. simpl.
  apply degree_of_chain; [done|]. by eapply dchain_chain.
Qed.

(** [AddArcTo] on a well-formed list. *)
Lemma AddArcTo_list s rg N A n a l :
  vtkReebGraphGetNode rg N = Some n →
  vtkReebGraphGetArc rg A = Some a →
  arc_list s rg N l → A ∉ l →
  ∃ rg', AddArcTo s rg N A = Some rg'
    ∧ links_only rg rg'
    ∧ (∀ j, vtkReebGraphGetNode rg' j
            = if decide (j = N) then Some (set_side_head s A n)
              else vtkReebGraphGetNode rg j)
    ∧ (∀ j, vtkReebGraphGetArc rg' j
            = if decide (j = A)
              then Some (set_side_next s (hd 0 l) (set_side_prev s 0 a))
              else if decide (j = hd 0 l)
              then set_side_prev s A <$> vtkReebGraphGetArc rg j
              else vtkReebGraphGetArc rg j)
    ∧ arc_list s rg' N (A :: l).
Proof.
  intros Hn Ha Hl HA.
  pose proof (arc_list_head _ _ _ _ _ Hl Hn) as Hh.
  assert (HA0 : 0 < A).
  { unfold vtkReebGraphGetArc in Ha. apply peek_Some_range in Ha. lia. }
  destruct (AddArcTo_spec s rg N A n a Hn Ha) as (rg' & E & L & HN & HAr).
  { rewrite Hh. destruct (hd_default_in l) as [[_ ->]|Hin]; [lia|].
    intros EA. by rewrite EA in Hin. }
  { rewrite Hh. intros Hd.
    destruct (hd_default_in l) as [[_ ?]|Hin]; [done|].
    by destruct (arc_list_slots _ _ _ _ _ Hl Hin). }
  rewrite Hh in HAr.
  exists rg'. split; [done|]. split; [done|]. split; [done|].
  split; [done|].
  exists (set_side_head s A n). split.
  { by rewrite HN, decide_True. }
  side_simpl. simpl. split; [done|].
  exists (set_side_next s (hd 0 l) (set_side_prev s 0 a)). split.
  { unfold vtkReebGraphGetArc in HAr. by rewrite HAr, decide_True. }
  side_simpl. split; [done|].
  destruct Hl as (n' & Hn' & Hc). assert (n' = n) as -> by congruence.
  pose proof (dchain_NoDup _ _ _ _ _ _ Hc) as Hnd.
  destruct l as [|x l]; simpl in *; [done|].
  destruct Hc as (Hx & sx & Hsx & Hpx & Hc). split; [done|].
  exists (set_side_prev s A sx).
  assert (x ≠ A) by (intros ->; apply HA; in_list).
  split; [|split].
  - unfold vtkReebGraphGetArc in HAr.
    by rewrite HAr, decide_False, decide_True, Hsx.
  - by side_simpl.
  - side_simpl. eapply dchain_frame; [|exact Hc].
    intros z Hz. unfold vtkReebGraphGetArc in HAr.
    rewrite HAr, !decide_False; [done| |].
    + intros ->. by inversion Hnd.
    + intros ->. apply HA. in_list.
Qed.

(** [RemoveArcFrom] on a well-formed list. *)
Lemma RemoveArcFrom_list s rg N A l1 l2 :
  arc_list s rg N (l1 ++ A :: l2) →
  ∃ a rg', vtkReebGraphGetArc rg A = Some a
    ∧ side_prev s a = default 0 (last l1)
    ∧ side_next s a = hd 0 l2
    ∧ RemoveArcFrom s rg N A = Some rg'
    ∧ links_only rg rg'
    ∧ (∀ j, vtkReebGraphGetNode rg' j
            = if decide (j = N ∧ l1 = [])
              then set_side_head s (hd 0 l2) <$> vtkReebGraphGetNode rg j
              else vtkReebGraphGetNode rg j)
    ∧ (∀ j, vtkReebGraphGetArc rg' j
            = if decide (j = default 0 (last l1))
              then set_side_next s (hd 0 l2) <$> vtkReebGraphGetArc rg j
              else if decide (j = hd 0 l2)
              then set_side_prev s (default 0 (last l1))
                   <$> vtkReebGraphGetArc rg j
              else vtkReebGraphGetArc rg j)
    ∧ arc_list s rg' N (l1 ++ l2).
Proof.
  intros Hl. pose proof Hl as (n & Hn & Hc).
  pose proof (dchain_NoDup _ _ _ _ _ _ Hc) as Hnd.
  assert (Hin : ∀ x, x ∈ l1 ++ A :: l2
                → 0 < x ∧ is_Some (vtkReebGraphGetArc rg x)).
  { intros x. by apply arc_list_slots with (s := s) (N := N). }
  destruct (Hin A) as [HA0 [a Ha]]; [in_list|].
  destruct (dchain_mid _ _ _ _ _ _ _ _ _ Hc Ha) as [E1 E2].
  apply NoDup_app in Hnd as (Hnd1 & Hd12 & Hnd2).
  apply NoDup_cons in Hnd2 as [HA2 Hnd2].
  assert (Hp : default 0 (last l1) = 0 ∧ l1 = []
               ∨ default 0 (last l1) ∈ l1).
  { destruct (last_default_in l1 0) as [[? ?]|?]; auto. }
  assert (Hx : hd 0 l2 = 0 ∨ hd 0 l2 ∈ l2).
  { destruct (hd_default_in l2) as [[? ?]|?]; auto. }
  assert (Hp0 : default 0 (last l1) = 0 ↔ l1 = []).
  { split; [|by intros ->].
    intros E. destruct Hp as [[_ ?]|Hp]; [done|].
    rewrite E in Hp. destruct (Hin 0); [in_list|lia]. }
  destruct (RemoveArcFrom_spec s rg N A a Ha)
    as (rg' & E & L & HN & HAr).
  { rewrite E1. destruct Hp as [[-> _]|Hp]; [lia|].
    intros EA. rewrite EA in Hp. apply (Hd12 A Hp). in_list. }
  { rewrite E1. intros Hd. destruct Hp as [[? _]|Hp]; [done|].
    apply Hin. in_list. }
  { eauto. }
  { rewrite E2. intros Hd. destruct Hx as [?|Hx]; [done|].
    apply Hin. in_list. }
  { rewrite E1, E2. intros Hd. destruct Hx as [?|Hx]; [done|].
    destruct Hp as [[-> _]|Hp]; [done|].
    intros EA. rewrite EA in Hx. apply (Hd12 _ Hp). in_list. }
  rewrite E1, E2 in HN, HAr.
  exists a, rg'. do 5 (split; [done|]). split.
  { intros j. rewrite HN.
    destruct (decide (j = N ∧ l1 = [])) as [[-> ->]|Hj].
    - by rewrite decide_True.
    - rewrite decide_False; [done|]. rewrite Hp0. done. }
  split; [done|].
  destruct (dchain_remove (side_prev s) (side_next s)
              (set_side_prev s) (set_side_next s)
              (side_prev_set_prev s) (side_next_set_prev s)
              (side_prev_set_next s) (side_next_set_next s)
              (MainArcTable rg) (MainArcTable rg') A a l1 l2 0
              (side_head s n)) as (_ & _ & Hc'); try done.
  - intros H0. destruct (Hin 0 H0). lia.
  - intros j _ ->. unfold vtkReebGraphGetArc in HAr.
    by rewrite E1, E2, HAr, decide_True.
  - intros j Hj ->. unfold vtkReebGraphGetArc in HAr.
    rewrite E1, E2 in Hj.
    rewrite E1, E2, HAr, decide_False, decide_True; done.
  - intros j Hj Hj'. unfold vtkReebGraphGetArc in HAr.
    rewrite E1 in Hj. rewrite E2 in Hj'.
    rewrite HAr, !decide_False; done.
  - destruct l1 as [|x l1].
    + exists (set_side_head s (hd 0 l2) n). split.
      * by rewrite HN, decide_True, Hn.
      * side_simpl. by rewrite <- E2.
    + exists n. split; [|done].
      rewrite HN, decide_False; [done|].
      intros [_ E0%Hp0]. done.
Qed.

(** X10. Adding an arc prepends it. If the up list (respectively down list)
    of node [N] is the well-formed doubly linked list [l], and [A] is an arc
    slot not on it, then [vtkReebGraphAddUpArc] (respectively
    [vtkReebGraphAddDownArc]) succeeds and the list of [N] becomes
    [A :: l]. No label changes; no node other than [N] and no arc other
    than [A] and the old head changes; and only the head field of the node
    and the two link fields of that side of an arc are written. *)
Theorem AddArcTo_prepends (s : Side) (rg : vtkReebGraph) (N A : Z)
    (l : list Z) :
  arc_list s rg N l →
  is_Some (vtkReebGraphGetArc rg A) →
  A ∉ l →
  ∃ rg', AddArcTo s rg N A = Some rg'
    ∧ arc_list s rg' N (A :: l)
    ∧ graph_keep (side_node_rel s N) (side_arc_rel s [A; hd 0 l])
                 (λ _ x x', x' = x) rg rg'.
Proof.
  intros Hl [a Ha] HA. pose proof Hl as (n & Hn & _).
  destruct (AddArcTo_list s rg N A n a l Hn Ha Hl HA)
    as (rg' & E & L & HN & HAr & Hl').
  exists rg'. split; [done|]. split; [done|].
  apply links_only_keep; [done| |].
  - intros j x Hx. rewrite HN. case_decide as Hj.
    + subst j. assert (x = n) as -> by congruence. eexists. split; [done|].
      split; [by side_simpl|done].
    + exists x. by repeat split.
  - intros j x Hx. rewrite HAr, Hx. unfold side_arc_rel.
    repeat case_decide; subst; simpl; eexists; (split; [done|]);
      rewrite ?Ha in Hx; simplify_eq; side_simpl;
      (split; [done|]); try done; intros []; in_list.
Qed.

(** X11. Removing an arc unlinks it. If the up list (respectively down
    list) of node [N] is [l1 ++ A :: l2], then [vtkReebGraphRemoveUpArc]
    (respectively [vtkReebGraphRemoveDownArc]) succeeds and the list of [N]
    becomes [l1 ++ l2]. The slot of [A] itself is not written (it keeps its
    stale links), no label changes, and only the head field of [N] and the
    link fields of the two neighbours of [A] are written. *)
Theorem RemoveArcFrom_unlinks (s : Side) (rg : vtkReebGraph) (N A : Z)
    (l1 l2 : list Z) :
  arc_list s rg N (l1 ++ A :: l2) →
  ∃ rg', RemoveArcFrom s rg N A = Some rg'
    ∧ arc_list s rg' N (l1 ++ l2)
    ∧ vtkReebGraphGetArc rg' A = vtkReebGraphGetArc rg A
    ∧ graph_keep (side_node_rel s N) (side_arc_rel s (l1 ++ l2))
                 (λ _ x x', x' = x) rg rg'.
Proof.
  intros Hl.
  destruct (RemoveArcFrom_list s rg N A l1 l2 Hl)
    as (a & rg' & Ha & E1 & E2 & E & L & HN & HAr & Hl').
  pose proof Hl as (n & Hn & Hc).
  pose proof (dchain_NoDup _ _ _ _ _ _ Hc) as Hnd.
  apply NoDup_app in Hnd as (Hnd1 & Hd12 & Hnd2).
  apply NoDup_cons in Hnd2 as [HA2 Hnd2].
  assert (HA0 : 0 < A).
  { unfold vtkReebGraphGetArc in Ha. apply peek_Some_range in Ha. lia. }
  exists rg'. split; [done|]. split; [done|]. split.
  { rewrite HAr, !decide_False; [done| |].
    - destruct (hd_default_in l2) as [[_ ->]|Hin]; [lia|].
      intros EA. by rewrite <- EA in Hin.
    - destruct (last_default_in l1 0) as [[_ ->]|Hin]; [lia|].
      intros EA. rewrite <- EA in Hin. apply (Hd12 A Hin). in_list. }
  apply links_only_keep; [done| |].
  - intros j x Hx. rewrite HN, Hx. case_decide as Hj; simpl.
    + eexists. split; [done|]. split; [by side_simpl|].
      by destruct Hj.
    + exists x. by repeat split.
  - intros j x Hx. rewrite HAr, Hx.
    assert (Hj0 : 0 < j).
    { unfold vtkReebGraphGetArc in Hx. apply peek_Some_range in Hx. lia. }
    unfold side_arc_rel.
    repeat case_decide; subst; simpl; eexists; (split; [done|]);
      side_simpl; (split; [done|]); try done; intros Hni; destruct Hni.
    + destruct (last_default_in l1 0) as [[_ E0]|Hin];
        [rewrite E0 in Hj0; lia|in_list].
    + destruct (hd_default_in l2) as [[_ E0]|Hin];
        [rewrite E0 in Hj0; lia|in_list].
Qed.

(** X12. Adding an arc raises the degree by one. With a well-formed arc
    table and list, the degree macro of that side ([vtkReebGraphGetUpDegree]
    or [vtkReebGraphGetDownDegree]) returns the length of the list before
    the addition, and one more after it. *)
Theorem AddArcTo_raises_degree (s : Side) (rg rg' : vtkReebGraph) (N A : Z)
    (l : list Z) :
  table_ok (MainArcTable rg) →
  arc_list s rg N l →
  is_Some (vtkReebGraphGetArc rg A) →
  A ∉ l →
  AddArcTo s rg N A = Some rg' →
  side_degree s rg N = Some (Z.of_nat (length l))
  ∧ side_degree s rg' N = Some (Z.of_nat (length l) + 1).
Proof.
  intros Hok Hl [a Ha] HA E. pose proof Hl as (n & Hn & _).
  destruct (AddArcTo_list s rg N A n a l Hn Ha Hl HA)
    as (rg1 & E1 & L & _ & _ & Hl').
  assert (rg1 = rg') as -> by congruence.
  split; [by apply side_degree_list|].
  rewrite (side_degree_list s rg' N (A :: l)); [|by eapply links_only_table_ok|done].
  f_equal. simpl length. lia.
Qed.

(** X13. Removing an arc lowers the degree by one. With a well-formed arc
    table, if the list of [N] on that side contains [A], the degree macro
    returns one less after the removal than before it. *)
Theorem RemoveArcFrom_lowers_degree (s : Side) (rg rg' : vtkReebGraph)
    (N A : Z) (l1 l2 : list Z) :
  table_ok (MainArcTable rg) →
  arc_list s rg N (l1 ++ A :: l2) →
  RemoveArcFrom s rg N A = Some rg' →
  ∃ d, side_degree s rg N = Some d ∧ side_degree s rg' N = Some (d - 1).
Proof.
  intros Hok Hl E.
  destruct (RemoveArcFrom_list s rg N A l1 l2 Hl)
    as (a & rg1 & _ & _ & _ & E1 & L & _ & _ & Hl').
  assert (rg1 = rg') as -> by congruence.
  exists (Z.of_nat (length (l1 ++ A :: l2))).
  split; [by apply side_degree_list|].
  rewrite (side_degree_list s rg' N (l1 ++ l2));
    [|by eapply links_only_table_ok|done].
  f_equal. rewrite !length_app. simpl length. lia.
Qed.

(** X14. Adding an arc and removing it again restores the graph. After
    [AddArcTo] followed by [RemoveArcFrom] of the same arc on the same node,
    every node slot and every arc slot other than [A] holds what it held
    before, the list of [N] is [l] again, and the slot of [A] differs from
    its old contents only in its two link fields, which keep what the
    addition wrote (no previous arc, the old head as next arc). *)
Theorem AddArcTo_then_RemoveArcFrom (s : Side) (rg : vtkReebGraph) (N A : Z)
    (a : vtkReebArc) (l : list Z) :
  arc_list s rg N l →
  vtkReebGraphGetArc rg A = Some a →
  A ∉ l →
  ∃ rg1 rg2, AddArcTo s rg N A = Some rg1
    ∧ RemoveArcFrom s rg1 N A = Some rg2
    ∧ links_only rg rg2
    ∧ arc_list s rg2 N l
    ∧ (∀ j, vtkReebGraphGetNode rg2 j = vtkReebGraphGetNode rg j)
    ∧ (∀ j, j ≠ A → vtkReebGraphGetArc rg2 j = vtkReebGraphGetArc rg j)
    ∧ vtkReebGraphGetArc rg2 A
      = Some (set_side_next s (hd 0 l) (set_side_prev s 0 a)).
Proof.
  intros Hl Ha HA. pose proof Hl as (n & Hn & Hc).
  pose proof (arc_list_head _ _ _ _ _ Hl Hn) as Hh.
  destruct (AddArcTo_list s rg N A n a l Hn Ha Hl HA)
    as (rg1 & E1 & L1 & HN1 & HA1 & Hl1).
  destruct (RemoveArcFrom_list s rg1 N A [] l Hl1)
    as (a1 & rg2 & Ha1 & _ & _ & E2 & L2 & HN2 & HA2 & Hl2).
  simpl in *.
  assert (HA0 : 0 < A).
  { unfold vtkReebGraphGetArc in Ha. apply peek_Some_range in Ha. lia. }
  assert (Hnull : vtkReebGraphGetArc rg 0 = None) by apply peek_null.
  exists rg1, rg2. split; [done|]. split; [done|].
  split; [by eapply links_only_trans|]. split; [done|]. split; [|split].
  - intros j. rewrite HN2, HN1.
    destruct (decide (j = N)) as [->|Hj].
    + rewrite decide_True by done. simpl. side_simpl.
      by rewrite <- Hh, set_side_head_id.
    + rewrite decide_False; [done|]. tauto.
  - intros j Hj. rewrite HA2, !HA1.
    rewrite (decide_False (P := j = A)) by done.
    destruct (decide (j = 0)) as [->|Hj0].
    { rewrite Hnull. by case_decide. }
    destruct (decide (j = hd 0 l)) as [Hjh|Hjh]; [|done].
    destruct l as [|x l]; simpl in *; [done|]. subst j.
    destruct Hc as (_ & sx & Hsx & Hpx & _).
    unfold vtkReebGraphGetArc. rewrite Hsx. simpl. side_simpl.
    by rewrite <- Hpx, set_side_prev_id.
  - rewrite HA2, !HA1. rewrite decide_False by lia.
    rewrite (decide_True (P := A = A)) by done.
    rewrite decide_False; [done|].
    destruct (hd_default_in l) as [[_ ->]|Hin]; [lia|].
    intros EA. by rewrite <- EA in Hin.
Qed.

(** ** Vertex collapse and the arc lists *)

Lemma pokeArc_inv rg i f rg' :
  pokeArc rg i f = Some rg' →
  links_only rg rg'
  ∧ (∀ j, vtkReebGraphGetNode rg' j = vtkReebGraphGetNode rg j)
  ∧ ∀ j, vtkReebGraphGetArc rg' j
         = if decide (j = i) then f <$> vtkReebGraphGetArc rg j
           else vtkReebGraphGetArc rg j.
Proof.
  intros H. assert (is_Some (vtkReebGraphGetArc rg i)) as [x Hx].
  { unfold pokeArc, poke, vtkReebGraphGetArc in *.
    destruct (peek (MainArcTable rg) i); [by eexists|done]. }
  destruct (pokeArc_pt rg i f x Hx) as (rg'' & E & ?).
  rewrite H in E. by injection E as <-.
Qed.

Lemma pokeArc_if_inv rg (c : Z) f rg' :
  (if decide (c ≠ 0) then pokeArc rg c f else Some rg) = Some rg' →
  links_only rg rg'
  ∧ (∀ j, vtkReebGraphGetNode rg' j = vtkReebGraphGetNode rg j)
  ∧ ∀ j, vtkReebGraphGetArc rg' j
         = if decide (j = c) then f <$> vtkReebGraphGetArc rg j
           else vtkReebGraphGetArc rg j.
Proof.
  intros H. destruct (decide (c ≠ 0)) as [Hd|Hd].
  - by apply pokeArc_inv.
  - injection H as <-. split; [apply links_only_refl|]. split; [done|].
    intros j. case_decide as Hj; [|done]. subst j. replace c with 0 by lia.
    unfold vtkReebGraphGetArc. by rewrite peek_null.
Qed.

Lemma pokeNode_inv rg i f rg' :
  pokeNode rg i f = Some rg' →
  links_only rg rg'
  ∧ (∀ j, vtkReebGraphGetArc rg' j = vtkReebGraphGetArc rg j)
  ∧ ∀ j, vtkReebGraphGetNode rg' j
         = if decide (j = i) then f <$> vtkReebGraphGetNode rg j
           else vtkReebGraphGetNode rg j.
Proof.
  intros H. assert (is_Some (vtkReebGraphGetNode rg i)) as [x Hx].
  { unfold pokeNode, poke, vtkReebGraphGetNode in *.
    destruct (peek (MainNodeTable rg) i); [by eexists|done]. }
  destruct (pokeNode_pt rg i f x Hx) as (rg'' & E & ?).
  rewrite H in E. by injection E as <-.
Qed.

Section dchain_ext.
Context {T : Type} (prev next : T → Z).
Implicit Types (tbl : Table T).

(** A list depends on the links of its own slots only. *)
Lemma dchain_ext tbl tbl' p h l :
  (∀ x s, x ∈ l → peek tbl x = Some s →
     ∃ s', peek tbl' x = Some s' ∧ prev s' = prev s ∧ next s' = next s) →
  dchain prev next tbl p h l → dchain prev next tbl' p h l.
Proof.
  revert p h. induction l as [|y l IH]; simpl; intros p h Hf Hc; [done|].
  destruct Hc as (-> & s & Hs & Hp & Hc). split; [done|].
  destruct (Hf y s) as (s' & Hs' & E1 & E2); [in_list|done|].
  exists s'. split; [done|]. split; [congruence|]. rewrite E2.
  apply IH; [|done]. intros x sx Hx. apply Hf. in_list.
Qed.

(** Putting [A0] in the place of [A1]. *)
Lemma dchain_replace tbl tbl' A0 A1 a1 : ∀ l1 l2 p h,
  p ∉ l1 ++ A1 :: l2 →
  A0 ∉ l1 ++ A1 :: l2 →
  dchain prev next tbl p h (l1 ++ A1 :: l2) →
  peek tbl A1 = Some a1 →
  (∃ s0, peek tbl' A0 = Some s0 ∧ prev s0 = prev a1 ∧ next s0 = next a1) →
  (∀ s, prev a1 ≠ 0 → peek tbl (prev a1) = Some s →
     ∃ s', peek tbl' (prev a1) = Some s'
       ∧ prev s' = prev s ∧ next s' = A0) →
  (∀ s, next a1 ≠ 0 → peek tbl (next a1) = Some s →
     ∃ s', peek tbl' (next a1) = Some s'
       ∧ prev s' = A0 ∧ next s' = next s) →
  (∀ j s, j ≠ A0 → j ≠ A1 → j ≠ prev a1 → j ≠ next a1 →
     peek tbl j = Some s →
     ∃ s', peek tbl' j = Some s' ∧ prev s' = prev s ∧ next s' = next s) →
  dchain prev next tbl' p (if l1 is [] then A0 else h) (l1 ++ A0 :: l2).
Proof.
  induction l1 as [|x l1 IH]; intros l2 p h Hp H0 Hc Ha (s0 & Hs0 & P0 & N0)
    Hpr Hnx Hot.
  - pose proof (dchain_NoDup _ _ _ _ _ _ Hc) as Hnd. simpl in *.
    apply NoDup_cons in Hnd as [HA1 Hnd].
    destruct Hc as (-> & a' & Ha' & Hpa & Hc).
    assert (a' = a1) as -> by congruence.
    split; [done|]. exists s0. split; [done|]. split; [congruence|].
    rewrite N0. destruct l2 as [|y l2]; simpl in *; [done|].
    destruct Hc as (Hy & sy & Hsy & Hpy & Hc). split; [done|].
    assert (0 < y) by (pose proof (peek_Some_range _ _ _ Hsy); lia).
    destruct (Hnx sy) as (sy' & Hsy' & E1 & E2); [lia|by rewrite Hy|].
    rewrite Hy in Hsy'. exists sy'. split; [done|]. split; [done|].
    rewrite E2. eapply dchain_ext; [|exact Hc].
    intros z sz Hz Hsz. apply Hot; [| | | |done].
    + intros ->. apply H0. in_list.
    + intros ->. apply HA1. in_list.
    + rewrite Hpa. intros ->. apply Hp. in_list.
    + rewrite Hy. intros ->. by apply NoDup_cons in Hnd as [Hn _].
  - simpl in Hc. destruct Hc as (-> & sx & Hsx & Hpx & Hc).
    assert (0 < x) as Hx0 by (pose proof (peek_Some_range _ _ _ Hsx); lia).
    assert (Hxn : x ∉ l1 ++ A1 :: l2).
    { intros Hx.
      assert (Hc' : dchain prev next tbl p x (x :: l1 ++ A1 :: l2)).
      { simpl. eauto 6. }
      apply dchain_NoDup in Hc'. by apply NoDup_cons in Hc' as [? _]. }
    assert (H0' : A0 ∉ l1 ++ A1 :: l2).
    { intros Hx. apply H0. simpl. in_list. }
    pose proof (IH l2 x (next sx) Hxn H0' Hc Ha
                  (ex_intro _ s0 (conj Hs0 (conj P0 N0))) Hpr Hnx Hot)
      as Hc'.
    destruct (dchain_mid prev next tbl A1 a1 l1 l2 x (next sx) Hc Ha)
      as [E1 E2].
    simpl. split; [done|].
    destruct l1 as [|x' l1].
    + simpl in *.
      destruct (Hpr sx) as (sx' & Hsx' & E3 & E4); [lia|by rewrite E1|].
      rewrite E1 in Hsx'. exists sx'. split; [done|]. split; [congruence|].
      by rewrite E4.
    + destruct (Hot x sx) as (sx' & Hsx' & E3 & E4); [| | | |done|].
      * intros ->. apply H0. in_list.
      * intros ->. apply Hxn. in_list.
      * rewrite E1.
        destruct (last_default_in (x' :: l1) x) as [[? _]|Hin]; [done|].
        intros EA. rewrite <- EA in Hin. apply Hxn. in_list.
      * rewrite E2. destruct (hd_default_in l2) as [[_ ->]|Hin]; [lia|].
        intros EA. rewrite <- EA in Hin. apply Hxn. in_list.
      * exists sx'. split; [done|]. split; [congruence|]. by rewrite E4.
Qed.

End dchain_ext.

Ltac keep_solve := intros; simpl in *; intuition congruence.

(** X15. A vertex collapse leaves the up lists alone. For every node [M]
    other than the collapsed one, the up list of [M] after a collapse that
    returns is the list it was before: the lower arc of the collapsed node
    stays where it was in the up list of its lower node. *)
Theorem VertexCollapse_keeps_up_lists (rg : vtkReebGraph) (N : Z)
    (n : vtkReebNode) (rg' : vtkReebGraph) (M : Z) (l : list Z) :
  vtkReebGraphVertexCollapse rg N n = Some rg' →
  M ≠ N →
  arc_list UpSide rg M l →
  arc_list UpSide rg' M l.
Proof.
  intros H HM (m & Hm & Hc).
  pose (PN := λ (j : Z) (x x' : vtkReebNode), j ≠ N → ArcUpId x' = ArcUpId x).
  pose (PA := λ (_ : Z) (x x' : vtkReebArc),
          ArcUpId0 x' = ArcUpId0 x ∧ ArcDwId0 x' = ArcDwId0 x).
  pose (PL := λ (_ : Z) (_ _ : vtkReebLabel), True).
  destruct (VertexCollapse_inv PN PA PL N n) with (rg := rg) (rg' := rg')
    as (a1 & rg1 & Ha1 & H1 & K & _); [subst PN PA PL; keep_solve..|].
  apply pokeArc_keep with (PN := PN) (PA := PA) (PL := PL) in H1;
    [|subst PN PA PL; keep_solve..].
  assert (K' : graph_keep PN PA PL rg rg').
  { eapply graph_keep_trans; [subst PN PA PL; keep_solve..|exact H1|exact K]. }
  destruct K' as (_ & _ & _ & _ & _ & KN & KA & _).
  destruct (KN M m Hm) as (m' & Hm' & E). exists m'. split; [done|].
  simpl. rewrite (E HM). eapply dchain_ext; [|exact Hc].
  intros x s _ Hs. destruct (KA x s Hs) as (s' & ? & ? & ?). eauto.
Qed.

(** The down links of every arc, and the head of the down list of the upper
    node, after a vertex collapse. *)
Lemma VertexCollapse_down_inv rg N n rg' a1 :
  vtkReebGraphVertexCollapse rg N n = Some rg' →
  vtkReebGraphGetArc rg (to_int (ArcUpId n)) = Some a1 →
  to_int (ArcDownId n) ≠ to_int (ArcUpId n) →
  ArcUpId1 a1 ≠ to_int (ArcUpId n) →
  ArcDwId1 a1 ≠ to_int (ArcUpId n) →
  ArcUpId1 a1 ≠ to_int (ArcDownId n) →
  ArcDwId1 a1 ≠ to_int (ArcDownId n) →
  NodeId1 a1 ≠ N →
  (∀ j x, vtkReebGraphGetArc rg j = Some x →
     ∃ x', vtkReebGraphGetArc rg' j = Some x'
       ∧ ArcUpId1 x'
         = (if decide (j = to_int (ArcDownId n)) then ArcUpId1 a1
            else if decide (j = ArcDwId1 a1) then to_int (ArcDownId n)
            else ArcUpId1 x)
       ∧ ArcDwId1 x'
         = (if decide (j = to_int (ArcDownId n)) then ArcDwId1 a1
            else if decide (j = ArcUpId1 a1) then to_int (ArcDownId n)
            else ArcDwId1 x))
  ∧ ∃ n1 n1', vtkReebGraphGetNode rg (NodeId1 a1) = Some n1
      ∧ vtkReebGraphGetNode rg' (NodeId1 a1) = Some n1'
      ∧ ArcDownId n1'
        = if decide (ArcDownId n1 = to_int (ArcUpId n))
          then to_int (ArcDownId n) else ArcDownId n1.
Proof.
  unfold vtkReebGraphVertexCollapse. cbv zeta.
  set (A0 := to_int (ArcDownId n)). set (A1 := to_int (ArcUpId n)).
  intros H Ha1 H01 Hu1 Hd1 Hu0 Hd0 HN.
  rewrite Ha1 in H. simpl in H.
  apply bind_Some in H as (rg1 & (L1 & N1 & P1)%pokeArc_inv & H).
  rewrite P1, decide_False, Ha1 in H by done. simpl in H.
  apply bind_Some in H as (rg2 & (L2 & N2 & P2)%pokeArc_inv & H).
  rewrite P2, decide_False, P1, decide_False, Ha1 in H by done.
  simpl in H.
  apply bind_Some in H as (rg3 & (L3 & N3 & P3)%pokeArc_if_inv & H).
  rewrite P3, decide_False, P2, decide_False, P1, decide_False, Ha1 in H
    by done.
  simpl in H.
  apply bind_Some in H as (rg4 & (L4 & N4 & P4)%pokeArc_inv & H).
  rewrite P4, decide_False, P3, decide_False, P2, decide_False, P1,
    decide_False, Ha1 in H by done.
  simpl in H.
  apply bind_Some in H as (rg5 & (L5 & N5 & P5)%pokeArc_if_inv & H).
  rewrite P5, decide_False, P4, decide_False, P3, decide_False, P2,
    decide_False, P1, decide_False, Ha1 in H by done.
  simpl in H.
  apply bind_Some in H as (n1 & Hn1 & H).
  rewrite N5, N4, N3, N2, N1 in Hn1.
  apply bind_Some in H as (rg6 & H6 & H).
  assert (K6 : (∀ j, vtkReebGraphGetArc rg6 j = vtkReebGraphGetArc rg5 j)
    ∧ ∃ n1', vtkReebGraphGetNode rg6 (NodeId1 a1) = Some n1'
        ∧ ArcDownId n1' = if decide (ArcDownId n1 = A1) then A0
                          else ArcDownId n1).
  { destruct (decide (ArcDownId n1 = A1)) as [Hd|Hd].
    - apply pokeNode_inv in H6 as (_ & A6 & N6). split; [done|].
      exists (set_ArcDownId A0 n1). split; [|done].
      by rewrite N6, decide_True, N5, N4, N3, N2, N1, Hn1.
    - injection H6 as <-. split; [done|]. exists n1. split; [|done].
      by rewrite N5, N4, N3, N2, N1. }
  destruct K6 as (A6 & n1' & Hn1' & En1').
  pose (PN := λ (j : Z) (x x' : vtkReebNode), j ≠ N → x' = x).
  pose (PA := λ (_ : Z) (x x' : vtkReebArc),
          ArcUpId1 x' = ArcUpId1 x ∧ ArcDwId1 x' = ArcDwId1 x).
  pose (PL := λ (_ : Z) (_ _ : vtkReebLabel), True).
  apply bind_Some in H as (a1g & _ & H).
  apply bind_Some in H as (rg7 & K7 & H).
  apply VertexCollapse_labels_keep with (PN := PN) (PA := PA) (PL := PL)
    in K7; [|subst PN PA PL; keep_solve..].
  apply bind_Some in H as (rg8 & K8 & K9).
  apply DeleteArc_keep with (PN := PN) (PA := PA) (PL := PL) in K8;
    [|subst PN PA PL; keep_solve..].
  apply DeleteNode_keep with (PN := PN) (PA := PA) (PL := PL) in K9;
    [|subst PN PA PL; keep_solve..].
  assert (K : graph_keep PN PA PL rg6 rg').
  { eapply graph_keep_trans; [subst PN PA PL; keep_solve..|exact K7|].
    eapply graph_keep_trans; [subst PN PA PL; keep_solve..|exact K8|].
    exact K9. }
  destruct K as (_ & _ & _ & _ & _ & KN & KA & _).
  split.
  - intros j x Hx.
    assert (∃ x6, vtkReebGraphGetArc rg6 j = Some x6
      ∧ ArcUpId1 x6
        = (if decide (j = A0) then ArcUpId1 a1
           else if decide (j = ArcDwId1 a1) then A0 else ArcUpId1 x)
      ∧ ArcDwId1 x6
        = (if decide (j = A0) then ArcDwId1 a1
           else if decide (j = ArcUpId1 a1) then A0 else ArcDwId1 x))
      as (x6 & Hx6 & E1 & E2).
    { rewrite A6, P5, P4, P3, P2, P1, Hx.
      destruct (decide (j = A0)) as [->|H0].
      - rewrite !(decide_False (P := A0 = _)) by done. simpl. eauto.
      - destruct (decide (j = ArcDwId1 a1)) as [Hjd|Hjd];
          destruct (decide (j = ArcUpId1 a1)) as [Hju|Hju]; simpl; eauto. }
    destruct (KA j x6 Hx6) as (x' & Hx' & E3 & E4).
    exists x'. split; [done|]. split; congruence.
  - exists n1. destruct (KN _ _ Hn1') as (n1'' & Hn1'' & E).
    exists n1''. split; [done|]. split; [done|]. by rewrite (E HN).
Qed.

(** The down list of the upper node after a vertex collapse. *)
Lemma VertexCollapse_down_list (rg : vtkReebGraph) (N : Z)
    (n : vtkReebNode) (rg' : vtkReebGraph) (a1 : vtkReebArc)
    (l1 l2 : list Z) :
  vtkReebGraphGetArc rg (to_int (ArcUpId n)) = Some a1 →
  NodeId1 a1 ≠ N →
  arc_list DownSide rg (NodeId1 a1) (l1 ++ to_int (ArcUpId n) :: l2) →
  to_int (ArcDownId n) ∉ l1 ++ to_int (ArcUpId n) :: l2 →
  vtkReebGraphVertexCollapse rg N n = Some rg' →
  arc_list DownSide rg' (NodeId1 a1) (l1 ++ to_int (ArcDownId n) :: l2).
Proof.
  set (A0 := to_int (ArcDownId n)). set (A1 := to_int (ArcUpId n)).
  intros Ha1 HN Hl H0 H. pose proof Hl as (n1 & Hn1 & Hc).
  pose proof (dchain_NoDup _ _ _ _ _ _ Hc) as Hnd.
  assert (Hin : ∀ x, x ∈ l1 ++ A1 :: l2
                → 0 < x ∧ is_Some (vtkReebGraphGetArc rg x)).
  { intros x. by apply arc_list_slots with (s := DownSide) (N := NodeId1 a1). }
  destruct (dchain_mid _ _ _ _ _ _ _ _ _ Hc Ha1) as [E1 E2].
  simpl in E1, E2.
  apply NoDup_app in Hnd as (Hnd1 & Hd12 & Hnd2).
  apply NoDup_cons in Hnd2 as [HA2 Hnd2].
  assert (Hp : default 0 (last l1) = 0 ∧ l1 = []
               ∨ default 0 (last l1) ∈ l1).
  { destruct (last_default_in l1 0) as [[? ?]|?]; auto. }
  assert (Hx : hd 0 l2 = 0 ∨ hd 0 l2 ∈ l2).
  { destruct (hd_default_in l2) as [[? ?]|?]; auto. }
  assert (HA10 : 0 < A1) by (destruct (Hin A1); [in_list|done]).
  assert (H00 : 0 < A0).
  { unfold vtkReebGraphVertexCollapse in H. cbv zeta in H.
    fold A0 A1 in H. rewrite Ha1 in H. simpl in H.
    apply bind_Some in H as (rg1 & H1 & _).
    unfold pokeArc, poke in H1.
    destruct (peek (MainArcTable rg) A0) eqn:E; [|done].
    apply peek_Some_range in E. lia. }
  destruct (VertexCollapse_down_inv rg N n rg' a1 H Ha1)
    as (HA & n1a & n1' & Hn1a & Hn1' & En1'); fold A0 A1.
  { intros E. apply H0. rewrite E. in_list. }
  { rewrite E1. destruct Hp as [[-> _]|Hp]; [lia|].
    intros EA. rewrite EA in Hp. apply (Hd12 A1 Hp). in_list. }
  { rewrite E2. destruct Hx as [->|Hx]; [lia|].
    intros EA. rewrite EA in Hx. done. }
  { rewrite E1. destruct Hp as [[-> _]|Hp]; [lia|].
    intros EA. rewrite EA in Hp. apply H0. in_list. }
  { rewrite E2. destruct Hx as [->|Hx]; [lia|].
    intros EA. rewrite EA in Hx. apply H0. in_list. }
  { done. }
  fold A0 A1 in HA, En1'.
  assert (n1a = n1) as -> by congruence.
  exists n1'. split; [done|]. simpl.
  assert (Hh : ArcDownId n1' = if l1 is [] then A0 else ArcDownId n1).
  { rewrite En1'. destruct l1 as [|x l1]; simpl in Hc.
    - destruct Hc as [-> _]. by rewrite decide_True.
    - destruct Hc as [-> _]. rewrite decide_False; [done|].
      intros ->. apply (Hd12 A1); in_list. }
  rewrite Hh.
  destruct (vtkReebGraphGetArc rg A0) as [a0|] eqn:Ha0.
  2:{ unfold vtkReebGraphVertexCollapse in H. cbv zeta in H.
      fold A0 A1 in H. rewrite Ha1 in H. simpl in H.
      apply bind_Some in H as (rg1 & H1 & _).
      unfold pokeArc, poke, vtkReebGraphGetArc in *.
      by rewrite Ha0 in H1. }
  apply (dchain_replace ArcUpId1 ArcDwId1 (MainArcTable rg)
           (MainArcTable rg') A0 A1 a1 l1 l2 0 (ArcDownId n1)); try done.
  - intros H0'. destruct (Hin 0 H0'). lia.
  - destruct (HA A0 a0 Ha0) as (x' & Hx' & U & D).
    rewrite decide_True in U, D by done. eauto.
  - intros s Hs0 Hs. destruct (HA _ s Hs) as (x' & Hx' & U & D).
    exists x'. split; [done|].
    assert (ArcUpId1 a1 ≠ A0).
    { rewrite E1. destruct Hp as [[E0 _]|Hp]; [congruence|].
      intros EA. rewrite EA in Hp. apply H0. in_list. }
    rewrite decide_False in U, D by done.
    rewrite decide_True in D by done. split; [|done].
    rewrite U. rewrite decide_False; [done|].
    intros EA. rewrite E1, E2 in EA. rewrite E1 in Hs0.
    destruct Hp as [[? _]|Hp]; [done|].
    destruct Hx as [?|Hx]; [congruence|].
    rewrite EA in Hp. apply (Hd12 _ Hp). in_list.
  - intros s Hs0 Hs. destruct (HA _ s Hs) as (x' & Hx' & U & D).
    exists x'. split; [done|].
    assert (ArcDwId1 a1 ≠ A0).
    { rewrite E2. destruct Hx as [E0|Hx]; [congruence|].
      intros EA. rewrite EA in Hx. apply H0. in_list. }
    rewrite decide_False in U, D by done.
    rewrite decide_True in U by done. split; [done|].
    rewrite D. rewrite decide_False; [done|].
    intros EA. rewrite E1, E2 in EA. rewrite E2 in Hs0.
    destruct Hx as [?|Hx]; [done|].
    destruct Hp as [[? _]|Hp]; [congruence|].
    rewrite <- EA in Hp. apply (Hd12 _ Hp). in_list.
  - intros j s Hj0 Hj1 Hjp Hjn Hs.
    destruct (HA _ s Hs) as (x' & Hx' & U & D).
    exists x'. split; [done|].
    rewrite decide_False in U by done. rewrite decide_False in U by done.
    rewrite decide_False in D by done. rewrite decide_False in D by done.
    done.
Qed.

(** X16. A vertex collapse puts the lower arc in the place of the upper
    arc. If the down list of the upper node [NodeId1] of the upper arc [A1]
    is [l1 ++ A1 :: l2] and the lower arc [A0] is not on it, then after a
    collapse that returns the down list of that node is [l1 ++ A0 :: l2]:
    the lower arc takes over the two neighbours, and the head if the upper
    arc was the head. *)
Theorem VertexCollapse_relinks_down_list (rg : vtkReebGraph) (N : Z)
    (n : vtkReebNode) (rg' : vtkReebGraph) (a1 : vtkReebArc)
    (l1 l2 : list Z) :
  vtkReebGraphGetArc rg (to_int (ArcUpId n)) = Some a1 →
  NodeId1 a1 ≠ N →
  arc_list DownSide rg (NodeId1 a1) (l1 ++ to_int (ArcUpId n) :: l2) →
  to_int (ArcDownId n) ∉ l1 ++ to_int (ArcUpId n) :: l2 →
  vtkReebGraphVertexCollapse rg N n = Some rg' →
  arc_list DownSide rg' (NodeId1 a1) (l1 ++ to_int (ArcDownId n) :: l2).
Proof. apply VertexCollapse_down_list. Qed.

(** ** The further statements at concrete inputs *)

Lemma small_table_ok {T} (t : Table T) :
  Size t = Z.of_nat (length (Buffer t)) →
  0 ≤ Size t ≤ 6 → 0 ≤ Number t ≤ 6 → 0 ≤ FreeZone t ≤ 6 →
  table_ok t.
Proof. intros ? ? ? ?. unfold table_ok, in_int, INT_MIN, INT_MAX. lia. Qed.

Lemma chain3_arcs_ordered : arcs_ordered chain3.
Proof.
  intros A a [H Hl]. unfold vtkReebGraphGetArc, peek in H. simpl in H.
  case_decide; [|discriminate].
  destruct (Z.to_nat A) as [|[|[|[|k]]]] eqn:E; simpl in H;
    [lia| | | |discriminate]; injection H as <-; try reflexivity.
  by destruct Hl.
Qed.

Lemma VertexCollapse_frame_witness :
  ∃ rg', vtkReebGraphVertexCollapse chain3 2 chain3_n2 = Some rg'
    ∧ graph_keep (collapse_node_rel 2)
        (collapse_arc_rel (to_int (ArcDownId chain3_n2))
                          (to_int (ArcUpId chain3_n2)))
        collapse_label_rel chain3 rg'
    ∧ vtkReebGraphIsArcCleared rg' (to_int (ArcUpId chain3_n2)) = Some true
    ∧ vtkReebGraphIsNodeCleared rg' 2 = Some true.
Proof.
  eexists. split; [vm_compute; reflexivity|].
  apply VertexCollapse_frame. vm_compute. reflexivity.
Defined.

Lemma VertexCollapse_keeps_arcs_ordered_witness :
  table_ok (MainArcTable chain3)
  ∧ live_arc chain3 (ArcDownId chain3_n2) chain3_a1
  ∧ live_arc chain3 (ArcUpId chain3_n2) chain3_a2
  ∧ arcs_ordered chain3
  ∧ ∃ rg', vtkReebGraphVertexCollapse chain3 2 chain3_n2 = Some rg'
      ∧ arcs_ordered rg'.
Proof.
  assert (H1 : table_ok (MainArcTable chain3))
    by (apply small_table_ok; simpl; lia).
  assert (H2 : live_arc chain3 (ArcDownId chain3_n2) chain3_a1)
    by (split; [reflexivity|discriminate]).
  assert (H3 : live_arc chain3 (ArcUpId chain3_n2) chain3_a2)
    by (split; [reflexivity|discriminate]).
  split; [exact H1|]. split; [exact H2|]. split; [exact H3|].
  split; [exact chain3_arcs_ordered|].
  eexists. split; [vm_compute; reflexivity|].
  apply (VertexCollapse_keeps_arcs_ordered chain3 2 chain3_n2 chain3_a1
           chain3_a2 _ H1 H2 H3 eq_refl eq_refl chain3_arcs_ordered).
  vm_compute. reflexivity.
Defined.

Lemma pool_new_pops_free_list_witness :
  pool_ok NodePool chain3
  ∧ pool_Number NodePool chain3 < INT_MAX
  ∧ pool_free_list NodePool chain3 [4]
  ∧ ∃ rg', pool_new NodePool chain3 = Some (4, rg')
      ∧ pool_ok NodePool rg'
      ∧ pool_free_list NodePool rg' []
      ∧ pool_Number NodePool rg' = pool_Number NodePool chain3 + 1
      ∧ pool_zeroed NodePool rg' 4
      ∧ pool_same_but NodePool 4 chain3 rg'.
Proof.
  assert (H1 : pool_ok NodePool chain3)
    by (apply small_table_ok; simpl; lia).
  assert (H2 : pool_Number NodePool chain3 < INT_MAX)
    by (unfold INT_MAX; simpl; lia).
  assert (H3 : pool_free_list NodePool chain3 [4]).
  { simpl. split; [reflexivity|]. eexists. split; reflexivity. }
  split; [exact H1|]. split; [exact H2|]. split; [exact H3|].
  exact (pool_new_pops_free_list NodePool chain3 [4] H1 H2 H3).
Defined.

Lemma pool_delete_pushes_free_list_witness :
  pool_ok LabelPool chain3
  ∧ INT_MIN < pool_Number LabelPool chain3
  ∧ pool_slot LabelPool chain3 2
  ∧ (2 ∉ [5])
  ∧ pool_free_list LabelPool chain3 [5]
  ∧ ∃ rg', pool_delete LabelPool chain3 2 = Some rg'
      ∧ pool_ok LabelPool rg'
      ∧ pool_free_list LabelPool rg' [2; 5]
      ∧ pool_Number LabelPool rg' = pool_Number LabelPool chain3 - 1
      ∧ pool_cleared LabelPool rg' 2
      ∧ pool_same_but LabelPool 2 chain3 rg'.
Proof.
  assert (H1 : pool_ok LabelPool chain3)
    by (apply small_table_ok; simpl; lia).
  assert (H2 : INT_MIN < pool_Number LabelPool chain3)
    by (unfold INT_MIN; simpl; lia).
  assert (H3 : pool_slot LabelPool chain3 2) by (simpl; by eexists).
  assert (H4 : 2 ∉ [5]).
  { intros H. apply elem_of_cons in H as [H|H]; [discriminate|].
    by apply elem_of_nil in H. }
  assert (H5 : pool_free_list LabelPool chain3 [5]).
  { simpl. split; [reflexivity|]. eexists. split; reflexivity. }
  split; [exact H1|]. split; [exact H2|]. split; [exact H3|].
  split; [exact H4|]. split; [exact H5|].
  exact (pool_delete_pushes_free_list LabelPool chain3 2 [5] H1 H2 H3 H4 H5).
Defined.

Lemma pool_double_delete_cycles_witness :
  pool_ok ArcPool chain3
  ∧ pool_free_list ArcPool chain3 [3]
  ∧ (3 ∈ [3])
  ∧ ∃ rg', pool_delete ArcPool chain3 3 = Some rg'
      ∧ ∀ l, ¬ pool_free_list ArcPool rg' l.
Proof.
  assert (H1 : pool_ok ArcPool chain3)
    by (apply small_table_ok; simpl; lia).
  assert (H2 : pool_free_list ArcPool chain3 [3]).
  { simpl. split; [reflexivity|]. eexists. split; reflexivity. }
  assert (H3 : 3 ∈ [3]) by (apply elem_of_cons; by left).
  split; [exact H1|]. split; [exact H2|]. split; [exact H3|].
  eexists. split; [vm_compute; reflexivity|].
  apply (pool_double_delete_cycles ArcPool chain3 _ 3 [3] H1 H2 H3).
  vm_compute. reflexivity.
Defined.

Lemma pool_new_then_delete_witness :
  pool_ok ArcPool chain3
  ∧ pool_Number ArcPool chain3 < INT_MAX
  ∧ pool_free_list ArcPool chain3 [3]
  ∧ ∃ rg1 rg2, pool_new ArcPool chain3 = Some (3, rg1)
      ∧ pool_delete ArcPool rg1 3 = Some rg2
      ∧ pool_ok ArcPool rg2
      ∧ pool_free_list ArcPool rg2 [3]
      ∧ pool_Number ArcPool rg2 = pool_Number ArcPool chain3
      ∧ pool_FreeZone ArcPool rg2 = pool_FreeZone ArcPool chain3
      ∧ pool_cleared ArcPool rg2 3
      ∧ pool_same_but ArcPool 3 chain3 rg2.
Proof.
  assert (H1 : pool_ok ArcPool chain3)
    by (apply small_table_ok; simpl; lia).
  assert (H2 : pool_Number ArcPool chain3 < INT_MAX)
    by (unfold INT_MAX; simpl; lia).
  assert (H3 : pool_free_list ArcPool chain3 [3]).
  { simpl. split; [reflexivity|]. eexists. split; reflexivity. }
  split; [exact H1|]. split; [exact H2|]. split; [exact H3|].
  exact (pool_new_then_delete ArcPool chain3 3 [] H1 H2 H3).
Defined.

Lemma join4_down_list : arc_list DownSide join4 4 [3; 2].
Proof.
  eexists. split; [reflexivity|]. simpl.
  split; [reflexivity|]. eexists. split; [reflexivity|].
  split; [reflexivity|]. simpl.
  split; [reflexivity|]. eexists. split; [reflexivity|].
  split; reflexivity.
Qed.

Lemma not_in_2 (x a b : Z) : x ≠ a → x ≠ b → x ∉ [a; b].
Proof.
  intros ? ? H. apply elem_of_cons in H as [H|H]; [done|].
  apply elem_of_cons in H as [H|H]; [done|]. by apply elem_of_nil in H.
Qed.

Lemma AddArcTo_prepends_witness :
  arc_list DownSide join4 4 [3; 2]
  ∧ is_Some (vtkReebGraphGetArc join4 1)
  ∧ (1 ∉ [3; 2])
  ∧ ∃ rg', AddArcTo DownSide join4 4 1 = Some rg'
      ∧ arc_list DownSide rg' 4 [1; 3; 2]
      ∧ graph_keep (side_node_rel DownSide 4)
          (side_arc_rel DownSide [1; hd 0 [3; 2]])
          (λ _ x x', x' = x) join4 rg'.
Proof.
  assert (H2 : is_Some (vtkReebGraphGetArc join4 1)) by (by eexists).
  assert (H3 : 1 ∉ [3; 2]) by (apply not_in_2; discriminate).
  split; [exact join4_down_list|]. split; [exact H2|]. split; [exact H3|].
  exact (AddArcTo_prepends DownSide join4 4 1 [3; 2] join4_down_list H2 H3).
Defined.

Lemma RemoveArcFrom_unlinks_witness :
  arc_list DownSide join4 4 ([3] ++ 2 :: [])
  ∧ ∃ rg', RemoveArcFrom DownSide join4 4 2 = Some rg'
      ∧ arc_list DownSide rg' 4 ([3] ++ [])
      ∧ vtkReebGraphGetArc rg' 2 = vtkReebGraphGetArc join4 2
      ∧ graph_keep (side_node_rel DownSide 4)
          (side_arc_rel DownSide ([3] ++ []))
          (λ _ x x', x' = x) join4 rg'.
Proof.
  split; [exact join4_down_list|].
  exact (RemoveArcFrom_unlinks DownSide join4 4 2 [3] [] join4_down_list).
Defined.

Lemma AddArcTo_raises_degree_witness :
  table_ok (MainArcTable join4)
  ∧ arc_list DownSide join4 4 [3; 2]
  ∧ is_Some (vtkReebGraphGetArc join4 1)
  ∧ (1 ∉ [3; 2])
  ∧ ∃ rg', AddArcTo DownSide join4 4 1 = Some rg'
      ∧ side_degree DownSide join4 4 = Some 2
      ∧ side_degree DownSide rg' 4 = Some 3.
Proof.
  assert (H1 : table_ok (MainArcTable join4))
    by (apply small_table_ok; simpl; lia).
  assert (H3 : is_Some (vtkReebGraphGetArc join4 1)) by (by eexists).
  assert (H4 : 1 ∉ [3; 2]) by (apply not_in_2; discriminate).
  split; [exact H1|]. split; [exact join4_down_list|]. split; [exact H3|].
  split; [exact H4|].
  eexists. split; [vm_compute; reflexivity|].
  apply (AddArcTo_raises_degree DownSide join4 _ 4 1 [3; 2] H1
           join4_down_list H3 H4).
  vm_compute. reflexivity.
Defined.

Lemma RemoveArcFrom_lowers_degree_witness :
  table_ok (MainArcTable join4)
  ∧ arc_list DownSide join4 4 ([] ++ 3 :: [2])
  ∧ ∃ rg', RemoveArcFrom DownSide join4 4 3 = Some rg'
      ∧ ∃ d, side_degree DownSide join4 4 = Some d
          ∧ side_degree DownSide rg' 4 = Some (d - 1).
Proof.
  assert (H1 : table_ok (MainArcTable join4))
    by (apply small_table_ok; simpl; lia).
  split; [exact H1|]. split; [exact join4_down_list|].
  eexists. split; [vm_compute; reflexivity|].
  apply (RemoveArcFrom_lowers_degree DownSide join4 _ 4 3 [] [2] H1
           join4_down_list).
  vm_compute. reflexivity.
Defined.

Lemma AddArcTo_then_RemoveArcFrom_witness :
  arc_list DownSide join4 4 [3; 2]
  ∧ vtkReebGraphGetArc join4 1 = Some (mkArc 1 0 0 2 0 0 0 0)
  ∧ (1 ∉ [3; 2])
  ∧ ∃ rg1 rg2, AddArcTo DownSide join4 4 1 = Some rg1
      ∧ RemoveArcFrom DownSide rg1 4 1 = Some rg2
      ∧ links_only join4 rg2
      ∧ arc_list DownSide rg2 4 [3; 2]
      ∧ (∀ j, vtkReebGraphGetNode rg2 j = vtkReebGraphGetNode join4 j)
      ∧ (∀ j, j ≠ 1 → vtkReebGraphGetArc rg2 j = vtkReebGraphGetArc join4 j)
      ∧ vtkReebGraphGetArc rg2 1
        = Some (set_side_next DownSide (hd 0 [3; 2])
                  (set_side_prev DownSide 0 (mkArc 1 0 0 2 0 0 0 0))).
Proof.
  assert (H3 : 1 ∉ [3; 2]) by (apply not_in_2; discriminate).
  split; [exact join4_down_list|]. split; [reflexivity|]. split; [exact H3|].
  exact (AddArcTo_then_RemoveArcFrom DownSide join4 4 1 _ [3; 2]
           join4_down_list eq_refl H3).
Defined.

Lemma VertexCollapse_keeps_up_lists_witness :
  3 ≠ 2
  ∧ arc_list UpSide join4 3 [3]
  ∧ ∃ rg', vtkReebGraphVertexCollapse join4 2 join4_n2 = Some rg'
      ∧ arc_list UpSide rg' 3 [3].
Proof.
  assert (H1 : (3 : Z) ≠ 2) by discriminate.
  assert (H2 : arc_list UpSide join4 3 [3]).
  { eexists. split; [reflexivity|]. simpl.
    split; [reflexivity|]. eexists. split; [reflexivity|].
    split; reflexivity. }
  split; [exact H1|]. split; [exact H2|].
  eexists. split; [vm_compute; reflexivity|].
  apply (VertexCollapse_keeps_up_lists join4 2 join4_n2 _ 3 [3]);
    [vm_compute; reflexivity|exact H1|exact H2].
Defined.

Lemma VertexCollapse_relinks_down_list_witness :
  vtkReebGraphGetArc join4 (to_int (ArcUpId join4_n2)) = Some join4_a2
  ∧ NodeId1 join4_a2 ≠ 2
  ∧ arc_list DownSide join4 (NodeId1 join4_a2)
      ([3] ++ to_int (ArcUpId join4_n2) :: [])
  ∧ (to_int (ArcDownId join4_n2) ∉ [3] ++ to_int (ArcUpId join4_n2) :: [])
  ∧ ∃ rg', vtkReebGraphVertexCollapse join4 2 join4_n2 = Some rg'
      ∧ arc_list DownSide rg' (NodeId1 join4_a2)
          ([3] ++ to_int (ArcDownId join4_n2) :: []).
Proof.
  assert (H2 : NodeId1 join4_a2 ≠ 2) by discriminate.
  assert (H4 : to_int (ArcDownId join4_n2)
               ∉ [3] ++ to_int (ArcUpId join4_n2) :: []).
  { apply not_in_2; discriminate. }
  split; [reflexivity|]. split; [exact H2|].
  split; [exact join4_down_list|]. split; [exact H4|].
  eexists. split; [vm_compute; reflexivity|].
  apply (VertexCollapse_relinks_down_list join4 2 join4_n2 _ join4_a2 [3] []
           eq_refl H2 join4_down_list H4).
  vm_compute. reflexivity.
Defined.

(** * The order of the arcs, and the collapse of a node *)

Lemma IsSmaller2_values rg rg' i j b :
  (∀ k n, vtkReebGraphGetNode rg k = Some n →
     ∃ n', vtkReebGraphGetNode rg' k = Some n' ∧ Value n' = Value n) →
  vtkReebGraphIsSmaller2 rg i j = Some b →
  vtkReebGraphIsSmaller2 rg' i j = Some b.
Proof.
  intros K. unfold vtkReebGraphIsSmaller2, vtkReebGraphIsSmaller.
  destruct (vtkReebGraphGetNode rg i) as [x|] eqn:Hx; [|done].
  destruct (vtkReebGraphGetNode rg j) as [y|] eqn:Hy; [|done]. simpl.
  destruct (K i x Hx) as (x' & -> & Vx).
  destruct (K j y Hy) as (y' & -> & Vy). simpl.
  by rewrite Vx, Vy.
Qed.

(** An arc added between two ordered nodes keeps the arcs ordered. *)
Lemma arc_added_ordered rg x y rg' :
  arc_added rg x y rg' →
  vtkReebGraphIsSmaller2 rg x y = Some true →
  arcs_ordered rg → arcs_ordered rg'.
Proof.
  intros [KN KA] Hxy Hord B b Hb.
  destruct (KA B b Hb) as [(b0 & Hb0 & <- & <-)|[-> ->]].
  - apply (IsSmaller2_values rg); [done|]. by apply (Hord B).
  - by apply (IsSmaller2_values rg).
Qed.


(** C2, as the code has it. At a node with a lower arc [a0] and an upper arc
    [a1], [vtkReebGraphVertexCollapse] returns, and afterwards: the lower arc
    spans from its own lower node to the upper node of [a1], with its own
    label chain, and is in the place of [a1] in the down list of that node,
    between the same neighbours; the node and the upper arc are deleted;
    every label of the upper arc is deleted too, none is moved to the lower
    arc, and each vertical neighbour of a deleted label is linked to the
    neighbour on the other side; every other label stays on its arc with its
    tag and horizontal links. *)
Theorem VertexCollapse_deletes_upper_arc_and_its_labels
    (rg : vtkReebGraph) (N : Z) (n : vtkReebNode) (a0 a1 : vtkReebArc)
    (ls l1 l2 : list Z) :
  collapsible rg N n a0 a1 ls →
  NodeId1 a1 ≠ N →
  arc_list DownSide rg (NodeId1 a1) (l1 ++ ArcUpId n :: l2) →
  ArcDownId n ∉ l1 ++ ArcUpId n :: l2 →
  ∃ rg',
    vtkReebGraphVertexCollapse rg N n = Some rg'
    ∧ vtkReebGraphGetArc rg' (ArcDownId n)
      = Some (mkArc (NodeId0 a0) (ArcUpId0 a0) (ArcDwId0 a0)
                    (NodeId1 a1) (ArcUpId1 a1) (ArcDwId1 a1)
                    (LabelId0 a0) (LabelId1 a0))
    ∧ arc_list DownSide rg' (NodeId1 a1) (l1 ++ ArcDownId n :: l2)
    ∧ vtkReebGraphIsNodeCleared rg' N = Some true
    ∧ Number (MainNodeTable rg') = Number (MainNodeTable rg) - 1
    ∧ vtkReebGraphIsArcCleared rg' (ArcUpId n) = Some true
    ∧ Number (MainArcTable rg') = Number (MainArcTable rg) - 1
    ∧ labels_unthreaded rg ls rg'
    ∧ labels_kept rg ls rg'.
Proof.
  intros Hc HN Hl H0.
  pose proof Hc as (HokA & _ & _ & _ & HA0 & HA1 & _).
  pose proof (to_int_id _ (peek_in_int (MainArcTable rg) _ a0 HokA HA0)) as I0.
  pose proof (to_int_id _ (peek_in_int (MainArcTable rg) _ a1 HokA HA1)) as I1.
  destruct (VertexCollapse_spec rg N n a0 a1 ls Hc)
    as (rg' & H & Ha & Hrest).
  exists rg'. split; [done|]. split; [done|]. split; [|done].
  pose proof (VertexCollapse_down_list rg N n rg' a1 l1 l2) as HD.
  rewrite I0, I1 in HD. by apply HD.
Qed.

(** ** These statements at concrete inputs *)

Lemma chain3_arc13_added : arc_added chain3 1 3 chain3_arc13.
Proof.
  split.
  - intros j n H. unfold vtkReebGraphGetNode, peek in *. simpl in *.
    case_decide; [|discriminate].
    destruct (Z.to_nat j) as [|[|[|[|[|k]]]]] eqn:E; simpl in *;
      try discriminate; injection H as <-; eexists; split; reflexivity.
  - intros B b [H Hl]. unfold vtkReebGraphGetArc, peek in H. simpl in H.
    case_decide; [|discriminate].
    destruct (Z.to_nat B) as [|[|[|[|k]]]] eqn:E; simpl in H;
      try discriminate; injection H as <-.
    + lia.
    + left. assert (B = 1) as -> by lia. exists chain3_a1.
      split; [split; [reflexivity|discriminate]|]. split; reflexivity.
    + left. assert (B = 2) as -> by lia. exists chain3_a2.
      split; [split; [reflexivity|discriminate]|]. split; reflexivity.
    + right. split; reflexivity.
Qed.


Lemma join4l_collapsible :
  collapsible join4l 2 join4_n2 join4l_a1 join4l_a2 [2; 3].
Proof.
  unfold collapsible.
  split; [apply small_table_ok; simpl; lia|].
  split; [apply small_table_ok; simpl; lia|].
  split; [apply small_table_ok; simpl; lia|].
  do 3 (split; [reflexivity|]). split; [discriminate|].
  split; [right; split; [by eexists|split; discriminate]|].
  split; [by left|]. split; [by eexists|].
  split.
  { simpl. split; [reflexivity|]. eexists. split; [reflexivity|]. simpl.
    split; [reflexivity|]. eexists. split; reflexivity. }
  split; [|simpl; lia].
  split.
  - intros x lx Hx Hlx.
    apply elem_of_cons in Hx as [->|Hx];
      [|apply elem_of_cons in Hx as [->|Hx]; [|by apply elem_of_nil in Hx]];
      injection Hlx as <-; simpl;
      (split; [right|by left]); (split; [by eexists|]);
      intros Hin; repeat (apply elem_of_cons in Hin as [Hin|Hin]; [discriminate|]);
      by apply elem_of_nil in Hin.
  - intros x y lx ly Hx Hy Hxy Hlx Hly.
    apply elem_of_cons in Hx as [->|Hx];
      [|apply elem_of_cons in Hx as [->|Hx]; [|by apply elem_of_nil in Hx]];
      (apply elem_of_cons in Hy as [->|Hy];
        [|apply elem_of_cons in Hy as [->|Hy]; [|by apply elem_of_nil in Hy]]);
      try done; injection Hlx as <-; injection Hly as <-; simpl; split; done.
Qed.

Lemma join4l_down_list : arc_list DownSide join4l 4 [3; 2].
Proof.
  eexists. split; [reflexivity|]. simpl.
  split; [reflexivity|]. eexists. split; [reflexivity|].
  split; [reflexivity|]. simpl.
  split; [reflexivity|]. eexists. split; [reflexivity|].
  split; reflexivity.
Qed.

Lemma VertexCollapse_deletes_upper_arc_and_its_labels_witness :
  collapsible join4l 2 join4_n2 join4l_a1 join4l_a2 [2; 3]
  ∧ NodeId1 join4l_a2 ≠ 2
  ∧ arc_list DownSide join4l (NodeId1 join4l_a2)
      ([3] ++ ArcUpId join4_n2 :: [])
  ∧ (ArcDownId join4_n2 ∉ [3] ++ ArcUpId join4_n2 :: [])
  ∧ ∃ rg',
      vtkReebGraphVertexCollapse join4l 2 join4_n2 = Some rg'
      ∧ vtkReebGraphGetArc rg' 1 = Some (mkArc 1 0 0 4 3 0 1 4)
      ∧ arc_list DownSide rg' 4 [3; 1]
      ∧ vtkReebGraphIsNodeCleared rg' 2 = Some true
      ∧ vtkReebGraphIsArcCleared rg' 2 = Some true
      ∧ labels_unthreaded join4l [2; 3] rg'
      ∧ labels_kept join4l [2; 3] rg'.
Proof.
  assert (H2 : NodeId1 join4l_a2 ≠ 2) by discriminate.
  assert (H4 : ArcDownId join4_n2 ∉ [3] ++ ArcUpId join4_n2 :: []).
  { apply not_in_2; discriminate. }
  split; [exact join4l_collapsible|]. split; [exact H2|].
  split; [exact join4l_down_list|]. split; [exact H4|].
  destruct (VertexCollapse_deletes_upper_arc_and_its_labels join4l 2
              join4_n2 join4l_a1 join4l_a2 [2; 3] [3] []
              join4l_collapsible H2 join4l_down_list H4)
    as (rg' & H & Ha & Hl & Hn & _ & Hc & _ & Hu & Hk).
  exists rg'. split; [exact H|]. split; [exact Ha|]. split; [exact Hl|].
  split; [exact Hn|]. split; [exact Hc|]. split; [exact Hu|exact Hk].
Defined.

